(** * GraphSampler: a shallow embedding of [src/GraphSampler.py]

    The nine sampling methods of the class [GraphSampler] are embedded as
    programs of a small state-and-exception monad.  The state is the part of
    the Python world the methods can touch: the graph held in [self.G], the
    random source of the [random] module and the console.

    Modelling conventions.
    - A NetworkX [Graph] is its adjacency dictionary [_adj], kept as an
      association list in insertion order (Python dictionaries iterate in
      insertion order).
    - Python integers are [Z].
    - A Python [set] is a duplicate-free list; the order in which CPython
      iterates over a set is not specified by the language, so every
      iteration over a set takes its order from the environment.
    - The environment resolves each choice through a stream of integers
      ([draws]), read at [cursor].
    - A Python float is the rational it denotes.  The quotient of two
      integers is rounded to the nearest binary64 value as [int / int] does
      ([round_binary64]); comparisons of floats are exact.

    Of [src/Graph_Classes/GraphAnalyzers.py] the method
    [BipartiteGraphAnalyzer.plot_degree_correlation] is embedded, over the
    same world extended with the list of [matplotlib.pyplot] calls.  The
    other methods of the analyzers pass the graph to NetworkX algorithms and
    the result to matplotlib, and have no logic of their own to embed. *)

From Stdlib Require Import ZArith QArith Qminmax Qround Qpower SpecFloat Lia.
From stdpp Require Import base decidable option list numbers relations sorting strings.

Set Default Proof Using "Type".
Set Warnings "-clear-no-such-hyp".
Open Scope Z_scope.

(** ** Exceptions and outcomes *)

Inductive Exn : Type :=
  | NetworkXError      (* [G.neighbors(n)], [G.degree(n)]: [n] is not in [G] *)
  | ZeroDivisionError  (* [a / 0] *)
  | ValueError         (* [random.sample]: larger than population or negative *)
  | IndexError.        (* [random.choice] on an empty sequence *)

Inductive Outcome (A : Type) : Type :=
  | Ret (a : A)
  | Raise (e : Exn)
  | OutOfFuel.
Arguments Ret {A} a.
Arguments Raise {A} e.
Arguments OutOfFuel {A}.

(** One pass through the body of a [while] loop. *)
Inductive Iter (S R : Type) : Type :=
  | Continue (s : S)
  | Break (r : R).
Arguments Continue {S R} s.
Arguments Break {S R} r.

(** ** The monad: state threading, exceptions, and fuel for [while] *)

Definition M (W A : Type) : Type := W → Outcome A * W.

Definition ret {W A} (a : A) : M W A := λ w, (Ret a, w).

Definition bind {W A B} (m : M W A) (k : A → M W B) : M W B :=
  λ w, match m w with
       | (Ret a, w') => k a w'
       | (Raise e, w') => (Raise e, w')
       | (OutOfFuel, w') => (OutOfFuel, w')
       end.

Definition raise {W A} (e : Exn) : M W A := λ w, (Raise e, w).

Definition out_of_fuel {W A} : M W A := λ w, (OutOfFuel, w).

Declare Scope py_scope.
Delimit Scope py_scope with py.
Notation "x <- c1 ;; c2" := (bind c1 (λ x, c2))
  (at level 100, c1 at next level, right associativity) : py_scope.
Notation "c1 ;; c2" := (bind c1 (λ _, c2))
  (at level 100, right associativity) : py_scope.

(** A [while] loop: [body] is one pass, [fuel] bounds the number of passes
    (Python has no such bound; [OutOfFuel] stands for "still running"). *)
Fixpoint while {W S R} (body : S → M W (Iter S R)) (fuel : nat) (s : S) : M W R :=
  match fuel with
  | O => out_of_fuel
  | Datatypes.S fuel' =>
      bind (body s) (λ r, match r with
                          | Continue s' => while body fuel' s'
                          | Break r => ret r
                          end)
  end.

(** The states in which a [while] loop started in state [s0] and world [w0]
    tests its condition. *)
Inductive loop_reaches {W S R} (body : S → M W (Iter S R)) (s0 : S) (w0 : W)
    : S → W → Prop :=
  | loop_reaches_start : loop_reaches body s0 w0 s0 w0
  | loop_reaches_pass s w s' w' :
      loop_reaches body s0 w0 s w →
      body s w = (Ret (Continue s'), w') →
      loop_reaches body s0 w0 s' w'.

(** [l.pop()] on a non-empty Python list: the list without its last element,
    and that element. *)
Fixpoint pop {A} (l : list A) : option (list A * A) :=
  match l with
  | [] => None
  | x :: l' =>
      match pop l' with
      | None => Some ([], x)
      | Some (l'', y) => Some (x :: l'', y)
      end
  end.

(** [l[:k]] *)
Definition slice_to {A} (l : list A) (k : Z) : list A :=
  if decide (0 ≤ k) then take (Z.to_nat k) l
  else take (length l - Z.to_nat (- k)) l.

(** ** Python floats

    A float is the rational it denotes.  [int / int] is correctly rounded:
    the result is the float nearest to the quotient, with 53 significant
    bits, a tie going to the even significand.  The operands of every
    division of the program are sizes of Python containers; their quotients
    lie between 2^-63 and 2^63, so the exponent range of binary64 (overflow
    above 2^1024, gradual underflow below 2^-1022) is not part of the
    model. *)

(** [⌊log2 q⌋] for a positive [q]. *)
Definition floor_log2 (q : Q) : Z :=
  let k := Z.log2 (Qnum q) - Z.log2 (Zpos (Qden q)) in
  if Qle_bool (2 ^ k) q then k else k - 1.

(** The integer nearest to [s], the even one of two that are equally near. *)
Definition round_half_even (s : Q) : Z :=
  let f := Qfloor s in
  match (s - inject_Z f ?= 1 # 2)%Q with
  | Lt => f
  | Gt => f + 1
  | Eq => if Z.even f then f else f + 1
  end.

(** A positive [q] rounded to 53 significant bits. *)
Definition round_53 (q : Q) : Q :=
  let e := floor_log2 q - 52 in
  Qred (inject_Z (round_half_even (q / 2 ^ e)) * 2 ^ e).

Definition round_binary64 (q : Q) : Q :=
  match Qnum q with
  | Z0 => 0%Q
  | Zpos _ => round_53 q
  | Zneg _ => (- round_53 (- q))%Q
  end.

(** The value of a float of the Standard Library's specification of
    IEEE 754 arithmetic. *)
Definition spec_float_value (x : spec_float) : option Q :=
  match x with
  | S754_zero _ => Some 0%Q
  | S754_finite s m e =>
      Some (Qred (inject_Z (if s then Z.neg m else Z.pos m) * 2 ^ e))
  | _ => None
  end.

Section Sampler.
Context {Node : Type} `{EqDecision Node}.

(** ** NetworkX graphs *)

Definition Graph : Type := list (Node * list Node).

Definition Edge : Type := (Node * Node)%type.

Definition nodes (g : Graph) : list Node := g.*1.

Fixpoint adj (g : Graph) (n : Node) : option (list Node) :=
  match g with
  | [] => None
  | (m, l) :: g' => if decide (m = n) then Some l else adj g' n
  end.

(** [v in G[u]] *)
Definition adjacent (g : Graph) (u v : Node) : Prop :=
  match adj g u with
  | Some l => v ∈ l
  | None => False
  end.

#[global] Instance adjacent_dec g u v : Decision (adjacent g u v).
Proof. unfold adjacent. destruct (adj g u); apply _. Defined.

Definition number_of_nodes (g : Graph) : Z := Z.of_nat (length g).

(** [G.degree(n)]: a self-loop counts twice. *)
Definition degree (g : Graph) (n : Node) : option Z :=
  match adj g n with
  | Some l => Some (Z.of_nat (length l) + (if decide (n ∈ l) then 1 else 0))
  | None => None
  end.

Definition add_node (g : Graph) (n : Node) : Graph :=
  if decide (n ∈ nodes g) then g else g ++ [(n, [])].

(** [_adj[u][v] = {}] for a [u] that is a node. *)
Definition add_nbr (u v : Node) (g : Graph) : Graph :=
  (λ e : Node * list Node,
     if decide (e.1 = u)
     then (e.1, if decide (v ∈ e.2) then e.2 else e.2 ++ [v])
     else e) <$> g.

Definition add_edge (g : Graph) (u v : Node) : Graph :=
  add_nbr v u (add_nbr u v (add_node (add_node g u) v)).

(** [G.edges()]: every node reports the neighbours that were not reported
    from before. *)
Fixpoint edges_from (seen : list Node) (g : Graph) : list Edge :=
  match g with
  | [] => []
  | (n, l) :: g' =>
      ((λ m, (n, m)) <$> filter (λ m, m ∉ seen) l) ++ edges_from (n :: seen) g'
  end.

Definition edges (g : Graph) : list Edge := edges_from [] g.

Definition number_of_edges (g : Graph) : Z := Z.of_nat (length (edges g)).

(** The invariants every NetworkX [Graph] has: dictionary keys are unique
    and adjacency is symmetric. *)
Definition wf_graph (g : Graph) : Prop :=
  NoDup (nodes g) ∧
  Forall (λ e, NoDup e.2 ∧ Forall (λ m, adjacent g m e.1) e.2) g.

#[global] Instance wf_graph_dec g : Decision (wf_graph g).
Proof. unfold wf_graph. apply _. Defined.

Definition connected (g : Graph) : Prop :=
  ∀ u v, u ∈ nodes g → v ∈ nodes g → rtc (adjacent g) u v.

(** ** Python sets *)

Definition PySet : Type := list Node.

Definition set_add (s : PySet) (x : Node) : PySet :=
  if decide (x ∈ s) then s else s ++ [x].

Definition set_of (l : list Node) : PySet := foldl set_add [] l.

Definition set_len (s : PySet) : Z := Z.of_nat (length s).


(** ** The world *)

Record World : Type := mkWorld {
  graph : Graph;          (* self.G *)
  draws : nat → Z;        (* the answers of the environment *)
  cursor : nat;           (* how many answers were consumed *)
  stdout : list string;   (* lines printed *)
}.

Abbreviation Py := (M World).

(** *** Reading the graph: the four methods of the graph view *)

Definition G_neighbors (n : Node) : Py (list Node) :=
  λ w, match adj (graph w) n with
       | Some l => (Ret l, w)
       | None => (Raise NetworkXError, w)
       end.

Definition G_degree (n : Node) : Py Z :=
  λ w, match degree (graph w) n with
       | Some d => (Ret d, w)
       | None => (Raise NetworkXError, w)
       end.

Definition G_nodes : Py (list Node) := λ w, (Ret (nodes (graph w)), w).

Definition G_edges : Py (list Edge) := λ w, (Ret (edges (graph w)), w).

Definition print (line : string) : Py unit :=
  λ w, (Ret (), mkWorld (graph w) (draws w) (cursor w) (stdout w ++ [line])).

(** *** The random source

    [randbelow n] is the one primitive: the next answer of the environment,
    reduced to [0 .. n-1].  The functions of the [random] module are
    expressed with it, following their contracts: [choice] returns an
    element of the sequence, [random] a float in the unit interval with 53
    bits, [shuffle] the same elements in another order, [sample] elements at
    [k] distinct positions. *)

Definition randbelow (n : nat) : Py nat :=
  λ w, (Ret (Z.to_nat (draws w (cursor w) `mod` Z.of_nat n)),
        mkWorld (graph w) (draws w) (S (cursor w)) (stdout w)).

Definition random_choice {A} (l : list A) : Py A :=
  match l with
  | [] => raise IndexError
  | x :: _ => (i <- randbelow (length l);; ret (nth i l x))%py
  end.

Definition random_random : Py Q :=
  λ w, (Ret (Qmake (draws w (cursor w) `mod` 2 ^ 53) (2 ^ 53)),
        mkWorld (graph w) (draws w) (S (cursor w)) (stdout w)).

(** Draw [k] elements of [l] at distinct positions, in the order drawn. *)
Fixpoint picks {A} (k : nat) (l : list A) : Py (list A) :=
  match k, l with
  | S k', x :: _ =>
      (i <- randbelow (length l);;
       rest <- picks k' (delete i l);;
       ret (nth i l x :: rest))%py
  | _, _ => ret []
  end.

Definition random_shuffle {A} (l : list A) : Py (list A) := picks (length l) l.

Definition random_sample {A} (population : list A) (k : Z) : Py (list A) :=
  if decide (0 ≤ k ≤ Z.of_nat (length population))
  then picks (Z.to_nat k) population
  else raise ValueError.

(** Iterating over a set ([for x in s], [list(s)]): its elements, in an order
    the environment fixes. *)
Definition set_iter (s : PySet) : Py (list Node) := picks (length s) s.

(** [a / b] on integers *)
Definition true_div (a b : Z) : Py Q :=
  if decide (b = 0) then raise ZeroDivisionError
  else ret (round_binary64 (inject_Z a / inject_Z b)).

(** ** metropolis_hastings_sampling *)

Record MHState : Type := mkMH {
  mh_sampled : Graph;   (* sampled_graph *)
  mh_current : Node;    (* current_node *)
}.

Definition mh_accept (st : MHState) (next_node : Node) : MHState :=
  mkMH (add_edge (add_node (mh_sampled st) next_node) (mh_current st) next_node)
       next_node.

Definition mh_reject (st : MHState) : MHState :=
  mkMH (add_node (mh_sampled st) (mh_current st)) (mh_current st).

Definition mh_body (num_samples : Z) (st : MHState) : Py (Iter MHState Graph) :=
  if decide (number_of_nodes (mh_sampled st) < num_samples) then
    (neighbors <- G_neighbors (mh_current st);;
     match neighbors with
     | [] =>
         print "No neighbors to move to. Sampling stopped.";;
         ret (Break (mh_sampled st))
     | _ :: _ =>
         next_node <- random_choice neighbors;;
         current_degree <- G_degree (mh_current st);;
         next_degree <- G_degree next_node;;
         quotient <- true_div next_degree current_degree;;
         let acceptance_ratio := Qmin 1 quotient in
         u <- random_random;;
         match (u ?= acceptance_ratio)%Q with
         | Lt => ret (Continue (mh_accept st next_node))
         | _ => ret (Continue (mh_reject st))
         end
     end)%py
  else ret (Break (mh_sampled st)).

Definition mh_init (start_node : Node) : MHState :=
  mkMH (add_node [] start_node) start_node.

Definition metropolis_hastings_sampling
    (fuel : nat) (start_node : Node) (num_samples : Z) : Py Graph :=
  while (mh_body num_samples) fuel (mh_init start_node).

(** ** random_walk_sampling *)

Record RWState : Type := mkRW {
  rw_sampled : Graph;   (* sampled_graph *)
  rw_current : Node;    (* current_node *)
  rw_visited : PySet;   (* visited *)
}.

Definition rw_move (st : RWState) (next_node : Node) : RWState :=
  if decide (next_node ∈ rw_visited st) then
    mkRW (rw_sampled st) next_node (rw_visited st)
  else
    mkRW (add_edge (add_node (rw_sampled st) next_node) (rw_current st) next_node)
         next_node
         (set_add (rw_visited st) next_node).

Definition rw_body (num_samples : Z) (st : RWState) : Py (Iter RWState Graph) :=
  if decide (number_of_nodes (rw_sampled st) < num_samples) then
    (neighbors <- G_neighbors (rw_current st);;
     match neighbors with
     | [] =>
         print "No neighbors to move to. Sampling stopped.";;
         ret (Break (rw_sampled st))
     | _ :: _ =>
         next_node <- random_choice neighbors;;
         ret (Continue (rw_move st next_node))
     end)%py
  else ret (Break (rw_sampled st)).

Definition rw_init (start_node : Node) : RWState :=
  mkRW (add_node [] start_node) start_node (set_add [] start_node).

Definition random_walk_sampling
    (fuel : nat) (start_node : Node) (num_samples : Z) : Py Graph :=
  while (rw_body num_samples) fuel (rw_init start_node).

(** ** snowball_sampling *)

(** [for neighbor in neighbors: ...] for one node of the frontier; the state
    is [(sampled_nodes, next_expand)]. *)
Fixpoint snowball_admit (sample_size : Z) (neighbors : list Node)
    (st : PySet * PySet) : PySet * PySet :=
  match neighbors with
  | [] => st
  | neighbor :: rest =>
      if decide (set_len st.1 < sample_size) then
        if decide (neighbor ∈ st.1) then snowball_admit sample_size rest st
        else snowball_admit sample_size rest
               (set_add st.1 neighbor, set_add st.2 neighbor)
      else st
  end.

(** [for node in to_expand: ...] *)
Fixpoint snowball_expand (sample_size : Z) (to_expand : list Node)
    (st : PySet * PySet) : Py (PySet * PySet) :=
  match to_expand with
  | [] => ret st
  | node :: rest =>
      (neighbors <- G_neighbors node;;
       neighbors <- random_shuffle neighbors;;
       snowball_expand sample_size rest (snowball_admit sample_size neighbors st))%py
  end.

(** One round: from [(sampled_nodes, to_expand)] to
    [(sampled_nodes, next_expand)]. *)
Definition snowball_round (sample_size : Z) (st : PySet * PySet)
    : Py (PySet * PySet) :=
  (order <- set_iter st.2;;
   snowball_expand sample_size order (st.1, []))%py.

(** [for _ in range(expand_depth): ...] *)
Fixpoint snowball_rounds (sample_size : Z) (rounds : nat) (st : PySet * PySet)
    : Py PySet :=
  match rounds with
  | O => ret st.1
  | S rounds' =>
      (st' <- snowball_round sample_size st;;
       if decide (set_len st'.1 >= sample_size) then ret st'.1
       else snowball_rounds sample_size rounds' st')%py
  end.

Definition snowball_sampling
    (initial_nodes : list Node) (sample_size : Z) (expand_depth : Z)
    : Py (list Node) :=
  (sampled_nodes <- snowball_rounds sample_size (Z.to_nat expand_depth)
                      (set_of initial_nodes, set_of initial_nodes);;
   set_iter sampled_nodes)%py.

(** ** depth_first_sampling *)

(** The state is [(sampled_nodes, stack)]; the top of the stack is the last
    element of the list. *)
Definition dfs_push (sample_size : Z) (sampled_nodes : PySet)
    (neighbors stack : list Node) : list Node :=
  foldl (λ stack neighbor,
           if decide (set_len sampled_nodes < sample_size)
           then stack ++ [neighbor] else stack)
        stack neighbors.

Definition dfs_body (sample_size : Z) (st : PySet * list Node)
    : Py (Iter (PySet * list Node) PySet) :=
  match pop st.2 with
  | Some (stack, node) =>
      if decide (set_len st.1 < sample_size) then
        if decide (node ∈ st.1) then ret (Continue (st.1, stack))
        else
          let sampled_nodes := set_add st.1 node in
          (neighbors <- G_neighbors node;;
           neighbors <- random_shuffle neighbors;;
           ret (Continue (sampled_nodes,
                          dfs_push sample_size sampled_nodes neighbors stack)))%py
      else ret (Break st.1)
  | None => ret (Break st.1)
  end.

Definition depth_first_sampling
    (fuel : nat) (initial_node : Node) (sample_size : Z) : Py (list Node) :=
  (sampled_nodes <- while (dfs_body sample_size) fuel ([], [initial_node]);;
   set_iter sampled_nodes)%py.

(** ** breadth_first_sampling *)

(** [for neighbor in neighbors: ...]; the state is [(sampled_nodes, queue)],
    the front of the queue is the head of the list. *)
Fixpoint bfs_admit (sample_size : Z) (neighbors : list Node)
    (st : PySet * list Node) : PySet * list Node :=
  match neighbors with
  | [] => st
  | neighbor :: rest =>
      if decide (neighbor ∈ st.1) then bfs_admit sample_size rest st
      else
        let st' := (set_add st.1 neighbor, st.2 ++ [neighbor]) in
        if decide (set_len st'.1 >= sample_size) then st'
        else bfs_admit sample_size rest st'
  end.

Definition bfs_body (sample_size : Z) (st : PySet * list Node)
    : Py (Iter (PySet * list Node) PySet) :=
  match st.2 with
  | node :: queue =>
      if decide (set_len st.1 < sample_size) then
        (neighbors <- G_neighbors node;;
         neighbors <- random_shuffle neighbors;;
         ret (Continue (bfs_admit sample_size neighbors (st.1, queue))))%py
      else ret (Break st.1)
  | [] => ret (Break st.1)
  end.

Definition breadth_first_sampling
    (fuel : nat) (initial_nodes : list Node) (sample_size : Z)
    : Py (list Node) :=
  (sampled_nodes <- while (bfs_body sample_size) fuel
                      (set_of initial_nodes, initial_nodes);;
   set_iter sampled_nodes)%py.

(** ** random_edge_sampling *)

Definition random_edge_sampling (sample_size : Z) : Py (list Edge) :=
  (edges <- G_edges;;
   edges <- random_shuffle edges;;
   ret (slice_to edges sample_size))%py.

(** ** induced_edge_sampling *)

(** [for neighbor in neighbors: ...]: [Break] is the [return] inside the
    loop. *)
Fixpoint induced_emit (sample_size : Z) (node : Node) (neighbors : list Node)
    (sampled_edges : list Edge) : Iter (list Edge) (list Edge) :=
  match neighbors with
  | [] => Continue sampled_edges
  | neighbor :: rest =>
      if decide (Z.of_nat (length sampled_edges) < sample_size)
      then induced_emit sample_size node rest (sampled_edges ++ [(node, neighbor)])
      else Break sampled_edges
  end.

(** [for node in nodes: ...] *)
Fixpoint induced_scan (sample_size : Z) (nodes : list Node)
    (sampled_edges : list Edge) : Py (list Edge) :=
  match nodes with
  | [] => ret sampled_edges
  | node :: rest =>
      (neighbors <- G_neighbors node;;
       neighbors <- random_shuffle neighbors;;
       match induced_emit sample_size node neighbors sampled_edges with
       | Continue sampled_edges' => induced_scan sample_size rest sampled_edges'
       | Break result => ret result
       end)%py
  end.

Definition induced_edge_sampling (sample_size : Z) : Py (list Edge) :=
  (nodes <- G_nodes;;
   nodes <- random_shuffle nodes;;
   induced_scan sample_size nodes [])%py.

(** ** random_node_sampling *)

Definition random_node_sampling (sample_size : Z) : Py (list Node) :=
  (nodes <- G_nodes;;
   random_sample nodes sample_size)%py.

(** ** degree_based_node_sampling *)

(** [sorted(xs, key=f, reverse=True)] computes every key once, then sorts
    stably: among equal keys the input order is kept. *)
Fixpoint with_keys {A} (key : A → Py Z) (xs : list A) : Py (list (Z * A)) :=
  match xs with
  | [] => ret []
  | x :: xs' =>
      (k <- key x;;
       rest <- with_keys key xs';;
       ret ((k, x) :: rest))%py
  end.

Fixpoint insert_desc {A} (x : Z * A) (l : list (Z * A)) : list (Z * A) :=
  match l with
  | [] => [x]
  | y :: l' => if decide (x.1 < y.1) then y :: insert_desc x l' else x :: l
  end.

Definition sort_desc {A} (l : list (Z * A)) : list (Z * A) :=
  foldr insert_desc [] l.

Definition sorted_by_key_reverse {A} (key : A → Py Z) (xs : list A) : Py (list A) :=
  (keyed <- with_keys key xs;;
   ret ((sort_desc keyed).*2))%py.

Definition degree_based_node_sampling (sample_size : Z) : Py (list Node) :=
  (nodes <- G_nodes;;
   nodes_sorted_by_degree <- sorted_by_key_reverse G_degree nodes;;
   ret (slice_to nodes_sorted_by_degree sample_size))%py.

(** * Specification vocabulary *)

(** ** A small program logic

    [hoare G c Q]: run from any world whose graph is [G], the program [c]
    leaves the graph [G] and its outcome satisfies [Q]. *)

Definition hoare {A} (G : Graph) (c : Py A) (Q : Outcome A → Prop) : Prop :=
  ∀ w, graph w = G → graph (c w).2 = G ∧ Q (c w).1.

(** The program returns, and [P] holds of the value. *)
Definition rets {A} (P : A → Prop) (o : Outcome A) : Prop :=
  match o with Ret a => P a | _ => False end.

(** The program raises nothing; if it returns, [P] holds of the value. *)
Definition safe {A} (P : A → Prop) (o : Outcome A) : Prop :=
  match o with Ret a => P a | Raise _ => False | OutOfFuel => True end.

Definition any {A} (o : Outcome A) : Prop := True.

(** Every node of [g] is joined to [root] by a path of [g], both ways. *)
Definition rooted (root : Node) (g : Graph) : Prop :=
  root ∈ nodes g ∧
  ∀ n, n ∈ nodes g → rtc (adjacent g) root n ∧ rtc (adjacent g) n root.

(** The loop invariant of [metropolis_hastings_sampling]. *)
Definition mh_inv (G : Graph) (start_node : Node) (st : MHState) : Prop :=
  rooted start_node (mh_sampled st) ∧
  mh_current st ∈ nodes (mh_sampled st) ∧
  mh_current st ∈ nodes G.

(** The loop invariant of [random_walk_sampling]. *)
Definition rw_inv (G : Graph) (start_node : Node) (num_samples : Z)
    (st : RWState) : Prop :=
  rooted start_node (rw_sampled st) ∧
  wf_graph (rw_sampled st) ∧
  rw_current st ∈ nodes (rw_sampled st) ∧
  rw_current st ∈ nodes G ∧
  (∀ n, n ∈ rw_visited st ↔ n ∈ nodes (rw_sampled st)) ∧
  (∀ a b, adjacent (rw_sampled st) a b → adjacent G a b) ∧
  number_of_edges (rw_sampled st) = number_of_nodes (rw_sampled st) - 1 ∧
  number_of_nodes (rw_sampled st) ≤ Z.max 1 num_samples.

(** [a] has at least the degree of [b]. *)
Definition degree_ge (G : Graph) (a b : Node) : Prop :=
  ∀ da db, degree G a = Some da → degree G b = Some db → db ≤ da.

(** The list a loop pass leaves behind, whether the loop goes on or not. *)
Definition iter_value {A} (r : Iter A A) : A :=
  match r with Continue a => a | Break a => a end.

(** [n] can be reached in [G] from one of the nodes of [initial] (from a
    node itself by the empty path). *)
Definition reachable_from (G : Graph) (initial : list Node) (n : Node) : Prop :=
  ∃ i, i ∈ initial ∧ rtc (adjacent G) i n.

(** The loop invariant of [depth_first_sampling] and of
    [breadth_first_sampling]: [bound] is the largest size the sampled set
    may have. *)
Definition frontier_inv (G : Graph) (initial : list Node) (bound : Z)
    (st : PySet * list Node) : Prop :=
  NoDup st.1 ∧
  (∀ n, n ∈ st.1 → reachable_from G initial n) ∧
  (∀ n, n ∈ st.2 → reachable_from G initial n) ∧
  set_len st.1 ≤ bound.

(** [snowball_reaches ... d st w]: after [d] rounds of the loop of
    [snowball_sampling] the variables [(sampled_nodes, to_expand)] are [st]
    and the world is [w].  A further round is run while fewer than
    [expand_depth] rounds were made and the last round did not end in
    [break]. *)
Inductive snowball_reaches (sample_size expand_depth : Z)
    (initial_nodes : list Node) (w0 : World)
    : nat → PySet * PySet → World → Prop :=
  | snowball_reaches_start :
      snowball_reaches sample_size expand_depth initial_nodes w0
        0 (set_of initial_nodes, set_of initial_nodes) w0
  | snowball_reaches_round d st w st' w' :
      snowball_reaches sample_size expand_depth initial_nodes w0 d st w →
      (d < Z.to_nat expand_depth)%nat →
      (d = 0%nat ∨ set_len st.1 < sample_size) →
      snowball_round sample_size st w = (Ret st', w') →
      snowball_reaches sample_size expand_depth initial_nodes w0 (S d) st' w'.

(** The invariant of the rounds of [snowball_sampling]. *)
Definition snowball_inv (G : Graph) (initial_nodes : list Node)
    (sample_size : Z) (st : PySet * PySet) : Prop :=
  NoDup st.1 ∧
  (∀ n, n ∈ st.1 → reachable_from G initial_nodes n) ∧
  (∀ n, n ∈ st.2 → n ∈ st.1) ∧
  set_len st.1 ≤ Z.max sample_size (set_len (set_of initial_nodes)).

(** What one round admits: [st] before the round, [st'] after it. *)
Definition snowball_admitted (G : Graph) (st st' : PySet * PySet) : Prop :=
  (∀ x, x ∈ st'.2 → (x ∉ st.1) ∧ (∃ y, y ∈ st.2 ∧ adjacent G y x)) ∧
  (∀ x, x ∈ st'.1 ↔ x ∈ st.1 ∨ x ∈ st'.2).

(** The neighbours that the nodes outside [s] hold. *)
Fixpoint unvisited_weight (s : PySet) (g : Graph) : nat :=
  match g with
  | [] => 0
  | (n, l) :: g' =>
      ((if decide (n ∈ s) then 0 else length l) + unvisited_weight s g')%nat
  end.

(** A bound on the passes [depth_first_sampling] still has to make: the
    height of the stack plus the neighbours that unvisited nodes may still
    push. *)
Definition dfs_measure (G : Graph) (st : PySet * list Node) : nat :=
  length st.2 + unvisited_weight st.1 G.

(** A bound on the passes [breadth_first_sampling] still has to make: the
    length of the queue plus the number of nodes not sampled yet. *)
Definition bfs_measure (G : Graph) (st : PySet * list Node) : nat :=
  length st.2 + (length G - length st.1).

(** * Further vocabulary *)

(** [g] is a NetworkX graph made of nodes and edges of [G]. *)
Definition subgraph_of (G g : Graph) : Prop :=
  wf_graph g ∧
  (∀ n, n ∈ nodes g → n ∈ nodes G) ∧
  (∀ a b, adjacent g a b → adjacent G a b).

Definition has_neighbour (G : Graph) (n : Node) : Prop := ∃ m, adjacent G n m.

(** What both walks keep about the sampled graph [g] and the current node
    [current]. *)
Definition walk_inv (G : Graph) (start_node : Node) (num_samples : Z)
    (g : Graph) (current : Node) : Prop :=
  subgraph_of G g ∧
  number_of_nodes g ≤ Z.max 1 num_samples ∧
  current ∈ nodes g ∧
  (has_neighbour G start_node → has_neighbour G current).

(** What both walks promise about the graph they return. *)
Definition walk_result (G : Graph) (start_node : Node) (num_samples : Z)
    (g : Graph) : Prop :=
  subgraph_of G g ∧
  number_of_nodes g ≤ Z.max 1 num_samples ∧
  (has_neighbour G start_node → number_of_nodes g = Z.max 1 num_samples).

(** [n] is at most [d] edges of [G] away from a node of [initial]. *)
Definition within (G : Graph) (initial : list Node) (d : nat) (n : Node) : Prop :=
  ∃ i, i ∈ initial ∧ bsteps (adjacent G) d i n.

(** What [depth_first_sampling] keeps beyond [frontier_inv]: the initial node
    is sampled once the first pass is over, and while the sample is short of
    the target every neighbour of a sampled node is sampled or on the
    stack. *)
Definition dfs_complete_inv (G : Graph) (initial_node : Node) (sample_size : Z)
    (st : PySet * list Node) : Prop :=
  (initial_node ∈ st.1 ∨ (st.1 = [] ∧ st.2 = [initial_node])) ∧
  (set_len st.1 < sample_size →
   ∀ n m, n ∈ st.1 → adjacent G n m → m ∈ st.1 ∨ m ∈ st.2).

Definition dfs_complete (G : Graph) (initial_node : Node) (sample_size : Z)
    (s : PySet) : Prop :=
  (1 ≤ sample_size → initial_node ∈ s) ∧
  (sample_size ≤ set_len s ∨ ∀ n, rtc (adjacent G) initial_node n → n ∈ s).

(** What [breadth_first_sampling] keeps beyond [frontier_inv]: the initial
    nodes stay sampled, and while the sample is short of the target a
    sampled node is still queued or has all its neighbours sampled. *)
Definition bfs_complete_inv (G : Graph) (initial_nodes : list Node)
    (sample_size : Z) (st : PySet * list Node) : Prop :=
  (∀ i, i ∈ initial_nodes → i ∈ st.1) ∧
  (set_len st.1 < sample_size →
   ∀ n, n ∈ st.1 → n ∈ st.2 ∨ ∀ m, adjacent G n m → m ∈ st.1).

Definition bfs_complete (G : Graph) (initial_nodes : list Node)
    (sample_size : Z) (s : PySet) : Prop :=
  (∀ i, i ∈ initial_nodes → i ∈ s) ∧
  (sample_size ≤ set_len s ∨ ∀ n, reachable_from G initial_nodes n → n ∈ s).

(** The number of (node, neighbour) pairs of [g]. *)
Fixpoint adjacency_size (g : Graph) : nat :=
  match g with
  | [] => 0
  | (_, l) :: g' => (length l + adjacency_size g')%nat
  end.

(** The number of neighbours the nodes of [ns] have in [G], together. *)
Fixpoint neighbour_count (G : Graph) (ns : list Node) : nat :=
  match ns with
  | [] => 0
  | n :: ns' => (length (default [] (adj G n)) + neighbour_count G ns')%nat
  end.

(** [c] prints nothing. *)
Definition quiet {A} (c : Py A) : Prop := ∀ w, stdout (c w).2 = stdout w.

(** [c] prints nothing, or it prints the one line [line] and returns. *)
Definition prints_at_most {A} (line : string) (c : Py A) : Prop :=
  ∀ w, stdout (c w).2 = stdout w ∨
       (stdout (c w).2 = stdout w ++ [line] ∧ ∃ a, (c w).1 = Ret a).

(** * BipartiteGraphAnalyzer ([src/Graph_Classes/GraphAnalyzers.py])

    Of the analyzers, [plot_degree_correlation] computes its data itself;
    the other methods hand the graph to NetworkX and the result to
    matplotlib.  The calls of [matplotlib.pyplot] are kept as a list, next
    to the world of the sampler; [self.graph] is the graph of that world and
    [self.top_nodes], which the constructor gets from [bipartite.sets], is a
    parameter. *)

Inductive PlotCall : Type :=
  | Scatter (x : list Z) (y : list Q) (alpha : Q) (color : string)
  | Title (text : string)
  | XLabel (text : string)
  | YLabel (text : string)
  | Grid (visible : bool)
  | Show.

Record PlotWorld : Type := mkPlotWorld {
  py_world : World;           (* graph, random source, console *)
  figure : list PlotCall;     (* the calls of plt, in order *)
}.

(** A program of the sampler's world, run in the analyzer's. *)
Definition lift {A} (c : M World A) : M PlotWorld A :=
  λ pw, let (o, w') := c (py_world pw) in (o, mkPlotWorld w' (figure pw)).

Definition plt (call : PlotCall) : M PlotWorld unit :=
  λ pw, (Ret (), mkPlotWorld (py_world pw) (figure pw ++ [call])).

(** [[self.graph.degree(n) for n in neighbors]] *)
Fixpoint degrees_of (neighbors : list Node) : M World (list Z) :=
  match neighbors with
  | [] => ret []
  | n :: rest =>
      (d <- G_degree n;;
       ds <- degrees_of rest;;
       ret (d :: ds))%py
  end.

(** [sum(xs)] *)
Definition py_sum (xs : list Z) : Z := foldl Z.add 0 xs.

(** [for node in self.top_nodes: ...] *)
Fixpoint degree_correlations (top_nodes : list Node)
    (correlations : list (Z * Q)) : M World (list (Z * Q)) :=
  match top_nodes with
  | [] => ret correlations
  | node :: rest =>
      (neighbors <- G_neighbors node;;
       neighbor_degrees <- degrees_of neighbors;;
       match neighbor_degrees with
       | [] => degree_correlations rest correlations
       | _ :: _ =>
           d <- G_degree node;;
           mean <- true_div (py_sum neighbor_degrees)
                     (Z.of_nat (length neighbor_degrees));;
           degree_correlations rest (correlations ++ [(d, mean)])
       end)%py
  end.

Definition plot_degree_correlation (top_nodes : PySet) : M PlotWorld unit :=
  (order <- lift (set_iter top_nodes);;
   correlations <- lift (degree_correlations order []);;
   match correlations with
   | [] => lift (print "No degree correlation data available.")
   | _ :: _ =>
       plt (Scatter (correlations.*1) (correlations.*2)
              (round_binary64 (6 # 10)) "orange");;
       plt (Title "Degree Correlation (Top vs Bottom Nodes)");;
       plt (XLabel "Degree of Top Node");;
       plt (YLabel "Average Degree of Connected Bottom Nodes");;
       plt (Grid true);;
       plt Show
   end)%py.

(** The point [plot_degree_correlation] plots for a top node [n]: its
    degree, and the mean degree of its neighbours, the float that the
    division of the sum by the count returns. *)
Definition correlation_point (G : Graph) (n : Node) : Z * Q :=
  let neighbor_degrees :=
    (λ m, default 0 (degree G m)) <$> default [] (adj G n) in
  (default 0 (degree G n),
   round_binary64 (inject_Z (py_sum neighbor_degrees)
                   / inject_Z (Z.of_nat (length neighbor_degrees)))).

#[global] Instance has_neighbour_dec G n : Decision (has_neighbour G n).
Proof.
  unfold has_neighbour, adjacent.
  destruct (adj G n) as [[|m l]|].
  - right. intros [m Hm]. by apply elem_of_nil in Hm.
  - left. exists m. apply elem_of_cons. by left.
  - right. by intros [m Hm].
Defined.

(** ** The shuffle, position by position *)

(** The elements of [l] at [positions], each position counted in what the
    earlier ones have left of [l]. *)
Fixpoint pick_at {A} (positions : list nat) (l : list A) : list A :=
  match positions, l with
  | p :: positions', x :: _ => nth p l x :: pick_at positions' (delete p l)
  | _, _ => []
  end.

(** The positions of [k] picks from [n] elements: the next [k] answers of
    the environment, the first reduced to [0 .. n-1], the second to
    [0 .. n-2], and so on. *)
Fixpoint positions_from (answers : nat → Z) (cursor k n : nat) : list nat :=
  match k with
  | O => []
  | S k' =>
      Z.to_nat (answers cursor `mod` Z.of_nat n)
      :: positions_from answers (S cursor) k' (n - 1)
  end.

(** The positions [random.shuffle] draws in [w] for a list of [n]
    elements. *)
Definition shuffle_positions (n : nat) (w : World) : list nat :=
  positions_from (draws w) (cursor w) n n.

(** Every position is inside what is left: the first below [n], the second
    below [n - 1], and so on. *)
Fixpoint positions_within (positions : list nat) (n : nat) : Prop :=
  match positions with
  | [] => True
  | p :: positions' => (p < n)%nat ∧ positions_within positions' (n - 1)
  end.

(** ** Runs of the walks *)

(** The next answers of the environment in [w] are [answers]. *)
Definition next_answers (answers : list Z) (w : World) : Prop :=
  ∀ i a, answers !! i = Some a → draws w (cursor w + i) = a.

(** [w] after [k] more answers have been consumed. *)
Definition consumed (k : nat) (w : World) : World :=
  mkWorld (graph w) (draws w) (cursor w + k) (stdout w).

(** An environment that answers [answers] from the position [c] on. *)
Definition answering (answers : list Z) (c : nat) : nat → Z :=
  λ i, nth (i - c) answers 0.

(** At least [k] nodes of [G] can be reached from [start_node]. *)
Definition reaches_at_least (G : Graph) (start_node : Node) (k : Z) : Prop :=
  ∃ l, NoDup l ∧ k ≤ Z.of_nat (length l) ∧
       ∀ n, n ∈ l → rtc (adjacent G) start_node n.

(** The invariants of the loop of [metropolis_hastings_sampling],
    together. *)
Definition mh_walk_inv (G : Graph) (start_node : Node) (num_samples : Z)
    (st : MHState) : Prop :=
  mh_inv G start_node st ∧
  walk_inv G start_node num_samples (mh_sampled st) (mh_current st).

(** The invariants of the loop of [random_walk_sampling], together. *)
Definition rw_walk_inv (G : Graph) (start_node : Node) (num_samples : Z)
    (st : RWState) : Prop :=
  rw_inv G start_node num_samples st ∧
  walk_inv G start_node num_samples (rw_sampled st) (rw_current st).

(** [path] is a walk of [G] that leaves from [u]. *)
Fixpoint is_walk (G : Graph) (u : Node) (path : list Node) : Prop :=
  match path with
  | [] => True
  | v :: rest => adjacent G u v ∧ is_walk G v rest
  end.

#[global] Instance is_walk_dec G u path : Decision (is_walk G u path).
Proof. revert u. induction path as [|v rest IH]; intros u; simpl; apply _. Defined.

End Sampler.

Arguments Graph : clear implicits.
Arguments Edge : clear implicits.
Arguments PySet : clear implicits.
Arguments World : clear implicits.
Arguments MHState : clear implicits.
Arguments RWState : clear implicits.
Arguments PlotWorld : clear implicits.

Abbreviation Py := (M (World _)).

(** * Example graphs and worlds *)

(** The path 1 - 2 - 3 - 4 - 5. *)
Definition path5 : Graph nat :=
  [(1, [2]); (2, [1; 3]); (3, [2; 4]); (4, [3; 5]); (5, [4])]%nat.

(** The star with centre 0 and leaves 1, 2, 3. *)
Definition star3 : Graph nat :=
  [(0, [1; 2; 3]); (1, [0]); (2, [0]); (3, [0])]%nat.

(** The star with a node 4 hanging on the leaf 1: the edges 0-1, 0-2, 0-3
    and 1-4, added in this order. *)
Definition star3_tail : Graph nat :=
  [(0, [1; 2; 3]); (1, [0; 4]); (2, [0]); (3, [0]); (4, [1])]%nat.

(** A world whose environment answers [answers], then zeros. *)
Definition world_of (g : Graph nat) (answers : list Z) : World nat :=
  mkWorld g (λ i, nth i answers 0) 0 [].


(** * Verification *)

(** ** Generic facts about the monad and about Python lists *)

Lemma pop_Some {A} (l l' : list A) (x : A) :
  pop l = Some (l', x) ↔ l = l' ++ [x].
Proof.
  revert l' x. induction l as [|y l IH]; intros l' x; simpl.
  - split; [done|]. by destruct l'.
  - destruct (pop l) as [[l'' z]|] eqn:Hp.
    + pose proof (proj1 (IH l'' z) eq_refl) as ->. split.
      * by intros [= <- <-].
      * destruct l' as [|y' l']; simpl.
        { intros [= _ Habs]. by destruct l''. }
        intros [= <- Heq]. by apply app_inj_tail in Heq as [-> ->].
    + assert (l = []) as ->.
      { destruct l as [|z l]; [done|]. simpl in Hp.
        by destruct (pop l) as [[??]|]. }
      split.
      * by intros [= <- <-].
      * destruct l' as [|y' l']; simpl; [by intros [= ->]|].
        intros [= _ Habs]. by destruct l'.
Qed.

Lemma pop_None {A} (l : list A) : pop l = None ↔ l = [].
Proof.
  destruct l as [|x l]; simpl; [done|].
  by destruct (pop l) as [[??]|].
Qed.

Lemma slice_to_nonneg {A} (l : list A) (k : Z) :
  0 ≤ k → slice_to l k = take (Z.to_nat k) l.
Proof. intros. unfold slice_to. by rewrite decide_True. Qed.

Lemma slice_to_prefix {A} (l : list A) (k : Z) :
  ∃ n, slice_to l k = take n l.
Proof. unfold slice_to. case_decide; eauto. Qed.

Lemma two_power_pos (k : Z) : (0 < 2 ^ k)%Q.
Proof. by apply Qpower_0_lt. Qed.

Lemma floor_log2_le (q : Q) : (0 < q)%Q → (2 ^ floor_log2 q <= q)%Q.
Proof.
  intros Hq. unfold floor_log2.
  set (k := Z.log2 (Qnum q) - Z.log2 (Z.pos (Qden q))).
  destruct (Qle_bool (2 ^ k) q) eqn:Hk; [by apply Qle_bool_iff|].
  destruct q as [n d]. unfold Qlt in Hq. cbn [Qnum Qden] in Hq, k.
  assert (0 < n) as Hn by lia.
  pose proof (Z.log2_spec n Hn) as [Hn1 _].
  pose proof (Z.log2_spec (Z.pos d) ltac:(lia)) as [_ Hd2].
  pose proof (Z.log2_nonneg n) as Ha.
  pose proof (Z.log2_nonneg (Z.pos d)) as Hb.
  set (a := Z.log2 n) in *. set (b := Z.log2 (Z.pos d)) in *.
  assert (2 ^ (k - 1) == 2 ^ a / 2 ^ (b + 1))%Q as ->.
  { unfold k. replace (a - b - 1) with (a - (b + 1)) by lia.
    by apply Qpower_minus. }
  rewrite (Qmake_Qdiv n d).
  assert (2 ^ a <= inject_Z n)%Q as Hna.
  { change 2%Q with (inject_Z 2). rewrite <- Zpower_Qpower by lia.
    by rewrite <- Zle_Qle. }
  assert (inject_Z (Z.pos d) <= 2 ^ (b + 1))%Q as Hdb.
  { change 2%Q with (inject_Z 2). rewrite <- Zpower_Qpower by lia.
    rewrite <- Zle_Qle. lia. }
  apply Qle_shift_div_l; [by rewrite <- (Zlt_Qlt 0)|].
  apply Qle_trans with (2 ^ a)%Q; [|done].
  unfold Qdiv. rewrite <- Qmult_assoc.
  rewrite <- (Qmult_1_r (2 ^ a)) at 2.
  apply Qmult_le_l; [apply two_power_pos|].
  rewrite Qmult_comm. apply Qle_shift_div_r; [apply two_power_pos|].
  by rewrite Qmult_1_l.
Qed.

Lemma floor_log2_nonneg (q : Q) : (1 <= q)%Q → 0 ≤ floor_log2 q.
Proof.
  intros Hq. unfold floor_log2.
  set (k := Z.log2 (Qnum q) - Z.log2 (Z.pos (Qden q))).
  assert (0 ≤ k) as Hk.
  { unfold k. destruct q as [n d]. unfold Qle in Hq. cbn [Qnum Qden] in *.
    pose proof (Z.log2_le_mono (Z.pos d) n ltac:(lia)). lia. }
  destruct (Qle_bool (2 ^ k) q) eqn:Hle; [done|].
  destruct (decide (k = 0)) as [Hk0|]; [|lia].
  rewrite Hk0 in Hle. apply (proj2 (Qle_bool_iff _ _)) in Hq.
  change (2 ^ 0)%Q with 1%Q in Hle. congruence.
Qed.

Lemma round_half_even_floor (s : Q) : Qfloor s ≤ round_half_even s.
Proof.
  unfold round_half_even. destruct (_ ?= _)%Q; [case (Z.even _)|..]; lia.
Qed.

Lemma round_53_ge (q : Q) : (0 < q)%Q → (2 ^ floor_log2 q <= round_53 q)%Q.
Proof.
  intros Hq. unfold round_53. rewrite Qred_correct.
  set (fl := floor_log2 q). set (e := fl - 52).
  assert (2 ^ 52 ≤ round_half_even (q / 2 ^ e)) as Hm.
  { etrans; [|apply round_half_even_floor].
    rewrite <- (Qfloor_Z (2 ^ 52)). apply Qfloor_resp_le.
    apply Qle_shift_div_l; [apply two_power_pos|].
    change (inject_Z (2 ^ 52)) with (2 ^ 52)%Q.
    rewrite <- Qpower_plus by done.
    replace (52 + e) with fl by (unfold e; lia).
    by apply floor_log2_le. }
  assert (2 ^ fl == 2 ^ 52 * 2 ^ e)%Q as ->.
  { rewrite <- Qpower_plus by done. by replace (52 + e) with fl by (unfold e; lia). }
  apply Qmult_le_compat_r; [|apply Qlt_le_weak, two_power_pos].
  change (2 ^ 52)%Q with (inject_Z (2 ^ 52)). by rewrite <- Zle_Qle.
Qed.

Lemma round_binary64_pos (q : Q) : (0 < q)%Q → (0 < round_binary64 q)%Q.
Proof.
  intros Hq. unfold round_binary64.
  destruct q as [[|n|n] d]; try done.
  eapply Qlt_le_trans; [apply two_power_pos|]. by apply round_53_ge.
Qed.

Lemma round_binary64_ge_1 (q : Q) : (1 <= q)%Q → (1 <= round_binary64 q)%Q.
Proof.
  intros Hq. assert (0 < q)%Q as Hpos by (apply Qlt_le_trans with 1%Q; done).
  unfold round_binary64. destruct q as [[|n|n] d]; try done.
  eapply Qle_trans; [|by apply round_53_ge].
  apply Qpower_1_le; [done|]. by apply floor_log2_nonneg.
Qed.

Section Proofs.
Context {Node : Type} `{EqDecision Node}.

Implicit Types (g G : Graph Node) (n m u v : Node).
Implicit Types (w : World Node).

(** ** The program logic *)

Lemma hoare_mono {A} G (c : Py A) (Q Q' : Outcome A → Prop) :
  hoare G c Q → (∀ o, Q o → Q' o) → hoare G c Q'.
Proof. intros Hc HQ w Hw. destruct (Hc w Hw). auto. Qed.

Lemma rets_safe {A} (P : A → Prop) o : rets P o → safe P o.
Proof. by destruct o. Qed.

Lemma rets_mono {A} (P P' : A → Prop) o :
  (∀ a, P a → P' a) → rets P o → rets P' o.
Proof. destruct o; simpl; auto. Qed.

Lemma safe_mono {A} (P P' : A → Prop) o :
  (∀ a, P a → P' a) → safe P o → safe P' o.
Proof. destruct o; simpl; auto. Qed.

Lemma hoare_ret {A} G (a : A) (Q : Outcome A → Prop) :
  Q (Ret a) → hoare G (ret a) Q.
Proof. intros HQ w Hw. done. Qed.

Lemma hoare_raise {A} G e (Q : Outcome A → Prop) :
  Q (Raise e) → hoare G (raise e) Q.
Proof. intros HQ w Hw. done. Qed.

Lemma hoare_bind {A B} G (c : Py A) (k : A → Py B) (P : A → Prop) Q :
  hoare G c (rets P) → (∀ a, P a → hoare G (k a) Q) → hoare G (bind c k) Q.
Proof.
  intros Hc Hk w Hw. unfold bind.
  destruct (Hc w Hw) as [Hg HP]. destruct (c w) as [[a| |] w']; simpl in *; try done.
  by apply Hk.
Qed.

Lemma hoare_bind_any {A B} G (c : Py A) (k : A → Py B) :
  hoare G c any → (∀ a, hoare G (k a) any) → hoare G (bind c k) any.
Proof.
  intros Hc Hk w Hw. unfold bind.
  destruct (Hc w Hw) as [Hg _]. destruct (c w) as [[a| |] w']; simpl in *; try done.
  by apply Hk.
Qed.

Lemma hoare_while {S R} G (body : S → Py (Iter S R)) (I : S → Prop) (P : R → Prop) :
  (∀ st, I st →
     hoare G (body st)
       (rets (λ r, match r with Continue st' => I st' | Break r => P r end))) →
  ∀ fuel st, I st → hoare G (while body fuel st) (safe P).
Proof.
  intros Hbody fuel. induction fuel as [|fuel IH]; intros st Hst; simpl.
  - by intros w Hw.
  - eapply hoare_bind; [by apply Hbody|].
    intros [st'|r] Hr; [by apply IH|by apply hoare_ret].
Qed.

Lemma hoare_while_any {S R} G (body : S → Py (Iter S R)) :
  (∀ st, hoare G (body st) any) →
  ∀ fuel st, hoare G (while body fuel st) any.
Proof.
  intros Hbody fuel. induction fuel as [|fuel IH]; intros st; simpl.
  - by intros w Hw.
  - eapply hoare_bind_any; [by apply Hbody|].
    intros [st'|r]; [by apply IH|by apply hoare_ret].
Qed.

(** ** The graph view *)

Lemma adj_Some_elem g n l : adj g n = Some l → (n, l) ∈ g.
Proof.
  induction g as [|[m l'] g IH]; simpl; [done|].
  case_decide as Hm; [intros [= ->]; subst; left|right; auto].
Qed.

Lemma adj_is_Some g n : is_Some (adj g n) ↔ n ∈ nodes g.
Proof.
  unfold nodes. induction g as [|[m l'] g IH]; simpl.
  - split; [by intros [??]|by intros ?%elem_of_nil].
  - rewrite elem_of_cons. case_decide as Hm.
    + split; [by left|eauto].
    + rewrite IH. split; [by right|]. by intros [?|?].
Qed.

Lemma adj_None g n : adj g n = None ↔ n ∉ nodes g.
Proof. rewrite <-adj_is_Some, eq_None_not_Some. done. Qed.

Lemma elem_adj g n l : NoDup (nodes g) → (n, l) ∈ g → adj g n = Some l.
Proof.
  unfold nodes. induction g as [|[m l'] g IH]; simpl.
  - by intros _ ?%elem_of_nil.
  - rewrite NoDup_cons, elem_of_cons. intros [Hm Hnd] [[= -> ->]|Hin].
    + by rewrite decide_True.
    + rewrite decide_False; [auto|]. intros ->. apply Hm.
      apply list_elem_of_fmap. by exists (n, l).
Qed.

Lemma adjacent_node_l g u v : adjacent g u v → u ∈ nodes g.
Proof.
  unfold adjacent. intros Hadj. apply adj_is_Some.
  by destruct (adj g u).
Qed.

Lemma wf_graph_NoDup_nodes g : wf_graph g → NoDup (nodes g).
Proof. by intros [? _]. Qed.

Lemma wf_graph_NoDup_adj g n l : wf_graph g → adj g n = Some l → NoDup l.
Proof.
  intros [_ Hwf] Hadj%adj_Some_elem.
  rewrite Forall_forall in Hwf. by destruct (Hwf _ Hadj).
Qed.

Lemma wf_graph_sym g u v : wf_graph g → adjacent g u v → adjacent g v u.
Proof.
  intros [_ Hwf]. unfold adjacent at 1.
  destruct (adj g u) as [l|] eqn:Hadj; [|done]. intros Hv.
  apply adj_Some_elem in Hadj. rewrite Forall_forall in Hwf.
  destruct (Hwf _ Hadj) as [_ Hsym]. rewrite Forall_forall in Hsym.
  by apply Hsym.
Qed.

Lemma adjacent_node_r g u v : wf_graph g → adjacent g u v → v ∈ nodes g.
Proof. intros Hwf Hadj. eapply adjacent_node_l, wf_graph_sym; eauto. Qed.

Lemma rtc_adjacent_node g u v :
  wf_graph g → u ∈ nodes g → rtc (adjacent g) u v → v ∈ nodes g.
Proof.
  intros Hwf Hu Hrtc. induction Hrtc as [|x y z Hxy _ IH]; [done|].
  apply IH. eapply adjacent_node_r; eauto.
Qed.


(** ** Specifications of the primitives *)

Lemma hoare_G_neighbors G n l :
  adj G n = Some l → hoare G (G_neighbors n) (rets (λ l', l' = l)).
Proof. intros Hadj w <-. unfold G_neighbors. by rewrite Hadj. Qed.

Lemma hoare_G_neighbors_any G n : hoare G (G_neighbors n) any.
Proof. intros w <-. unfold G_neighbors. by destruct (adj _ _). Qed.

Lemma hoare_G_degree G n d :
  degree G n = Some d → hoare G (G_degree n) (rets (λ d', d' = d)).
Proof. intros Hdeg w <-. unfold G_degree. by rewrite Hdeg. Qed.

Lemma hoare_G_degree_any G n : hoare G (G_degree n) any.
Proof. intros w <-. unfold G_degree. by destruct (degree _ _). Qed.

Lemma hoare_G_nodes G : hoare G G_nodes (rets (λ l, l = nodes G)).
Proof. by intros w <-. Qed.

Lemma hoare_G_edges G : hoare G G_edges (rets (λ es, es = edges G)).
Proof. by intros w <-. Qed.

Lemma hoare_print G line : hoare G (print line) (rets (λ _, True)).
Proof. by intros w <-. Qed.

Lemma hoare_randbelow G k :
  hoare G (randbelow k) (rets (λ i, (0 < k → i < k)%nat)).
Proof.
  intros w <-. split; [done|]. simpl. intros Hk.
  pose proof (Z.mod_pos_bound (draws w (cursor w)) (Z.of_nat k)). lia.
Qed.

Lemma hoare_random_random G : hoare G random_random (rets (λ _, True)).
Proof. by intros w <-. Qed.

Lemma hoare_random_choice {A} G (l : list A) :
  l ≠ [] → hoare G (random_choice l) (rets (λ x, x ∈ l)).
Proof.
  destruct l as [|x l]; [done|]. intros _. unfold random_choice.
  eapply hoare_bind; [apply hoare_randbelow|].
  intros i Hi. apply hoare_ret. cbn [rets].
  apply list_elem_of_In, nth_In. apply Hi. simpl. lia.
Qed.

Lemma hoare_picks {A} G k (l : list A) :
  hoare G (picks k l)
    (rets (λ l', l' ⊆+ l ∧ length l' = Nat.min k (length l))).
Proof.
  revert l. induction k as [|k IH]; intros l.
  - apply hoare_ret. simpl. split; [apply submseteq_nil_l|done].
  - destruct l as [|x l]; [apply hoare_ret; by simpl|].
    cbn [picks]. eapply hoare_bind; [apply hoare_randbelow|].
    intros i Hi. eapply hoare_bind; [apply IH|].
    intros rest [Hsub Hlen]. apply hoare_ret. cbn [rets].
    assert (i < length (x :: l))%nat as Hlt by (apply Hi; simpl; lia).
    destruct (lookup_lt_is_Some_2 (x :: l) i Hlt) as [y Hy].
    assert (nth i (x :: l) x = y) as Hnth.
    { by rewrite nth_lookup, Hy. }
    rewrite Hnth. split.
    + rewrite (delete_Permutation (x :: l) i y Hy). by apply submseteq_skip.
    + cbn [length]. rewrite Hlen, length_delete by done. simpl. lia.
Qed.

Lemma hoare_random_shuffle {A} G (l : list A) :
  hoare G (random_shuffle l) (rets (λ l', l' ≡ₚ l)).
Proof.
  eapply hoare_mono; [apply hoare_picks|].
  intros o. apply rets_mono. intros l' [Hsub Hlen].
  apply submseteq_length_Permutation; [done|lia].
Qed.

Lemma hoare_set_iter G (s : PySet Node) : hoare G (set_iter s) (rets (λ l', l' ≡ₚ s)).
Proof. apply (hoare_random_shuffle G s). Qed.

Lemma hoare_random_sample {A} G (l : list A) (k : Z) :
  0 ≤ k ≤ Z.of_nat (length l) →
  hoare G (random_sample l k)
    (rets (λ l', l' ⊆+ l ∧ Z.of_nat (length l') = k)).
Proof.
  intros Hk. unfold random_sample. rewrite decide_True by done.
  eapply hoare_mono; [apply hoare_picks|].
  intros o. apply rets_mono. intros l' [Hsub Hlen]. split; [done|]. lia.
Qed.

Lemma hoare_to_any {A} G (c : Py A) (P : A → Prop) :
  hoare G c (rets P) → hoare G c any.
Proof. intros Hc. by eapply hoare_mono. Qed.

(** ** The graph is only read (C9) *)

Lemma frame_random_shuffle {A} G (l : list A) : hoare G (random_shuffle l) any.
Proof. eapply hoare_to_any, hoare_random_shuffle. Qed.

Lemma frame_random_choice {A} G (l : list A) : hoare G (random_choice l) any.
Proof.
  destruct l as [|x l]; [by apply hoare_raise|].
  eapply hoare_to_any, hoare_random_choice. done.
Qed.

Lemma frame_random_sample {A} G (l : list A) k : hoare G (random_sample l k) any.
Proof.
  unfold random_sample. case_decide; [|by apply hoare_raise].
  eapply hoare_to_any, hoare_picks.
Qed.

Lemma frame_true_div G a b : hoare G (true_div a b) any.
Proof. unfold true_div. case_decide; [by apply hoare_raise|by apply hoare_ret]. Qed.

Lemma frame_mh_body G num_samples st : hoare G (mh_body num_samples st) any.
Proof.
  unfold mh_body. case_decide; [|by apply hoare_ret].
  apply hoare_bind_any; [apply hoare_G_neighbors_any|]. intros [|x neighbors].
  { apply hoare_bind_any; [eapply hoare_to_any, hoare_print|].
    intros _. by apply hoare_ret. }
  apply hoare_bind_any; [apply frame_random_choice|]. intros next_node.
  apply hoare_bind_any; [apply hoare_G_degree_any|]. intros current_degree.
  apply hoare_bind_any; [apply hoare_G_degree_any|]. intros next_degree.
  apply hoare_bind_any; [apply frame_true_div|]. intros quotient.
  apply hoare_bind_any; [eapply hoare_to_any, hoare_random_random|]. intros u.
  destruct (u ?= _)%Q; by apply hoare_ret.
Qed.

Lemma frame_rw_body G num_samples st : hoare G (rw_body num_samples st) any.
Proof.
  unfold rw_body. case_decide; [|by apply hoare_ret].
  apply hoare_bind_any; [apply hoare_G_neighbors_any|]. intros [|x neighbors].
  { apply hoare_bind_any; [eapply hoare_to_any, hoare_print|].
    intros _. by apply hoare_ret. }
  apply hoare_bind_any; [apply frame_random_choice|]. intros next_node.
  by apply hoare_ret.
Qed.

Lemma frame_snowball_expand G sample_size to_expand st :
  hoare G (snowball_expand sample_size to_expand st) any.
Proof.
  revert st. induction to_expand as [|node rest IH]; intros st; simpl.
  - by apply hoare_ret.
  - apply hoare_bind_any; [apply hoare_G_neighbors_any|]. intros neighbors.
    apply hoare_bind_any; [apply frame_random_shuffle|]. intros neighbors'.
    apply IH.
Qed.

Lemma frame_snowball_rounds G sample_size rounds st :
  hoare G (snowball_rounds sample_size rounds st) any.
Proof.
  revert st. induction rounds as [|rounds IH]; intros st; simpl.
  - by apply hoare_ret.
  - apply hoare_bind_any.
    { apply hoare_bind_any; [eapply hoare_to_any, hoare_set_iter|].
      intros order. apply frame_snowball_expand. }
    intros st'. case_decide; [by apply hoare_ret|apply IH].
Qed.

Lemma frame_dfs_body G sample_size st : hoare G (dfs_body sample_size st) any.
Proof.
  unfold dfs_body. destruct (pop st.2) as [[stack node]|]; [|by apply hoare_ret].
  case_decide; [|by apply hoare_ret].
  case_decide; [by apply hoare_ret|].
  apply hoare_bind_any; [apply hoare_G_neighbors_any|]. intros neighbors.
  apply hoare_bind_any; [apply frame_random_shuffle|]. intros neighbors'.
  by apply hoare_ret.
Qed.

Lemma frame_bfs_body G sample_size st : hoare G (bfs_body sample_size st) any.
Proof.
  unfold bfs_body. destruct (st.2) as [|node queue]; [by apply hoare_ret|].
  case_decide; [|by apply hoare_ret].
  apply hoare_bind_any; [apply hoare_G_neighbors_any|]. intros neighbors.
  apply hoare_bind_any; [apply frame_random_shuffle|]. intros neighbors'.
  by apply hoare_ret.
Qed.

Lemma frame_induced_scan G sample_size ns acc :
  hoare G (induced_scan sample_size ns acc) any.
Proof.
  revert acc. induction ns as [|node rest IH]; intros acc; simpl.
  - by apply hoare_ret.
  - apply hoare_bind_any; [apply hoare_G_neighbors_any|]. intros neighbors.
    apply hoare_bind_any; [apply frame_random_shuffle|]. intros neighbors'.
    destruct (induced_emit _ _ _ _); [apply IH|by apply hoare_ret].
Qed.

Lemma frame_with_keys G (xs : list Node) : hoare G (with_keys G_degree xs) any.
Proof.
  induction xs as [|x xs IH]; simpl; [by apply hoare_ret|].
  apply hoare_bind_any; [apply hoare_G_degree_any|]. intros k.
  apply hoare_bind_any; [apply IH|]. intros rest. by apply hoare_ret.
Qed.

(** C9. Every one of the nine sampling methods leaves [self.G] as it found
    it, whatever its arguments, whatever the random source answers, and
    whether it returns, raises or is still running: the graph of the final
    world is the graph of the initial world, and so are its nodes, edges,
    neighbour lists and degrees, which are functions of it. *)
Theorem sampling_never_mutates_graph (w : World Node) :
  (∀ fuel start_node num_samples,
     graph (metropolis_hastings_sampling fuel start_node num_samples w).2 = graph w) ∧
  (∀ fuel start_node num_samples,
     graph (random_walk_sampling fuel start_node num_samples w).2 = graph w) ∧
  (∀ initial_nodes sample_size expand_depth,
     graph (snowball_sampling initial_nodes sample_size expand_depth w).2 = graph w) ∧
  (∀ fuel initial_node sample_size,
     graph (depth_first_sampling fuel initial_node sample_size w).2 = graph w) ∧
  (∀ fuel initial_nodes sample_size,
     graph (breadth_first_sampling fuel initial_nodes sample_size w).2 = graph w) ∧
  (∀ sample_size, graph (random_edge_sampling sample_size w).2 = graph w) ∧
  (∀ sample_size, graph (induced_edge_sampling sample_size w).2 = graph w) ∧
  (∀ sample_size, graph (random_node_sampling sample_size w).2 = graph w) ∧
  (∀ sample_size, graph (degree_based_node_sampling sample_size w).2 = graph w).
Proof.
  assert (∀ A (c : Py A), hoare (graph w) c any → graph (c w).2 = graph w) as Hrun.
  { intros A c Hc. by destruct (Hc w eq_refl). }
  repeat split; intros; apply Hrun.
  - apply hoare_while_any. intros st. apply frame_mh_body.
  - apply hoare_while_any. intros st. apply frame_rw_body.
  - apply hoare_bind_any; [apply frame_snowball_rounds|].
    intros s. eapply hoare_to_any, hoare_set_iter.
  - apply hoare_bind_any.
    { apply hoare_while_any. intros st. apply frame_dfs_body. }
    intros s. eapply hoare_to_any, hoare_set_iter.
  - apply hoare_bind_any.
    { apply hoare_while_any. intros st. apply frame_bfs_body. }
    intros s. eapply hoare_to_any, hoare_set_iter.
  - apply hoare_bind_any; [eapply hoare_to_any, hoare_G_edges|]. intros es.
    apply hoare_bind_any; [apply frame_random_shuffle|]. intros es'.
    by apply hoare_ret.
  - apply hoare_bind_any; [eapply hoare_to_any, hoare_G_nodes|]. intros ns.
    apply hoare_bind_any; [apply frame_random_shuffle|]. intros ns'.
    apply frame_induced_scan.
  - apply hoare_bind_any; [eapply hoare_to_any, hoare_G_nodes|]. intros ns.
    apply frame_random_sample.
  - apply hoare_bind_any; [eapply hoare_to_any, hoare_G_nodes|]. intros ns.
    apply hoare_bind_any.
    { apply hoare_bind_any; [apply frame_with_keys|]. intros keyed.
      by apply hoare_ret. }
    intros sorted. by apply hoare_ret.
Qed.

Lemma hoare_loop_reaches {S R} G (body : S → Py (Iter S R)) (I : S → Prop)
    (P : R → Prop) s0 w0 st w :
  (∀ st, I st →
     hoare G (body st)
       (rets (λ r, match r with Continue st' => I st' | Break r => P r end))) →
  graph w0 = G → I s0 →
  loop_reaches body s0 w0 st w → graph w = G ∧ I st.
Proof.
  intros Hbody Hw0 Hs0 Hreach.
  induction Hreach as [|s w s' w' _ [Hw Hs] Hpass]; [done|].
  destruct (Hbody s Hs w Hw) as [Hg Hr]. rewrite Hpass in Hg, Hr. done.
Qed.

(** ** Building a NetworkX graph *)

Lemma add_node_id g n : n ∈ nodes g → add_node g n = g.
Proof. intros. unfold add_node. by rewrite decide_True. Qed.

Lemma nodes_add_node g n m : m ∈ nodes (add_node g n) ↔ m ∈ nodes g ∨ m = n.
Proof.
  unfold add_node. case_decide as Hn.
  - split; [by left|]. by intros [?| ->].
  - unfold nodes. rewrite fmap_app, elem_of_app. simpl.
    by rewrite list_elem_of_singleton.
Qed.

Lemma adj_app g1 g2 n :
  adj (g1 ++ g2) n = match adj g1 n with Some l => Some l | None => adj g2 n end.
Proof.
  induction g1 as [|[m l] g1 IH]; simpl; [done|]. by case_decide.
Qed.

Lemma adj_add_node g n m :
  adj (add_node g n) m =
  if decide (m ∈ nodes g) then adj g m
  else if decide (n = m) then Some [] else None.
Proof.
  unfold add_node. destruct (decide (n ∈ nodes g)) as [Hn|Hn].
  - destruct (decide (m ∈ nodes g)) as [Hm|Hm]; [done|].
    rewrite decide_False by congruence. by apply adj_None.
  - rewrite adj_app. simpl. destruct (decide (m ∈ nodes g)) as [Hm|Hm].
    + apply adj_is_Some in Hm as [l ->]. done.
    + apply adj_None in Hm as ->. done.
Qed.

Lemma adjacent_add_node g n u v : adjacent (add_node g n) u v ↔ adjacent g u v.
Proof.
  unfold adjacent. rewrite adj_add_node. case_decide as Hu; [done|].
  apply adj_None in Hu as ->. case_decide; [|done].
  split; [by intros ?%elem_of_nil|done].
Qed.

Lemma nodes_add_nbr u v g : nodes (add_nbr u v g) = nodes g.
Proof.
  unfold nodes, add_nbr. rewrite <-list_fmap_compose.
  apply list_fmap_ext. intros i [m l] _. simpl. by case_decide.
Qed.

Lemma adj_add_nbr u v g n :
  adj (add_nbr u v g) n =
  (λ l, if decide (n = u) then (if decide (v ∈ l) then l else l ++ [v]) else l)
    <$> adj g n.
Proof.
  induction g as [|[m l] g IH]; simpl; [done|].
  destruct (decide (m = u)) as [->|Hmu]; simpl.
  - destruct (decide (u = n)) as [<-|Hun]; simpl; [|done].
    by destruct (decide (u = u)).
  - destruct (decide (m = n)) as [<-|Hmn]; simpl; [|done].
    by destruct (decide (m = u)).
Qed.

Lemma adjacent_add_nbr u v g a b :
  adjacent (add_nbr u v g) a b ↔
  adjacent g a b ∨ (a = u ∧ b = v ∧ u ∈ nodes g).
Proof.
  unfold adjacent. rewrite adj_add_nbr.
  destruct (adj g a) as [l|] eqn:Hadj; simpl.
  - assert (a ∈ nodes g) as Ha by (apply adj_is_Some; eauto).
    case_decide as Hau; [subst a|naive_solver].
    case_decide as Hv; [naive_solver|].
    rewrite elem_of_app, list_elem_of_singleton. naive_solver.
  - apply adj_None in Hadj. naive_solver.
Qed.

Lemma nodes_add_edge g u v m :
  m ∈ nodes (add_edge g u v) ↔ m ∈ nodes g ∨ m = u ∨ m = v.
Proof.
  unfold add_edge. rewrite !nodes_add_nbr, !nodes_add_node. naive_solver.
Qed.

Lemma adjacent_add_edge g u v a b :
  adjacent (add_edge g u v) a b ↔
  adjacent g a b ∨ (a = u ∧ b = v) ∨ (a = v ∧ b = u).
Proof.
  unfold add_edge. rewrite !adjacent_add_nbr, !adjacent_add_node.
  rewrite nodes_add_nbr, !nodes_add_node. naive_solver.
Qed.

Lemma rtc_adjacent_add_node g n u v :
  rtc (adjacent g) u v → rtc (adjacent (add_node g n)) u v.
Proof. apply rtc_subrel. intros a b. by rewrite adjacent_add_node. Qed.

Lemma rtc_adjacent_add_edge g a b u v :
  rtc (adjacent g) u v → rtc (adjacent (add_edge g a b)) u v.
Proof. apply rtc_subrel. intros x y. rewrite adjacent_add_edge. by left. Qed.

Lemma rooted_connected root g : rooted root g → connected g.
Proof.
  intros [_ Hroot] u v Hu Hv. etrans; [apply (Hroot u Hu)|apply (Hroot v Hv)].
Qed.

Lemma rooted_init (root : Node) : rooted root (add_node [] root).
Proof.
  split; [apply nodes_add_node; by right|].
  intros n [[]%elem_of_nil| ->]%nodes_add_node. done.
Qed.

(** Hanging a node [v] on a node [u] of a rooted graph keeps it rooted. *)
Lemma rooted_add_edge root g u v :
  rooted root g → u ∈ nodes g →
  rooted root (add_edge (add_node g v) u v).
Proof.
  intros [Hroot Hpaths] Hu. split.
  { apply nodes_add_edge. left. apply nodes_add_node. by left. }
  assert (∀ n, n ∈ nodes g →
            rtc (adjacent (add_edge (add_node g v) u v)) root n ∧
            rtc (adjacent (add_edge (add_node g v) u v)) n root) as Hold.
  { intros n Hn. destruct (Hpaths n Hn).
    split; by apply rtc_adjacent_add_edge, rtc_adjacent_add_node. }
  intros n Hn. apply nodes_add_edge in Hn.
  rewrite nodes_add_node in Hn.
  destruct (decide (n ∈ nodes g)) as [Hin|Hnin]; [by apply Hold|].
  assert (n = v) as -> by naive_solver.
  destruct (Hold u Hu) as [Hto Hfrom]. split.
  - eapply rtc_r; [done|]. apply adjacent_add_edge. naive_solver.
  - eapply rtc_l; [|done]. apply adjacent_add_edge. naive_solver.
Qed.

(** ** metropolis_hastings_sampling (C1, C10) *)

Lemma degree_pos g n l :
  adj g n = Some l → l ≠ [] → ∃ d, degree g n = Some d ∧ 0 < d.
Proof.
  intros Hadj Hl. unfold degree. rewrite Hadj. eexists. split; [done|].
  destruct l; [done|]. simpl. case_decide; lia.
Qed.

Lemma degree_is_Some g n : n ∈ nodes g → is_Some (degree g n).
Proof.
  intros [l Hl]%adj_is_Some. unfold degree. rewrite Hl. eauto.
Qed.

Lemma hoare_true_div G a b :
  b ≠ 0 →
  hoare G (true_div a b)
    (rets (λ q, q = round_binary64 (inject_Z a / inject_Z b))).
Proof. intros Hb. unfold true_div. rewrite decide_False by done. by apply hoare_ret. Qed.

Lemma mh_reject_id G start_node (st : MHState Node) :
  mh_inv G start_node st → mh_reject st = st.
Proof.
  intros (_ & Hcur & _). unfold mh_reject. rewrite add_node_id by done.
  by destruct st.
Qed.

Lemma mh_inv_init G (start_node : Node) :
  start_node ∈ nodes G → mh_inv G start_node (mh_init start_node).
Proof.
  intros Hstart. split; [apply rooted_init|]. split; [|done].
  apply nodes_add_node. by right.
Qed.

Lemma mh_inv_accept G start_node (st : MHState Node) next_node :
  mh_inv G start_node st → next_node ∈ nodes G →
  mh_inv G start_node (mh_accept st next_node).
Proof.
  intros (Hroot & Hcur & _) Hnext. split; [by apply rooted_add_edge|].
  split; [|done]. apply nodes_add_edge. by right; right.
Qed.

Lemma hoare_mh_body G start_node num_samples (st : MHState Node) :
  wf_graph G → mh_inv G start_node st →
  hoare G (mh_body num_samples st)
    (rets (λ r, match r with
                | Continue st' => mh_inv G start_node st'
                | Break g => rooted start_node g
                end)).
Proof.
  intros Hwf Hinv. pose proof Hinv as (Hroot & Hcur & HcurG).
  unfold mh_body. case_decide; [|by apply hoare_ret].
  apply adj_is_Some in HcurG as [neighbors Hadj].
  eapply hoare_bind; [by apply hoare_G_neighbors|]. intros ? ->.
  destruct neighbors as [|x neighbors].
  { eapply hoare_bind; [apply hoare_print|]. intros _ _. by apply hoare_ret. }
  eapply hoare_bind; [by apply hoare_random_choice|]. intros next_node Hnext.
  assert (next_node ∈ nodes G) as HnextG.
  { apply (adjacent_node_r G (mh_current st)); [done|].
    unfold adjacent. by rewrite Hadj. }
  destruct (degree_pos G _ _ Hadj) as (dc & Hdc & Hpos); [done|].
  destruct (degree_is_Some G _ HnextG) as [dn Hdn].
  eapply hoare_bind; [by apply hoare_G_degree|]. intros ? ->.
  eapply hoare_bind; [by apply hoare_G_degree|]. intros ? ->.
  eapply hoare_bind; [apply hoare_true_div; lia|]. intros ? ->.
  eapply hoare_bind; [apply hoare_random_random|]. intros u _.
  destruct (u ?= _)%Q; apply hoare_ret; cbn [rets].
  - by erewrite mh_reject_id.
  - by apply mh_inv_accept.
  - by erewrite mh_reject_id.
Qed.

Lemma mh_reaches_inv G start_node num_samples w0 (st : MHState Node) w :
  wf_graph G → graph w0 = G → start_node ∈ nodes G →
  loop_reaches (mh_body num_samples) (mh_init start_node) w0 st w →
  graph w = G ∧ mh_inv G start_node st.
Proof.
  intros Hwf Hw0 Hstart. eapply hoare_loop_reaches; [|done|by apply mh_inv_init].
  intros st' Hst'. by apply hoare_mh_body.
Qed.

Lemma hoare_metropolis_hastings_sampling G fuel (start_node : Node) num_samples :
  wf_graph G → start_node ∈ nodes G →
  hoare G (metropolis_hastings_sampling fuel start_node num_samples)
    (safe (rooted start_node)).
Proof.
  intros Hwf Hstart. unfold metropolis_hastings_sampling.
  eapply hoare_while; [|by apply mh_inv_init].
  intros st Hst. by apply hoare_mh_body.
Qed.

(** C1. Let [G] be a NetworkX graph and [start_node] one of its nodes, and
    let the loop of [metropolis_hastings_sampling] have reached the state
    [st] in the world [w].
    - Dead-end check before the division: when the current node has a
      neighbour, its degree is positive.
    - Rejection: if the pass through the loop body draws [next_node] and
      [u], and [u < min(1, degree(next_node) / degree(current_node))] does
      not hold, where the quotient is the float the division returns, the
      pass ends in [Continue st], the very state it started in: the current
      node has not moved and re-adding it changed nothing.
    - The pass raises no exception, and neither does the whole call; in
      particular there is no [ZeroDivisionError]. *)
Theorem mh_rejection_stays_and_no_zero_division
    (start_node : Node) (num_samples : Z) (w0 : World Node)
    (st : MHState Node) (w : World Node) :
  wf_graph (graph w0) → start_node ∈ nodes (graph w0) →
  loop_reaches (mh_body num_samples) (mh_init start_node) w0 st w →
  (∀ neighbors,
     adj (graph w) (mh_current st) = Some neighbors → neighbors ≠ [] →
     ∃ d, degree (graph w) (mh_current st) = Some d ∧ 0 < d) ∧
  (∀ neighbors next_node w1 current_degree next_degree quotient (u : Q) w2,
     number_of_nodes (mh_sampled st) < num_samples →
     G_neighbors (mh_current st) w = (Ret neighbors, w) →
     neighbors ≠ [] →
     random_choice neighbors w = (Ret next_node, w1) →
     G_degree (mh_current st) w1 = (Ret current_degree, w1) →
     G_degree next_node w1 = (Ret next_degree, w1) →
     true_div next_degree current_degree w1 = (Ret quotient, w1) →
     random_random w1 = (Ret u, w2) →
     ¬ (u < Qmin 1 quotient)%Q →
     mh_body num_samples st w = (Ret (Continue st), w2)) ∧
  (∀ e, (mh_body num_samples st w).1 ≠ Raise e) ∧
  (∀ fuel e,
     (metropolis_hastings_sampling fuel start_node num_samples w0).1 ≠ Raise e).
Proof.
  intros Hwf Hstart Hreach.
  destruct (mh_reaches_inv (graph w0) start_node num_samples w0 st w)
    as [Hw Hinv]; [done..|].
  split; [|split; [|split]].
  - intros neighbors Hadj Hne. by eapply degree_pos.
  - intros neighbors next_node w1 dc dn q u w2
      Hlt Hnbrs Hne Hchoice Hdc Hdn Hq Hu Hcmp.
    unfold mh_body. rewrite decide_True by done.
    unfold bind at 1. rewrite Hnbrs.
    destruct neighbors as [|x neighbors]; [done|].
    unfold bind at 1. rewrite Hchoice.
    unfold bind at 1. rewrite Hdc.
    unfold bind at 1. rewrite Hdn.
    unfold bind at 1. rewrite Hq.
    unfold bind at 1. rewrite Hu.
    destruct (u ?= Qmin 1 q)%Q eqn:Hcase;
      [|by apply Qlt_alt in Hcase|]; unfold ret; by erewrite mh_reject_id.
  - intros e He.
    destruct (hoare_mh_body (graph w0) start_node num_samples st Hwf Hinv w Hw)
      as [_ Hr].
    by rewrite He in Hr.
  - intros fuel e He.
    destruct (hoare_metropolis_hastings_sampling (graph w0) fuel start_node
                num_samples Hwf Hstart w0 eq_refl) as [_ Hr].
    by rewrite He in Hr.
Qed.

(** ** Well-formedness is what the NetworkX interface maintains *)

Lemma wf_graph_alt g :
  wf_graph g ↔
  NoDup (nodes g) ∧
  (∀ n l, adj g n = Some l → NoDup l) ∧
  (∀ a b, adjacent g a b → adjacent g b a).
Proof.
  split.
  - intros Hwf. split; [by apply wf_graph_NoDup_nodes|]. split.
    + intros n l. by apply wf_graph_NoDup_adj.
    + intros a b. by apply wf_graph_sym.
  - intros (Hnd & Hadj & Hsym). split; [done|].
    apply Forall_forall. intros [n l] Hin. simpl.
    apply elem_adj in Hin; [|done]. split; [by eapply Hadj|].
    apply Forall_forall. intros m Hm. apply Hsym.
    unfold adjacent. by rewrite Hin.
Qed.

Lemma wf_graph_empty : wf_graph ([] : Graph Node).
Proof. split; [apply NoDup_nil_2|apply Forall_nil_2]. Qed.

Lemma NoDup_nodes_add_node g n : NoDup (nodes g) → NoDup (nodes (add_node g n)).
Proof.
  intros Hnd. unfold add_node. case_decide as Hn; [done|].
  unfold nodes. rewrite fmap_app. apply NoDup_app. split; [done|].
  split; [|apply NoDup_singleton].
  intros m Hm ->%list_elem_of_singleton. done.
Qed.

Lemma wf_graph_add_node g n : wf_graph g → wf_graph (add_node g n).
Proof.
  rewrite !wf_graph_alt. intros (Hnd & Hadj & Hsym).
  split; [by apply NoDup_nodes_add_node|]. split.
  - intros m l. rewrite adj_add_node.
    case_decide; [apply Hadj|]. case_decide; [|done].
    intros [= <-]. apply NoDup_nil_2.
  - intros a b. rewrite !adjacent_add_node. apply Hsym.
Qed.

Lemma wf_graph_add_edge g u v : wf_graph g → wf_graph (add_edge g u v).
Proof.
  intros Hwf.
  assert (wf_graph (add_node (add_node g u) v)) as Hwf'
    by by do 2 apply wf_graph_add_node.
  apply wf_graph_alt in Hwf' as (Hnd & Hadj & Hsym).
  apply wf_graph_alt. split; [|split].
  - unfold add_edge. by rewrite !nodes_add_nbr.
  - intros n l. unfold add_edge. rewrite !adj_add_nbr.
    destruct (adj (add_node (add_node g u) v) n) as [l0|] eqn:Hl0; [|done].
    apply Hadj in Hl0. simpl. intros [= <-].
    assert (∀ (x : Node) (l1 : list Node),
              NoDup l1 → NoDup (if decide (x ∈ l1) then l1 else l1 ++ [x])) as Hstep.
    { intros x l1 Hl1. case_decide as Hx; [done|].
      apply NoDup_app. split; [done|]. split; [|apply NoDup_singleton].
      by intros y Hy ->%list_elem_of_singleton. }
    destruct (decide (n = u)), (decide (n = v)); auto.
  - intros a b. rewrite !adjacent_add_edge.
    pose proof (Hsym a b) as Hab. rewrite !adjacent_add_node in Hab.
    naive_solver.
Qed.

(** ** The edge view *)

Lemma edges_from_app seen g1 g2 :
  edges_from seen (g1 ++ g2) =
  edges_from seen g1 ++ edges_from (reverse (nodes g1) ++ seen) g2.
Proof.
  revert seen. induction g1 as [|[n l] g1 IH]; intros seen; simpl; [done|].
  rewrite IH, <-app_assoc. do 3 f_equal.
  unfold nodes. rewrite reverse_cons, <-app_assoc. done.
Qed.

Lemma elem_of_edges_from seen g a b :
  (a, b) ∈ edges_from seen g → ∃ l, (a, l) ∈ g ∧ b ∈ l.
Proof.
  revert seen. induction g as [|[n l] g IH]; intros seen; simpl.
  - by intros ?%elem_of_nil.
  - rewrite elem_of_app. intros [Hin|Hin].
    + apply list_elem_of_fmap in Hin as (m & [= -> ->] & Hm).
      apply list_elem_of_filter in Hm as [_ Hm].
      exists l. split; [left|done].
    + destruct (IH _ Hin) as (l' & Hl' & Hb). exists l'. split; [by right|done].
Qed.

Lemma elem_of_edges_adjacent g a b :
  NoDup (nodes g) → (a, b) ∈ edges g → adjacent g a b.
Proof.
  intros Hnd (l & Hl & Hb)%elem_of_edges_from.
  unfold adjacent. by rewrite (elem_adj g a l).
Qed.

Lemma add_nbr_not_node u v g : u ∉ nodes g → add_nbr u v g = g.
Proof.
  induction g as [|[m l] g IH]; [done|].
  unfold nodes in *. cbn [fmap list_fmap fst]. rewrite not_elem_of_cons.
  intros [Hu Hg]. unfold add_nbr in *. cbn [fmap list_fmap fst snd].
  rewrite decide_False by done. f_equal. by apply IH.
Qed.

Lemma add_nbr_app u v g1 g2 :
  add_nbr u v (g1 ++ g2) = add_nbr u v g1 ++ add_nbr u v g2.
Proof. unfold add_nbr. apply fmap_app. Qed.

Lemma adjacent_cons m (l : list Node) g u v :
  adjacent ((m, l) :: g) u v ↔ if decide (m = u) then v ∈ l else adjacent g u v.
Proof. unfold adjacent. simpl. by destruct (decide (m = u)). Qed.

Lemma edges_from_add_nbr seen g u v :
  NoDup (nodes g) → u ∈ nodes g → v ∉ seen → v ∉ nodes g → ¬ adjacent g u v →
  edges_from seen (add_nbr u v g) ≡ₚ (u, v) :: edges_from seen g.
Proof.
  revert seen. induction g as [|[m l] g IH]; intros seen.
  - by intros _ ?%elem_of_nil.
  - unfold nodes in *. cbn [fmap list_fmap fst].
    rewrite NoDup_cons, elem_of_cons, not_elem_of_cons, adjacent_cons.
    intros [Hm Hnd] Hu Hv [Hvm Hvg] Hadj.
    unfold add_nbr in *. cbn [fmap list_fmap fst snd edges_from].
    destruct (decide (m = u)) as [->|Hmu].
    + fold (add_nbr u v g). rewrite add_nbr_not_node by done.
      rewrite (decide_False (P:=v ∈ l)) by done.
      cbn [edges_from]. rewrite filter_app, fmap_app.
      rewrite (filter_cons_True _ v []) by done. simpl.
      rewrite <-app_assoc. simpl. by rewrite <-Permutation_middle.
    + destruct Hu as [->|Hu]; [done|].
      cbn [edges_from]. rewrite IH; [|done..| |done|done].
      * by rewrite <-Permutation_middle.
      * rewrite not_elem_of_cons. done.
Qed.

(** Hanging a new node [v] on a node [u] adds the one edge [(u, v)]. *)
Lemma edges_add_edge_new g u v :
  wf_graph g → u ∈ nodes g → v ∉ nodes g →
  edges (add_edge (add_node g v) u v) ≡ₚ (u, v) :: edges g.
Proof.
  intros Hwf Hu Hv. pose proof (wf_graph_NoDup_nodes g Hwf) as Hnd.
  assert (u ≠ v) as Huv by congruence.
  assert (¬ adjacent g u v) as Hadj.
  { intros Hadj. by apply adjacent_node_r in Hadj. }
  unfold add_edge. rewrite (add_node_id (add_node g v) u)
    by (apply nodes_add_node; by left).
  rewrite (add_node_id (add_node g v) v) by (apply nodes_add_node; by right).
  unfold add_node. rewrite decide_False by done.
  rewrite !add_nbr_app.
  rewrite (add_nbr_not_node v u (add_nbr u v g)) by by rewrite nodes_add_nbr.
  unfold edges. rewrite edges_from_app, app_nil_r.
  rewrite edges_from_add_nbr; [|done..|apply not_elem_of_nil|done|done].
  assert (edges_from (reverse (nodes (add_nbr u v g)))
            (add_nbr v u (add_nbr u v [(v, [])])) = []) as ->; [|by rewrite app_nil_r].
  rewrite nodes_add_nbr. unfold add_nbr. simpl.
  rewrite (decide_False (P:=v = u)) by done. simpl.
  rewrite decide_True by done. simpl.
  rewrite filter_cons_False, filter_nil; [done|].
  intros Hn. apply Hn. by apply elem_of_reverse.
Qed.

(** ** random_walk_sampling (C2) *)

Lemma elem_of_set_add (s : PySet Node) x y : y ∈ set_add s x ↔ y ∈ s ∨ y = x.
Proof.
  unfold set_add. case_decide as Hx.
  - split; [by left|]. by intros [?| ->].
  - by rewrite elem_of_app, list_elem_of_singleton.
Qed.

Lemma length_add_node_new g n :
  n ∉ nodes g → length (add_node g n) = S (length g).
Proof.
  intros Hn. unfold add_node. rewrite decide_False by done.
  rewrite length_app. simpl. lia.
Qed.

Lemma length_add_edge g u v : length (add_edge g u v) = length (add_node (add_node g u) v).
Proof. unfold add_edge, add_nbr. by rewrite !length_fmap. Qed.

Lemma nodes_add_edge_new g u v :
  u ∈ nodes g → v ∉ nodes g →
  nodes (add_edge (add_node g v) u v) = nodes g ++ [v].
Proof.
  intros Hu Hv. unfold add_edge. rewrite !nodes_add_nbr.
  rewrite (add_node_id (add_node g v) u) by (apply nodes_add_node; by left).
  rewrite (add_node_id (add_node g v) v) by (apply nodes_add_node; by right).
  unfold add_node. rewrite decide_False by done.
  unfold nodes. by rewrite fmap_app.
Qed.

Lemma rw_move_visited (st : RWState Node) next_node :
  next_node ∈ rw_visited st →
  rw_move st next_node = mkRW (rw_sampled st) next_node (rw_visited st).
Proof. intros. unfold rw_move. by rewrite decide_True. Qed.

Lemma rw_move_new (st : RWState Node) next_node :
  next_node ∉ rw_visited st →
  rw_move st next_node =
  mkRW (add_edge (add_node (rw_sampled st) next_node) (rw_current st) next_node)
       next_node (rw_visited st ++ [next_node]).
Proof.
  intros. unfold rw_move, set_add. by rewrite !decide_False.
Qed.

Lemma rw_inv_init G (start_node : Node) num_samples :
  start_node ∈ nodes G → rw_inv G start_node num_samples (rw_init start_node).
Proof.
  intros Hstart. unfold rw_init, rw_inv.
  cbn [rw_sampled rw_current rw_visited].
  split; [apply rooted_init|].
  split; [apply wf_graph_add_node, wf_graph_empty|].
  split; [apply nodes_add_node; by right|].
  split; [done|]. split; [|split; [|split]].
  - intros n. by rewrite elem_of_set_add, nodes_add_node.
  - intros a b. rewrite adjacent_add_node. unfold adjacent. done.
  - done.
  - unfold number_of_nodes. simpl. lia.
Qed.

Lemma rw_inv_move G (start_node : Node) num_samples (st : RWState Node) next_node :
  wf_graph G → rw_inv G start_node num_samples st →
  number_of_nodes (rw_sampled st) < num_samples →
  adjacent G (rw_current st) next_node →
  rw_inv G start_node num_samples (rw_move st next_node).
Proof.
  intros Hwf (Hroot & Hwfs & Hcur & HcurG & Hvis & Hsub & Hedges & Hsize) Hlt Hadj.
  assert (next_node ∈ nodes G) as HnextG by by eapply adjacent_node_r.
  destruct (decide (next_node ∈ rw_visited st)) as [Hin|Hnin].
  - rewrite rw_move_visited by done. unfold rw_inv.
    cbn [rw_sampled rw_current rw_visited].
    split; [done|]. split; [done|]. split; [by apply Hvis|]. done.
  - rewrite rw_move_new by done. unfold rw_inv.
    cbn [rw_sampled rw_current rw_visited].
    assert (next_node ∉ nodes (rw_sampled st)) as Hnew by by rewrite <-Hvis.
    split; [by apply rooted_add_edge|].
    split; [by apply wf_graph_add_edge, wf_graph_add_node|].
    split; [apply nodes_add_edge; by right; right|].
    split; [done|]. split; [|split; [|split]].
    + intros n. rewrite elem_of_app, list_elem_of_singleton, nodes_add_edge,
        nodes_add_node, Hvis.
      split; [naive_solver|]. intros [[?| ->]|[->| ->]]; auto.
    + intros a b. rewrite adjacent_add_edge, adjacent_add_node.
      intros [Hab|[[-> ->]|[-> ->]]]; [by apply Hsub|done|by apply wf_graph_sym].
    + unfold number_of_edges, number_of_nodes in *.
      rewrite (edges_add_edge_new _ _ _ Hwfs Hcur Hnew).
      rewrite length_add_edge.
      rewrite (add_node_id (add_node _ _) (rw_current st))
        by (apply nodes_add_node; by left).
      rewrite (add_node_id (add_node _ _) next_node)
        by (apply nodes_add_node; by right).
      rewrite length_add_node_new by done. simpl. lia.
    + unfold number_of_nodes in *. rewrite length_add_edge.
      rewrite (add_node_id (add_node _ _) (rw_current st))
        by (apply nodes_add_node; by left).
      rewrite (add_node_id (add_node _ _) next_node)
        by (apply nodes_add_node; by right).
      rewrite length_add_node_new by done. lia.
Qed.

Lemma hoare_rw_body G (start_node : Node) num_samples (st : RWState Node) :
  wf_graph G → rw_inv G start_node num_samples st →
  hoare G (rw_body num_samples st)
    (rets (λ r, match r with
                | Continue st' =>
                    rw_inv G start_node num_samples st' ∧
                    ∃ next_node, adjacent G (rw_current st) next_node ∧
                                 st' = rw_move st next_node
                | Break g => g = rw_sampled st
                end)).
Proof.
  intros Hwf Hinv. pose proof Hinv as (_ & _ & _ & HcurG & _).
  unfold rw_body. case_decide as Hlt; [|by apply hoare_ret].
  apply adj_is_Some in HcurG as [neighbors Hadj].
  eapply hoare_bind; [by apply hoare_G_neighbors|]. intros ? ->.
  destruct neighbors as [|x neighbors].
  { eapply hoare_bind; [apply hoare_print|]. intros _ _. by apply hoare_ret. }
  eapply hoare_bind; [by apply hoare_random_choice|]. intros next_node Hnext.
  assert (adjacent G (rw_current st) next_node) as Hnb.
  { unfold adjacent. by rewrite Hadj. }
  apply hoare_ret. cbn [rets]. split; [by apply rw_inv_move|eauto].
Qed.

(** What the loop invariant says about the sampled graph. *)
Lemma rw_inv_result G (start_node : Node) num_samples (st : RWState Node) :
  rw_inv G start_node num_samples st →
  connected (rw_sampled st) ∧
  number_of_edges (rw_sampled st) = number_of_nodes (rw_sampled st) - 1 ∧
  number_of_edges (rw_sampled st) ≤ Z.max 1 num_samples - 1 ∧
  (∀ a b, (a, b) ∈ edges (rw_sampled st) → adjacent G a b).
Proof.
  intros (Hroot & Hwfs & _ & _ & _ & Hsub & Hedges & Hsize).
  split; [by eapply rooted_connected|]. split; [done|]. split; [lia|].
  intros a b Hab. apply Hsub, elem_of_edges_adjacent; [|done].
  by apply wf_graph_NoDup_nodes.
Qed.

Lemma hoare_random_walk_sampling G fuel (start_node : Node) num_samples :
  wf_graph G → start_node ∈ nodes G →
  hoare G (random_walk_sampling fuel start_node num_samples)
    (safe (λ g, connected g ∧
                number_of_edges g = number_of_nodes g - 1 ∧
                number_of_edges g ≤ Z.max 1 num_samples - 1 ∧
                (∀ a b, (a, b) ∈ edges g → adjacent G a b))).
Proof.
  intros Hwf Hstart. unfold random_walk_sampling.
  eapply (hoare_while G _ (rw_inv G start_node num_samples));
    [|by apply rw_inv_init].
  intros st Hst. eapply hoare_mono; [by apply hoare_rw_body|].
  intros o. apply rets_mono. intros [st'|g]; [by intros [? _]|].
  intros ->. by eapply rw_inv_result.
Qed.

(** ** random_node_sampling (C5) *)

Lemma submseteq_NoDup {A} (l k : list A) : l ⊆+ k → NoDup k → NoDup l.
Proof.
  intros (k' & Hk')%submseteq_Permutation Hnd. rewrite Hk' in Hnd.
  by apply NoDup_app in Hnd as [? _].
Qed.

(** C5. Let [G] be a NetworkX graph and [sample_size] a sample size (not
    negative).  If [sample_size] is at most the number of nodes of [G],
    [random_node_sampling] returns a list of exactly [sample_size] nodes of
    [G], no node twice; if it is larger, the call raises [ValueError] (the
    [InsufficientPopulation] failure) and returns nothing. *)
Theorem random_node_sampling_exact_or_fails (sample_size : Z) (w : World Node) :
  wf_graph (graph w) → 0 ≤ sample_size →
  (sample_size ≤ number_of_nodes (graph w) →
   ∃ sampled_nodes w',
     random_node_sampling sample_size w = (Ret sampled_nodes, w') ∧
     Z.of_nat (length sampled_nodes) = sample_size ∧
     NoDup sampled_nodes ∧
     ∀ n, n ∈ sampled_nodes → n ∈ nodes (graph w)) ∧
  (number_of_nodes (graph w) < sample_size →
   ∃ w', random_node_sampling sample_size w = (Raise ValueError, w')).
Proof.
  intros Hwf Hk. unfold number_of_nodes. split; intros Hsize.
  - assert (hoare (graph w) (random_node_sampling sample_size)
              (rets (λ l, l ⊆+ nodes (graph w) ∧ Z.of_nat (length l) = sample_size)))
      as Hspec.
    { unfold random_node_sampling.
      eapply hoare_bind; [apply hoare_G_nodes|]. intros ? ->.
      apply hoare_random_sample. unfold nodes. rewrite length_fmap. lia. }
    destruct (Hspec w eq_refl) as [_ Hr].
    destruct (random_node_sampling sample_size w) as [[l| |] w']; try done.
    destruct Hr as [Hsub Hlen]. exists l, w'. split; [done|]. split; [done|].
    split.
    + eapply submseteq_NoDup; [done|]. by apply wf_graph_NoDup_nodes.
    + intros n Hn. by eapply elem_of_submseteq.
  - exists w. unfold random_node_sampling, bind, G_nodes, random_sample.
    rewrite decide_False; [done|]. unfold nodes. rewrite length_fmap. lia.
Qed.

(** ** random_edge_sampling (C7) *)

Lemma edges_from_not_seen seen g a b : (a, b) ∈ edges_from seen g → b ∉ seen.
Proof.
  revert seen. induction g as [|[n l] g IH]; intros seen; simpl.
  - by intros ?%elem_of_nil.
  - rewrite elem_of_app. intros [Hin|Hin].
    + apply list_elem_of_fmap in Hin as (m & [= -> ->] & Hm).
      by apply list_elem_of_filter in Hm as [? _].
    + apply IH in Hin. rewrite not_elem_of_cons in Hin. by destruct Hin.
Qed.

Lemma edges_from_fst seen g a b : (a, b) ∈ edges_from seen g → a ∈ nodes g.
Proof.
  intros (l & Hl & _)%elem_of_edges_from.
  apply list_elem_of_fmap. by exists (a, l).
Qed.

(** No edge is reported in both directions. *)
Lemma edges_from_one_direction seen g a b :
  (a, b) ∈ edges_from seen g → (b, a) ∈ edges_from seen g → a = b.
Proof.
  revert seen. induction g as [|[n l] g IH]; intros seen; simpl.
  - by intros ?%elem_of_nil.
  - rewrite !elem_of_app. intros [Hab|Hab] [Hba|Hba].
    + apply list_elem_of_fmap in Hab as (m & [= ? ?] & _).
      apply list_elem_of_fmap in Hba as (m' & [= ? ?] & _). congruence.
    + apply list_elem_of_fmap in Hab as (m & [= ? ?] & _). subst a b.
      apply edges_from_not_seen in Hba. rewrite not_elem_of_cons in Hba.
      by destruct Hba.
    + apply list_elem_of_fmap in Hba as (m & [= ? ?] & _). subst a b.
      apply edges_from_not_seen in Hab. rewrite not_elem_of_cons in Hab.
      by destruct Hab.
    + by eapply IH.
Qed.

Lemma NoDup_edges_from seen g :
  NoDup (nodes g) → Forall (λ e, NoDup e.2) g → NoDup (edges_from seen g).
Proof.
  revert seen. induction g as [|[n l] g IH]; intros seen.
  - intros _ _. apply NoDup_nil_2.
  - unfold nodes in *. cbn [fmap list_fmap fst edges_from].
    rewrite NoDup_cons, Forall_cons. simpl. intros [Hn Hnd] [Hl Hg].
    apply NoDup_app. split; [|split].
    + apply NoDup_fmap_2; [by intros ?? [= ->]|]. by apply NoDup_filter.
    + intros [a b] Hin Hin'.
      apply list_elem_of_fmap in Hin as (m & [= -> ->] & _).
      by apply edges_from_fst in Hin'.
    + by apply IH.
Qed.

Lemma wf_graph_NoDup_edges g : wf_graph g → NoDup (edges g).
Proof.
  intros [Hnd Hall]. apply NoDup_edges_from; [done|].
  eapply Forall_impl; [done|]. by intros e [? _].
Qed.

(** ** The shuffle is a bijection from positions to orders *)

Lemma picks_pick_at {A} (k : nat) (l : list A) w :
  (k ≤ length l)%nat →
  picks k l w
  = (Ret (pick_at (positions_from (draws w) (cursor w) k (length l)) l),
     mkWorld (graph w) (draws w) (cursor w + k) (stdout w)).
Proof.
  revert l w. induction k as [|k IH]; intros l w Hk.
  - destruct w. cbn. by rewrite Nat.add_0_r.
  - destruct l as [|x l]; [simpl in Hk; lia|].
    cbn [picks positions_from]. unfold bind at 1. unfold randbelow at 1.
    set (i := Z.to_nat (draws w (cursor w) `mod` Z.of_nat (length (x :: l)))).
    assert (i < length (x :: l))%nat as Hi.
    { pose proof (Z.mod_pos_bound (draws w (cursor w))
                    (Z.of_nat (length (x :: l)))) as Hb.
      cbn [length] in *. lia. }
    unfold bind at 1. rewrite IH.
    2:{ rewrite length_delete by by apply lookup_lt_is_Some_2.
        cbn [length] in *. lia. }
    cbn [graph draws cursor stdout pick_at].
    rewrite length_delete by by apply lookup_lt_is_Some_2.
    unfold ret. by rewrite Nat.add_succ_r.
Qed.

Lemma positions_from_within (answers : nat → Z) (c k size : nat) :
  (k ≤ size)%nat → positions_within (positions_from answers c k size) size.
Proof.
  revert c size. induction k as [|k IH]; intros c size Hk; [done|].
  cbn [positions_from positions_within]. split; [|apply IH; lia].
  pose proof (Z.mod_pos_bound (answers c) (Z.of_nat size)). lia.
Qed.

Lemma length_positions_from (answers : nat → Z) (c k size : nat) :
  length (positions_from answers c k size) = k.
Proof. revert c size. induction k; intros; simpl; auto. Qed.

Lemma positions_from_ext (answers1 answers2 : nat → Z) (c k size : nat) :
  (∀ i, (c ≤ i)%nat → answers1 i = answers2 i) →
  positions_from answers1 c k size = positions_from answers2 c k size.
Proof.
  revert c size. induction k as [|k IH]; intros c size Hext; [done|].
  cbn [positions_from]. rewrite Hext by lia. f_equal.
  apply IH. intros i Hi. apply Hext. lia.
Qed.

(** Answers of the environment that give the positions [positions]. *)
Lemma positions_from_answers (positions : list nat) (c size : nat) :
  positions_within positions size →
  positions_from (λ i, Z.of_nat (nth (i - c) positions 0%nat))
    c (length positions) size
  = positions.
Proof.
  revert c size. induction positions as [|p ps IH]; intros c size Hw; [done|].
  destruct Hw as [Hp Hps]. cbn [length positions_from]. f_equal.
  - rewrite Nat.sub_diag. cbn [nth]. rewrite Z.mod_small by lia. lia.
  - rewrite <- (IH (S c) (size - 1)%nat Hps) at 2.
    apply positions_from_ext. intros i Hi.
    replace (i - c)%nat with (S (i - S c)) by lia. done.
Qed.

(** Every order of [l] is picked by some positions ... *)
Lemma pick_at_surj {A} (order l : list A) :
  order ≡ₚ l →
  ∃ positions,
    length positions = length l ∧ positions_within positions (length l) ∧
    pick_at positions l = order.
Proof.
  revert l. induction order as [|y order IH]; intros l Hperm.
  - apply Permutation_nil_l in Hperm as <-. by exists [].
  - assert (y ∈ l) as Hy by (rewrite <- Hperm; constructor).
    apply list_elem_of_lookup in Hy as [p Hp].
    pose proof (lookup_lt_Some _ _ _ Hp) as Hlt.
    assert (order ≡ₚ delete p l) as Hrest.
    { apply (Permutation_cons_inv (a:=y)).
      by rewrite Hperm, <- (delete_Permutation l p y Hp). }
    destruct (IH _ Hrest) as (ps & Hlen & Hw & Hpick).
    rewrite length_delete in Hlen, Hw by eauto.
    exists (p :: ps). destruct l as [|x l]; [done|].
    cbn [length pick_at positions_within] in *.
    split; [lia|]. split; [done|].
    by rewrite (nth_lookup_Some _ _ _ _ Hp), Hpick.
Qed.

(** ... and, when [l] has no repetitions, by these positions only. *)
Lemma pick_at_inj {A} (positions1 positions2 : list nat) (l : list A) :
  NoDup l →
  length positions1 = length l → positions_within positions1 (length l) →
  length positions2 = length l → positions_within positions2 (length l) →
  pick_at positions1 l = pick_at positions2 l →
  positions1 = positions2.
Proof.
  revert positions2 l.
  induction positions1 as [|p1 ps1 IH]; intros [|p2 ps2] l Hnd Hl1 Hw1 Hl2 Hw2 Heq;
    try done; try (simpl in *; congruence).
  destruct l as [|x l]; [done|].
  destruct Hw1 as [Hp1 Hw1], Hw2 as [Hp2 Hw2].
  destruct (lookup_lt_is_Some_2 (x :: l) p1 Hp1) as [y1 Hy1].
  destruct (lookup_lt_is_Some_2 (x :: l) p2 Hp2) as [y2 Hy2].
  cbn [pick_at] in Heq.
  rewrite (nth_lookup_Some _ _ _ _ Hy1), (nth_lookup_Some _ _ _ _ Hy2) in Heq.
  injection Heq as Hhead Htail. subst y2.
  assert (p1 = p2) as <- by (by eapply NoDup_lookup).
  f_equal.
  assert (length (delete p1 (x :: l)) = (length (x :: l) - 1)%nat) as Hdel.
  { rewrite length_delete by eauto. done. }
  apply (IH ps2 (delete p1 (x :: l))); rewrite ?Hdel; try done.
  - eapply sublist_NoDup; [done|apply sublist_delete].
  - cbn [length] in *. lia.
  - cbn [length] in *. lia.
Qed.

Lemma random_shuffle_pick_at {A} (l : list A) w :
  random_shuffle l w
  = (Ret (pick_at (shuffle_positions (length l) w) l),
     mkWorld (graph w) (draws w) (cursor w + length l) (stdout w)).
Proof. unfold random_shuffle. by rewrite picks_pick_at. Qed.

(** The shuffle is uniform: the order it returns determines the positions
    drawn, and every order is returned for some answers. *)
Lemma random_shuffle_uniform {A} (l : list A) :
  NoDup l →
  (∀ w1 w2,
     (random_shuffle l w1).1 = (random_shuffle l w2).1 ↔
     shuffle_positions (length l) w1 = shuffle_positions (length l) w2) ∧
  (∀ order g c out,
     order ≡ₚ l →
     ∃ answers,
       (random_shuffle l (mkWorld g answers c out)).1 = Ret order).
Proof.
  intros Hnd. split.
  - intros w1 w2. rewrite !random_shuffle_pick_at. cbn [fst]. split.
    + intros [= Heq]. unfold shuffle_positions in *.
      eapply pick_at_inj; [done| | | | |done];
        auto using length_positions_from, positions_from_within.
    + by intros ->.
  - intros order g c out Hperm.
    destruct (pick_at_surj order l Hperm) as (ps & Hlen & Hw & Hpick).
    exists (λ i, Z.of_nat (nth (i - c) ps 0%nat)).
    rewrite random_shuffle_pick_at. cbn [fst]. f_equal.
    unfold shuffle_positions. cbn [draws cursor]. rewrite <- Hlen.
    rewrite positions_from_answers; [done|]. by rewrite Hlen.
Qed.

(** C7. Let [G] be a NetworkX graph and [sample_size] a sample size (not
    negative).  [random_edge_sampling] returns (it never raises) the first
    [sample_size] entries of the list that [random.shuffle] made of the edge
    list of [G], and the whole of it when [G] has fewer edges.  Hence every
    returned pair is an edge of [G], no pair is returned twice, in either
    direction, and the length of the result is [min(sample_size, |E|)].
    The shuffle is uniform: the order of the shuffled list and the positions
    drawn for it determine each other, and every order of the edge list is
    the shuffled list for some answers of the environment. *)
Theorem random_edge_sampling_prefix_of_shuffle (sample_size : Z) (w : World Node) :
  wf_graph (graph w) → 0 ≤ sample_size →
  (∃ shuffled sampled_edges w',
     random_shuffle (edges (graph w)) w = (Ret shuffled, w') ∧
     random_edge_sampling sample_size w = (Ret sampled_edges, w') ∧
     shuffled ≡ₚ edges (graph w) ∧
     sampled_edges = take (Z.to_nat sample_size) shuffled ∧
     (number_of_edges (graph w) < sample_size → sampled_edges = shuffled) ∧
     (∀ e, e ∈ sampled_edges → e ∈ edges (graph w)) ∧
     NoDup sampled_edges ∧
     (∀ a b, (a, b) ∈ sampled_edges → (b, a) ∈ sampled_edges → a = b) ∧
     Z.of_nat (length sampled_edges)
       = Z.min sample_size (number_of_edges (graph w))) ∧
  (∀ w1 w2,
     (random_shuffle (edges (graph w)) w1).1
       = (random_shuffle (edges (graph w)) w2).1 ↔
     shuffle_positions (length (edges (graph w))) w1
       = shuffle_positions (length (edges (graph w))) w2) ∧
  (∀ order,
     order ≡ₚ edges (graph w) →
     ∃ answers,
       (random_edge_sampling sample_size
          (mkWorld (graph w) answers (cursor w) (stdout w))).1
       = Ret (take (Z.to_nat sample_size) order)).
Proof.
  intros Hwf Hk.
  pose proof (wf_graph_NoDup_edges _ Hwf) as Hnd.
  destruct (random_shuffle_uniform (edges (graph w)) Hnd) as [Hinj Hsurj].
  split; [|split; [done|]].
  - destruct (hoare_random_shuffle (graph w) (edges (graph w)) w eq_refl)
      as [_ Hperm].
    destruct (random_shuffle (edges (graph w)) w) as [[shuffled| |] w'] eqn:Hrun;
      try done.
    cbn [fst rets] in Hperm.
    exists shuffled, (take (Z.to_nat sample_size) shuffled), w'.
    assert (∀ e, e ∈ take (Z.to_nat sample_size) shuffled → e ∈ edges (graph w))
      as Hsub.
    { intros e He. rewrite <-Hperm. eapply elem_of_sublist; [done|apply sublist_take]. }
    split; [done|]. split.
    { unfold random_edge_sampling, bind, G_edges. rewrite Hrun.
      by rewrite slice_to_nonneg. }
    unfold number_of_edges. rewrite <-Hperm.
    split; [done|]. split; [done|]. split; [|split; [|split; [|split]]].
    + intros Hlt. apply take_ge. lia.
    + done.
    + eapply sublist_NoDup; [|apply sublist_take].
      rewrite Hperm. by apply wf_graph_NoDup_edges.
    + intros a b Hab Hba. apply Hsub in Hab, Hba. by eapply edges_from_one_direction.
    + rewrite length_take. lia.
  - intros order Hperm.
    destruct (Hsurj order (graph w) (cursor w) (stdout w) Hperm) as [answers Hrun].
    exists answers. unfold random_edge_sampling, bind, G_edges. cbn [graph].
    destruct (random_shuffle _ _) as [[l| |] w']; cbn [fst] in Hrun; try done.
    injection Hrun as ->. cbn [fst]. by rewrite slice_to_nonneg.
Qed.

(** ** degree_based_node_sampling (C6) *)

Lemma insert_desc_perm {A} (x : Z * A) l : insert_desc x l ≡ₚ x :: l.
Proof.
  induction l as [|y l IH]; simpl; [done|].
  case_decide; [|done]. by rewrite IH, Permutation_swap.
Qed.

Lemma sort_desc_perm {A} (l : list (Z * A)) : sort_desc l ≡ₚ l.
Proof.
  induction l as [|x l IH]; simpl; [done|].
  by rewrite insert_desc_perm, IH.
Qed.

Lemma insert_desc_sorted {A} (x : Z * A) l :
  StronglySorted (λ a b, b.1 ≤ a.1) l →
  StronglySorted (λ a b, b.1 ≤ a.1) (insert_desc x l).
Proof.
  induction l as [|y l IH]; simpl; intros Hl.
  - apply SSorted_cons; [done|apply Forall_nil_2].
  - apply StronglySorted_cons in Hl as [Hy Hl].
    case_decide as Hxy.
    + apply SSorted_cons; [by apply IH|].
      rewrite insert_desc_perm. apply Forall_cons. split; [lia|done].
    + apply SSorted_cons; [by apply SSorted_cons|].
      apply Forall_cons. split; [lia|].
      eapply Forall_impl; [done|]. simpl. intros z Hz. lia.
Qed.

Lemma sort_desc_sorted {A} (l : list (Z * A)) :
  StronglySorted (λ a b, b.1 ≤ a.1) (sort_desc l).
Proof.
  induction l as [|x l IH]; simpl; [apply SSorted_nil|].
  by apply insert_desc_sorted.
Qed.

Lemma StronglySorted_mono {A} (R R' : relation A) (l : list A) :
  (∀ a b, R a b → R' a b) → StronglySorted R l → StronglySorted R' l.
Proof.
  intros HR Hl. induction Hl as [|a l _ IH Hal]; [apply SSorted_nil|].
  apply SSorted_cons; [done|]. eapply Forall_impl; [done|]. apply HR.
Qed.

Lemma sorted_by_key {A} (f : A → Z) (l : list (Z * A)) :
  Forall (λ p, p.1 = f p.2) l →
  StronglySorted (λ a b, b.1 ≤ a.1) l →
  StronglySorted (λ a b, f b ≤ f a) (l.*2).
Proof.
  induction l as [|x l IH]; simpl; intros Hkeys Hl; [apply SSorted_nil|].
  apply Forall_cons in Hkeys as [Hx Hkeys].
  apply StronglySorted_cons in Hl as [Hxl Hl].
  apply SSorted_cons; [by apply IH|].
  apply Forall_fmap. rewrite Forall_forall in Hxl, Hkeys |- *.
  intros y Hy. simpl. rewrite <-Hx, <-(Hkeys y Hy). by apply Hxl.
Qed.

Lemma hoare_with_keys_degree G (xs : list Node) :
  (∀ x, x ∈ xs → x ∈ nodes G) →
  hoare G (with_keys G_degree xs)
    (rets (λ keyed, keyed = (λ x, (default 0 (degree G x), x)) <$> xs)).
Proof.
  induction xs as [|x xs IH]; intros Hxs; simpl; [by apply hoare_ret|].
  destruct (degree_is_Some G x) as [d Hd]; [apply Hxs; left|].
  eapply hoare_bind; [by apply hoare_G_degree|]. intros ? ->.
  eapply hoare_bind; [apply IH; intros y Hy; apply Hxs; by right|].
  intros ? ->. apply hoare_ret. cbn [rets]. by rewrite Hd.
Qed.

Lemma hoare_sorted_by_degree G (xs : list Node) :
  (∀ x, x ∈ xs → x ∈ nodes G) →
  hoare G (sorted_by_key_reverse G_degree xs)
    (rets (λ sorted, sorted ≡ₚ xs ∧ StronglySorted (degree_ge G) sorted)).
Proof.
  intros Hxs. unfold sorted_by_key_reverse.
  eapply hoare_bind; [by apply hoare_with_keys_degree|]. intros ? ->.
  apply hoare_ret. cbn [rets].
  set (keyed := (λ x, (default 0 (degree G x), x)) <$> xs).
  assert (keyed.*2 = xs) as Hsnd.
  { unfold keyed. rewrite <-list_fmap_compose. apply list_fmap_id. }
  split; [by rewrite sort_desc_perm, Hsnd|].
  eapply StronglySorted_mono;
    [|apply (sorted_by_key (λ x, default 0 (degree G x)));
      [|apply sort_desc_sorted]].
  - intros a b Hab da db Ha Hb. simpl in Hab. by rewrite Ha, Hb in Hab.
  - rewrite sort_desc_perm. unfold keyed. by apply Forall_fmap, Forall_true.
Qed.

Lemma hoare_degree_based_node_sampling G sample_size :
  hoare G (degree_based_node_sampling sample_size)
    (rets (λ sampled_nodes,
             ∃ sorted i, sorted ≡ₚ nodes G ∧
                         StronglySorted (degree_ge G) sorted ∧
                         sampled_nodes = take i sorted ∧
                         (0 ≤ sample_size → i = Z.to_nat sample_size))).
Proof.
  unfold degree_based_node_sampling.
  eapply hoare_bind; [apply hoare_G_nodes|]. intros ? ->.
  eapply hoare_bind; [by apply hoare_sorted_by_degree|]. intros sorted [Hperm Hsorted].
  apply hoare_ret. cbn [rets]. exists sorted.
  unfold slice_to. case_decide; eexists; (split; [done|]); (split; [done|]);
    (split; [done|]); [done|lia].
Qed.

(** C6, as the code has it.  Let [G] be a NetworkX graph and [sample_size]
    any integer.  [degree_based_node_sampling] returns a list of nodes of
    [G], no node twice, whose degrees are non-increasing in the order
    returned, and every node of [G] that is not returned has a degree less
    than or equal to the degree of every node returned.  When [sample_size]
    is not negative the list has [min(sample_size, |V|)] entries: [sample_size]
    nodes when [G] has that many, and all nodes of [G] otherwise. *)
Theorem degree_based_sampling_top_by_degree (sample_size : Z) (w : World Node) :
  wf_graph (graph w) →
  ∃ sampled_nodes w',
    degree_based_node_sampling sample_size w = (Ret sampled_nodes, w') ∧
    (0 ≤ sample_size →
     Z.of_nat (length sampled_nodes) =
     Z.min sample_size (number_of_nodes (graph w))) ∧
    NoDup sampled_nodes ∧
    (∀ n, n ∈ sampled_nodes → n ∈ nodes (graph w)) ∧
    StronglySorted (degree_ge (graph w)) sampled_nodes ∧
    (∀ n m, n ∈ nodes (graph w) → n ∉ sampled_nodes → m ∈ sampled_nodes →
            degree_ge (graph w) m n).
Proof.
  intros Hwf.
  destruct (hoare_degree_based_node_sampling (graph w) sample_size w eq_refl)
    as [_ Hr].
  destruct (degree_based_node_sampling sample_size w) as [[l| |] w']; try done.
  destruct Hr as (sorted & i & Hperm & Hsorted & -> & Hi).
  exists (take i sorted), w'. split; [done|].
  assert (length sorted = length (graph w)) as Hlen.
  { rewrite Hperm. unfold nodes. by rewrite length_fmap. }
  split; [|split; [|split; [|split]]].
  - intros Hk. rewrite length_take, Hi, Hlen by done. unfold number_of_nodes. lia.
  - eapply sublist_NoDup; [|apply sublist_take].
    rewrite Hperm. by apply wf_graph_NoDup_nodes.
  - intros n Hn. rewrite <-Hperm. eapply elem_of_sublist; [done|apply sublist_take].
  - rewrite <-(take_drop i sorted) in Hsorted.
    by apply StronglySorted_app_1_l in Hsorted.
  - intros n m Hn Hnot Hm. rewrite <-Hperm, <-(take_drop i sorted) in Hn.
    apply elem_of_app in Hn as [Hn|Hn]; [done|].
    rewrite <-(take_drop i sorted) in Hsorted.
    by eapply StronglySorted_app_1_elem_of.
Qed.

(** ** induced_edge_sampling (C8) *)

(** Each adjacency entry is reported by the edge view, from one end or from
    the other. *)
Lemma edges_from_either seen g a b la lb :
  NoDup (nodes g) → (a, la) ∈ g → (b, lb) ∈ g → b ∈ la → a ∈ lb →
  a ∉ seen → b ∉ seen →
  (a, b) ∈ edges_from seen g ∨ (b, a) ∈ edges_from seen g.
Proof.
  revert seen. induction g as [|[n l] g IH]; intros seen.
  - by intros _ ?%elem_of_nil.
  - unfold nodes in *. cbn [fmap list_fmap fst edges_from].
    rewrite NoDup_cons, !elem_of_cons, !elem_of_app.
    intros [Hn Hnd] Ha Hb Hbla Halb Has Hbs.
    assert (∀ x lx, (x, lx) ∈ g → x ≠ n) as Hne.
    { intros x lx Hx ->. apply Hn. apply list_elem_of_fmap. by exists (n, lx). }
    destruct Ha as [[= -> ->]|Ha].
    { left; left. apply list_elem_of_fmap. exists b. split; [done|].
      by apply list_elem_of_filter. }
    destruct Hb as [[= -> ->]|Hb].
    { right; left. apply list_elem_of_fmap. exists a. split; [done|].
      by apply list_elem_of_filter. }
    destruct (IH (n :: seen)) as [?|?]; try done; [| |by left; right|by right; right].
    + rewrite not_elem_of_cons. split; [by eapply Hne|done].
    + rewrite not_elem_of_cons. split; [by eapply Hne|done].
Qed.

Lemma adjacent_edges g a b :
  wf_graph g → adjacent g a b → (a, b) ∈ edges g ∨ (b, a) ∈ edges g.
Proof.
  intros Hwf Hab. pose proof (wf_graph_sym g a b Hwf Hab) as Hba.
  unfold adjacent in Hab, Hba.
  destruct (adj g a) as [la|] eqn:Hla; [|done].
  destruct (adj g b) as [lb|] eqn:Hlb; [|done].
  eapply edges_from_either; try done; try apply not_elem_of_nil.
  - by apply wf_graph_NoDup_nodes.
  - by apply adj_Some_elem.
  - by apply adj_Some_elem.
Qed.

(** A duplicate-free list of (node, neighbour) pairs has at most [2|E|]
    entries. *)
Lemma arcs_bound g (l : list (Edge Node)) :
  wf_graph g → NoDup l → (∀ a b, (a, b) ∈ l → adjacent g a b) →
  (length l ≤ 2 * length (edges g))%nat.
Proof.
  intros Hwf Hnd Hall.
  assert (l ⊆+ edges g ++ ((λ e, (e.2, e.1)) <$> edges g)) as Hsub.
  { apply NoDup_submseteq; [done|]. intros [a b] Hab.
    apply elem_of_app.
    destruct (adjacent_edges g a b Hwf (Hall a b Hab)) as [?|?]; [by left|].
    right. apply list_elem_of_fmap. exists (b, a). split; [reflexivity|assumption]. }
  apply submseteq_length in Hsub. rewrite length_app, length_fmap in Hsub.
  unfold Edge in *. lia.
Qed.

Lemma induced_emit_spec sample_size node (neighbors : list Node)
    (sampled_edges : list (Edge Node)) :
  ∃ emitted rest,
    neighbors = emitted ++ rest ∧
    iter_value (induced_emit sample_size node neighbors sampled_edges) =
      sampled_edges ++ ((λ m, (node, m)) <$> emitted) ∧
    match induced_emit sample_size node neighbors sampled_edges with
    | Continue _ => rest = []
    | Break r => rest ≠ [] ∧ sample_size ≤ Z.of_nat (length r)
    end ∧
    (emitted ≠ [] →
     Z.of_nat (length (sampled_edges ++ ((λ m, (node, m)) <$> emitted)))
       ≤ sample_size).
Proof.
  revert sampled_edges. induction neighbors as [|nb rest IH]; intros acc; simpl.
  - exists [], []. simpl. by rewrite app_nil_r.
  - case_decide as Hlt.
    + destruct (IH (acc ++ [(node, nb)])) as (emitted & rest' & -> & Hval & Hr & Hlen).
      exists (nb :: emitted), rest'. split; [done|].
      rewrite Hval. simpl. rewrite <-app_assoc. simpl. split; [done|].
      split; [done|]. intros _. destruct emitted as [|m emitted].
      * simpl. rewrite length_app. simpl. lia.
      * specialize (Hlen ltac:(done)). by rewrite <-app_assoc in Hlen.
    + exists [], (nb :: rest). simpl. rewrite app_nil_r.
      split; [done|]. split; [done|]. split; [|done]. split; [done|lia].
Qed.

Lemma hoare_induced_scan G sample_size (ns : list Node) (acc : list (Edge Node)) :
  wf_graph G → NoDup ns → (∀ n, n ∈ ns → n ∈ nodes G) →
  NoDup acc → (∀ a b, (a, b) ∈ acc → adjacent G a b ∧ a ∉ ns) →
  hoare G (induced_scan sample_size ns acc)
    (rets (λ r,
       NoDup r ∧
       (∀ a b, (a, b) ∈ r → adjacent G a b) ∧
       Z.of_nat (length r) ≤ Z.max sample_size (Z.of_nat (length acc)) ∧
       (∀ e, e ∈ acc → e ∈ r) ∧
       (2 * number_of_edges G ≤ sample_size →
        ∀ a b, a ∈ ns → adjacent G a b → (a, b) ∈ r))).
Proof.
  intros Hwf. revert acc. induction ns as [|node rest IH]; intros acc Hns HnsG Hacc Harcs.
  { apply hoare_ret. cbn [rets]. split; [done|]. split; [intros a b Hab; by apply Harcs|].
    split; [lia|]. split; [done|]. by intros _ a b ?%elem_of_nil. }
  apply NoDup_cons in Hns as [Hnode Hrest]. cbn [induced_scan].
  destruct (proj2 (adj_is_Some G node)) as [nbrs Hadj]; [apply HnsG; left|].
  eapply hoare_bind; [by apply hoare_G_neighbors|]. intros ? ->.
  eapply hoare_bind; [apply hoare_random_shuffle|]. intros shuffled Hperm.
  assert (NoDup shuffled) as Hshuffled.
  { rewrite Hperm. by eapply wf_graph_NoDup_adj. }
  assert (∀ b, b ∈ shuffled ↔ adjacent G node b) as Hnbrs.
  { intros b. unfold adjacent. by rewrite Hadj, Hperm. }
  destruct (induced_emit_spec sample_size node shuffled acc)
    as (emitted & rest' & Hsplit & Hval & Hcase & Hlen).
  set (acc' := acc ++ ((λ m, (node, m)) <$> emitted)) in *.
  assert (NoDup acc') as Hacc'.
  { apply NoDup_app. split; [done|]. split.
    - intros [a b] Hab Hab'. apply list_elem_of_fmap in Hab' as (m & [= -> ->] & _).
      destruct (Harcs _ _ Hab) as [_ Hna]. apply Hna. left.
    - apply NoDup_fmap_2; [by intros ?? [= ->]|].
      rewrite Hsplit in Hshuffled. by apply NoDup_app in Hshuffled as [? _]. }
  assert (∀ a b, (a, b) ∈ acc' → adjacent G a b ∧ a ∉ rest) as Harcs'.
  { intros a b [Hab|Hab]%elem_of_app.
    - destruct (Harcs _ _ Hab) as [? Hna]. split; [done|].
      rewrite not_elem_of_cons in Hna. by destruct Hna.
    - apply list_elem_of_fmap in Hab as (m & [= -> ->] & Hm). split; [|done].
      apply Hnbrs. rewrite Hsplit, elem_of_app. by left. }
  assert (Z.max sample_size (Z.of_nat (length acc'))
            ≤ Z.max sample_size (Z.of_nat (length acc))) as Hmax.
  { destruct emitted as [|m emitted]; [unfold acc'; simpl; rewrite app_nil_r; lia|].
    specialize (Hlen ltac:(done)). fold acc' in Hlen. lia. }
  destruct (induced_emit sample_size node shuffled acc) as [acc''|r]; simpl in Hval.
  - subst acc'' rest'. rewrite app_nil_r in Hsplit. subst emitted.
    eapply hoare_mono; [apply IH; try done; intros n Hn; apply HnsG; by right|].
    intros o. apply rets_mono. intros r (Hr & Hadjr & Hlenr & Hsub & Hall).
    split; [done|]. split; [done|]. split; [lia|].
    split; [intros e He; apply Hsub, elem_of_app; by left|].
    intros Hk a b [->|Ha]%elem_of_cons Hab; [|by apply Hall].
    apply Hsub, elem_of_app. right. apply list_elem_of_fmap.
    exists b. split; [done|]. by apply Hnbrs.
  - subst r. destruct Hcase as [Hrest' Hfull]. apply hoare_ret. cbn [rets].
    split; [done|]. split; [intros a b Hab; by apply Harcs'|].
    split; [|split; [intros e He; apply elem_of_app; by left|]].
    { destruct emitted as [|m emitted];
        [unfold acc'; simpl; rewrite app_nil_r; lia|].
      specialize (Hlen ltac:(done)). fold acc' in Hlen. lia. }
    intros Hk. exfalso. destruct rest' as [|nb rest']; [done|].
    assert (length (acc' ++ [(node, nb)]) ≤ 2 * length (edges G))%nat as Hbound.
    { apply arcs_bound; [done| |].
      - apply NoDup_app. split; [done|]. split; [|apply NoDup_singleton].
        intros [a b] Hab [= -> ->]%list_elem_of_singleton.
        apply elem_of_app in Hab as [Hab|Hab].
        + destruct (Harcs _ _ Hab) as [_ Hna]. apply Hna. left.
        + apply list_elem_of_fmap in Hab as (m & [= <-] & Hm).
          rewrite Hsplit in Hshuffled. apply NoDup_app in Hshuffled as (_ & Hdisj & _).
          apply (Hdisj nb Hm). left.
      - intros a b [Hab|[= -> ->]%list_elem_of_singleton]%elem_of_app;
          [by apply Harcs'|].
        apply Hnbrs. rewrite Hsplit, elem_of_app. right. left. }
    rewrite length_app in Hbound. simpl in Hbound.
    unfold number_of_edges in Hk. unfold Edge in *. lia.
Qed.

(** C8. Let [G] be a NetworkX graph and [sample_size] a sample size (not
    negative).  [induced_edge_sampling] returns a list of pairs [(u, v)]
    with [v] a neighbour of [u] in [G], of length at most
    [min(sample_size, 2|E|)].  Nothing removes the second report of an
    edge: when the quota leaves room (it is at least [2|E|]), every edge
    of [G] is in the list from both of its ends, as [(u, v)] and as
    [(v, u)]. *)
Theorem induced_edge_sampling_pairs_and_bound (sample_size : Z) (w : World Node) :
  wf_graph (graph w) → 0 ≤ sample_size →
  ∃ sampled_edges w',
    induced_edge_sampling sample_size w = (Ret sampled_edges, w') ∧
    (∀ u v, (u, v) ∈ sampled_edges → adjacent (graph w) u v) ∧
    Z.of_nat (length sampled_edges)
      ≤ Z.min sample_size (2 * number_of_edges (graph w)) ∧
    (2 * number_of_edges (graph w) ≤ sample_size →
     ∀ u v, adjacent (graph w) u v →
            (u, v) ∈ sampled_edges ∧ (v, u) ∈ sampled_edges).
Proof.
  intros Hwf Hk.
  assert (hoare (graph w) (induced_edge_sampling sample_size)
            (rets (λ r,
               NoDup r ∧
               (∀ a b, (a, b) ∈ r → adjacent (graph w) a b) ∧
               Z.of_nat (length r) ≤ sample_size ∧
               (2 * number_of_edges (graph w) ≤ sample_size →
                ∀ a b, adjacent (graph w) a b → (a, b) ∈ r)))) as Hspec.
  { unfold induced_edge_sampling.
    eapply hoare_bind; [apply hoare_G_nodes|]. intros ? ->.
    eapply hoare_bind; [apply hoare_random_shuffle|]. intros ns Hperm.
    eapply hoare_mono.
    - apply (hoare_induced_scan (graph w) sample_size ns []); try done.
      + rewrite Hperm. by apply wf_graph_NoDup_nodes.
      + intros n. by rewrite Hperm.
      + apply NoDup_nil_2.
      + by intros a b ?%elem_of_nil.
    - intros o. apply rets_mono. intros r (Hr & Hadj & Hlen & _ & Hall).
      split; [done|]. split; [done|]. split; [simpl in Hlen; lia|].
      intros Hfull a b Hab. apply Hall; [done| |done].
      rewrite Hperm. by eapply adjacent_node_l. }
  destruct (Hspec w eq_refl) as [_ Hr].
  destruct (induced_edge_sampling sample_size w) as [[l| |] w']; try done.
  destruct Hr as (Hnd & Hadj & Hlen & Hall).
  exists l, w'. split; [done|]. split; [done|]. split.
  - pose proof (arcs_bound (graph w) l Hwf Hnd Hadj). unfold number_of_edges.
    unfold Edge in *. lia.
  - intros Hfull u v Huv. split; apply Hall; try done. by apply wf_graph_sym.
Qed.

(** ** Python sets *)

Lemma NoDup_set_add (s : PySet Node) x : NoDup s → NoDup (set_add s x).
Proof.
  intros Hs. unfold set_add. case_decide as Hx; [done|].
  apply NoDup_app. split; [done|]. split; [|apply NoDup_singleton].
  by intros y Hy ->%list_elem_of_singleton.
Qed.

Lemma set_len_add (s : PySet Node) x :
  set_len (set_add s x) = set_len s + (if decide (x ∈ s) then 0 else 1).
Proof.
  unfold set_len, set_add. case_decide; [lia|].
  rewrite length_app. simpl. lia.
Qed.

Lemma elem_of_foldl_set_add (s : PySet Node) (l : list Node) x :
  x ∈ foldl set_add s l ↔ x ∈ s ∨ x ∈ l.
Proof.
  revert s. induction l as [|y l IH]; intros s; simpl.
  - split; [by left|]. by intros [?|?%elem_of_nil].
  - rewrite IH, elem_of_set_add, elem_of_cons. naive_solver.
Qed.

Lemma elem_of_set_of (l : list Node) x : x ∈ set_of l ↔ x ∈ l.
Proof.
  unfold set_of. rewrite elem_of_foldl_set_add.
  split; [by intros [?%elem_of_nil|?]|by right].
Qed.

Lemma NoDup_set_of (l : list Node) : NoDup (set_of l).
Proof.
  unfold set_of. generalize (NoDup_nil_2 (A:=Node)). generalize (@nil Node).
  induction l as [|y l IH]; intros s Hs; simpl; [done|].
  by apply IH, NoDup_set_add.
Qed.

(** ** Reachability *)

Lemma reachable_from_initial G (initial : list Node) n :
  n ∈ initial → reachable_from G initial n.
Proof. intros Hn. by exists n. Qed.

Lemma reachable_from_step G (initial : list Node) n m :
  reachable_from G initial n → adjacent G n m → reachable_from G initial m.
Proof. intros (i & Hi & Hpath) Hnm. exists i. split; [done|]. by eapply rtc_r. Qed.

Lemma reachable_from_node G (initial : list Node) n :
  wf_graph G → (∀ i, i ∈ initial → i ∈ nodes G) →
  reachable_from G initial n → n ∈ nodes G.
Proof.
  intros Hwf Hinit (i & Hi & Hpath). eapply rtc_adjacent_node; [done| |done].
  by apply Hinit.
Qed.

(** ** depth_first_sampling and breadth_first_sampling (C3) *)

Lemma elem_of_dfs_push sample_size (sampled_nodes : PySet Node)
    (neighbors stack : list Node) x :
  x ∈ dfs_push sample_size sampled_nodes neighbors stack →
  x ∈ stack ∨ x ∈ neighbors.
Proof.
  unfold dfs_push. revert stack.
  induction neighbors as [|nb neighbors IH]; intros stack; simpl; [by left|].
  intros [Hx|Hx]%IH; [|by right; right].
  case_decide; [|by left].
  apply elem_of_app in Hx as [?| ->%list_elem_of_singleton]; [by left|by right; left].
Qed.

Lemma hoare_dfs_body G (initial_node : Node) sample_size st :
  wf_graph G → initial_node ∈ nodes G →
  frontier_inv G [initial_node] (Z.max 0 sample_size) st →
  hoare G (dfs_body sample_size st)
    (rets (λ r, match r with
                | Continue st' =>
                    frontier_inv G [initial_node] (Z.max 0 sample_size) st'
                | Break sampled_nodes =>
                    frontier_inv G [initial_node] (Z.max 0 sample_size)
                      (sampled_nodes, [])
                end)).
Proof.
  intros Hwf Hinit (Hnd & Hsampled & Hstack & Hlen).
  assert (frontier_inv G [initial_node] (Z.max 0 sample_size) (st.1, [])) as Hbreak.
  { split; [done|]. split; [done|]. split; [|done]. by intros n ?%elem_of_nil. }
  unfold dfs_body. destruct (pop st.2) as [[stack node]|] eqn:Hpop;
    [|by apply hoare_ret].
  apply pop_Some in Hpop. case_decide as Hlt; [|by apply hoare_ret].
  assert (∀ n, n ∈ stack → reachable_from G [initial_node] n) as Hstack'.
  { intros n Hn. apply Hstack. rewrite Hpop, elem_of_app. by left. }
  assert (reachable_from G [initial_node] node) as Hnode.
  { apply Hstack. rewrite Hpop, elem_of_app. right. left. }
  case_decide as Hin; [by apply hoare_ret|].
  destruct (proj2 (adj_is_Some G node)) as [nbrs Hadj].
  { eapply reachable_from_node; [done| |done].
    by intros i ->%list_elem_of_singleton. }
  eapply hoare_bind; [by apply hoare_G_neighbors|]. intros ? ->.
  eapply hoare_bind; [apply hoare_random_shuffle|]. intros shuffled Hperm.
  apply hoare_ret. cbn [rets]. split; [by apply NoDup_set_add|]. simpl.
  split; [|split].
  - intros n [Hn| ->]%elem_of_set_add; [by apply Hsampled|done].
  - intros n [Hn|Hn]%elem_of_dfs_push; [by apply Hstack'|].
    eapply reachable_from_step; [done|]. unfold adjacent. by rewrite Hadj, <-Hperm.
  - rewrite set_len_add, decide_False by done. lia.
Qed.

Lemma bfs_admit_inv G (initial : list Node) sample_size node neighbors st :
  reachable_from G initial node →
  (∀ n, n ∈ neighbors → adjacent G node n) →
  frontier_inv G initial sample_size st → set_len st.1 < sample_size →
  frontier_inv G initial sample_size (bfs_admit sample_size neighbors st).
Proof.
  intros Hnode. revert st.
  induction neighbors as [|nb neighbors IH]; intros st Hnbrs Hinv Hlt; simpl; [done|].
  pose proof Hinv as (Hnd & Hsampled & Hqueue & Hlen).
  assert (reachable_from G initial nb) as Hnb.
  { eapply reachable_from_step; [done|]. apply Hnbrs. left. }
  assert (∀ n, n ∈ neighbors → adjacent G node n) as Hnbrs'.
  { intros n Hn. apply Hnbrs. by right. }
  case_decide as Hin; [by apply IH|].
  assert (frontier_inv G initial sample_size (set_add st.1 nb, st.2 ++ [nb])) as Hinv'.
  { split; [by apply NoDup_set_add|]. simpl. split; [|split].
    - intros n [Hn| ->]%elem_of_set_add; [by apply Hsampled|done].
    - intros n [Hn| ->%list_elem_of_singleton]%elem_of_app; [by apply Hqueue|done].
    - rewrite set_len_add, decide_False by done. lia. }
  case_decide as Hfull; [done|]. apply IH; [done|done|simpl; lia].
Qed.

Lemma frontier_inv_mono G (initial : list Node) bound bound' st :
  bound ≤ bound' → frontier_inv G initial bound st → frontier_inv G initial bound' st.
Proof. intros Hb (? & ? & ? & ?). repeat split; try done. lia. Qed.

Lemma hoare_bfs_body G (initial_nodes : list Node) sample_size st :
  wf_graph G → (∀ i, i ∈ initial_nodes → i ∈ nodes G) →
  frontier_inv G initial_nodes
    (Z.max sample_size (set_len (set_of initial_nodes))) st →
  hoare G (bfs_body sample_size st)
    (rets (λ r, match r with
                | Continue st' =>
                    frontier_inv G initial_nodes
                      (Z.max sample_size (set_len (set_of initial_nodes))) st'
                | Break sampled_nodes =>
                    frontier_inv G initial_nodes
                      (Z.max sample_size (set_len (set_of initial_nodes)))
                      (sampled_nodes, [])
                end)).
Proof.
  intros Hwf Hinit Hinv. pose proof Hinv as (Hnd & Hsampled & Hqueue & Hlen).
  set (bound := Z.max sample_size (set_len (set_of initial_nodes))) in *.
  assert (frontier_inv G initial_nodes bound (st.1, [])) as Hbreak.
  { split; [done|]. split; [done|]. split; [|done]. by intros n ?%elem_of_nil. }
  unfold bfs_body. destruct st as [sampled [|node queue]]; simpl in *;
    [by apply hoare_ret|].
  case_decide as Hlt; [|by apply hoare_ret].
  assert (reachable_from G initial_nodes node) as Hnode by (apply Hqueue; left).
  destruct (proj2 (adj_is_Some G node)) as [nbrs Hadj].
  { by eapply reachable_from_node. }
  eapply hoare_bind; [by apply hoare_G_neighbors|]. intros ? ->.
  eapply hoare_bind; [apply hoare_random_shuffle|]. intros shuffled Hperm.
  apply hoare_ret. cbn [rets].
  apply (frontier_inv_mono G initial_nodes sample_size); [lia|].
  apply (bfs_admit_inv G initial_nodes sample_size node); [done| | |done].
  - intros n Hn. unfold adjacent. by rewrite Hadj, <-Hperm.
  - split; [done|]. split; [done|]. simpl. split; [|lia].
    intros n Hn. apply Hqueue. by right.
Qed.

(** ** Termination of the two frontier samplers *)

Lemma hoare_while_total {S R} G (body : S → Py (Iter S R)) (I : S → Prop)
    (P : R → Prop) (measure : S → nat) :
  (∀ st, I st →
     hoare G (body st)
       (rets (λ r, match r with
                   | Continue st' => I st' ∧ (measure st' < measure st)%nat
                   | Break r => P r
                   end))) →
  ∀ fuel st, I st → (measure st < fuel)%nat → hoare G (while body fuel st) (rets P).
Proof.
  intros Hbody fuel. induction fuel as [|fuel IH]; intros st Hst Hfuel; [lia|].
  simpl. eapply hoare_bind; [by apply Hbody|].
  intros [st'|r] Hr; [|by apply hoare_ret].
  destruct Hr as [Hst' Hlt]. apply IH; [done|lia].
Qed.

Lemma length_dfs_push sample_size (sampled_nodes : PySet Node)
    (neighbors stack : list Node) :
  (length (dfs_push sample_size sampled_nodes neighbors stack)
   ≤ length stack + length neighbors)%nat.
Proof.
  unfold dfs_push. revert stack.
  induction neighbors as [|nb neighbors IH]; intros stack; simpl; [lia|].
  etrans; [apply IH|]. case_decide; [rewrite length_app; simpl|]; lia.
Qed.

Lemma unvisited_weight_mono g (s : PySet Node) x :
  (unvisited_weight (set_add s x) g ≤ unvisited_weight s g)%nat.
Proof.
  induction g as [|[m l] g IH]; simpl; [lia|].
  destruct (decide (m ∈ set_add s x)) as [Hin|Hnin];
    destruct (decide (m ∈ s)) as [Hin'|Hnin']; [lia|lia| |lia].
  exfalso. apply Hnin, elem_of_set_add. by left.
Qed.

Lemma unvisited_weight_visit g (s : PySet Node) x l :
  adj g x = Some l → x ∉ s →
  (unvisited_weight (set_add s x) g + length l ≤ unvisited_weight s g)%nat.
Proof.
  intros Hadj Hx. induction g as [|[m l'] g IH]; [done|].
  simpl in Hadj |- *.
  destruct (decide (m = x)) as [->|Hmx].
  - injection Hadj as ->.
    rewrite (decide_True (P:=x ∈ set_add s x)) by (apply elem_of_set_add; by right).
    rewrite (decide_False (P:=x ∈ s)) by done.
    pose proof (unvisited_weight_mono g s x). lia.
  - specialize (IH Hadj).
    destruct (decide (m ∈ set_add s x)) as [Hin|Hnin];
      destruct (decide (m ∈ s)) as [Hin'|Hnin']; [lia| | |lia].
    + apply elem_of_set_add in Hin as [?|?]; done.
    + exfalso. apply Hnin, elem_of_set_add. by left.
Qed.

Lemma hoare_dfs_body_total G (initial_node : Node) sample_size st :
  wf_graph G → initial_node ∈ nodes G →
  frontier_inv G [initial_node] (Z.max 0 sample_size) st →
  hoare G (dfs_body sample_size st)
    (rets (λ r, match r with
                | Continue st' =>
                    frontier_inv G [initial_node] (Z.max 0 sample_size) st' ∧
                    (dfs_measure G st' < dfs_measure G st)%nat
                | Break sampled_nodes =>
                    frontier_inv G [initial_node] (Z.max 0 sample_size)
                      (sampled_nodes, [])
                end)).
Proof.
  intros Hwf Hinit Hinv w Hw.
  destruct (hoare_dfs_body G initial_node sample_size st Hwf Hinit Hinv w Hw)
    as [Hg Hr].
  split; [done|]. revert Hr. unfold dfs_body, dfs_measure.
  destruct Hinv as (_ & _ & Hstack & _).
  destruct (pop st.2) as [[stack node]|] eqn:Hpop; [|done].
  apply pop_Some in Hpop. case_decide as Hlt; [|done].
  case_decide as Hin.
  { simpl. intros Hinv'. split; [done|]. rewrite Hpop, length_app. simpl. lia. }
  destruct (proj2 (adj_is_Some G node)) as [nbrs Hadj].
  { eapply (reachable_from_node G [initial_node]); [done| |].
    - by intros i ->%list_elem_of_singleton.
    - apply Hstack. rewrite Hpop, elem_of_app. right. left. }
  unfold bind, G_neighbors. rewrite Hw, Hadj.
  destruct (hoare_random_shuffle G nbrs w Hw) as [_ Hperm].
  destruct (random_shuffle nbrs w) as [[shuffled| |] w1]; try done.
  simpl in Hperm |- *. intros Hinv'. split; [done|].
  pose proof (length_dfs_push sample_size (set_add st.1 node) shuffled stack).
  pose proof (unvisited_weight_visit G st.1 node nbrs Hadj Hin).
  apply Permutation_length in Hperm. rewrite Hpop, length_app. simpl. lia.
Qed.

Lemma bfs_admit_lengths sample_size (neighbors : list Node) st :
  (length (bfs_admit sample_size neighbors st).2 + length st.1
   = length st.2 + length (bfs_admit sample_size neighbors st).1)%nat.
Proof.
  revert st. induction neighbors as [|nb neighbors IH]; intros st; simpl; [lia|].
  case_decide as Hin; [apply IH|].
  assert (length (set_add st.1 nb) = S (length st.1)) as Hadd.
  { unfold set_add. rewrite decide_False by done. rewrite length_app. simpl. lia. }
  case_decide; simpl.
  - rewrite length_app, Hadd. simpl. lia.
  - pose proof (IH (set_add st.1 nb, st.2 ++ [nb])) as IH'. simpl in IH'.
    rewrite length_app, Hadd in IH'. simpl in IH'. lia.
Qed.

Lemma frontier_inv_length G (initial : list Node) bound st :
  wf_graph G → (∀ i, i ∈ initial → i ∈ nodes G) →
  frontier_inv G initial bound st → (length st.1 ≤ length G)%nat.
Proof.
  intros Hwf Hinit (Hnd & Hreach & _).
  assert (st.1 ⊆+ nodes G) as Hsub.
  { apply NoDup_submseteq; [done|]. intros n Hn.
    eapply reachable_from_node; [done..|]. by apply Hreach. }
  apply submseteq_length in Hsub. unfold nodes in Hsub.
  by rewrite length_fmap in Hsub.
Qed.

Lemma hoare_bfs_body_total G (initial_nodes : list Node) sample_size st :
  wf_graph G → (∀ i, i ∈ initial_nodes → i ∈ nodes G) →
  frontier_inv G initial_nodes
    (Z.max sample_size (set_len (set_of initial_nodes))) st →
  hoare G (bfs_body sample_size st)
    (rets (λ r, match r with
                | Continue st' =>
                    frontier_inv G initial_nodes
                      (Z.max sample_size (set_len (set_of initial_nodes))) st' ∧
                    (bfs_measure G st' < bfs_measure G st)%nat
                | Break sampled_nodes =>
                    frontier_inv G initial_nodes
                      (Z.max sample_size (set_len (set_of initial_nodes)))
                      (sampled_nodes, [])
                end)).
Proof.
  intros Hwf Hinit Hinv w Hw.
  destruct (hoare_bfs_body G initial_nodes sample_size st Hwf Hinit Hinv w Hw)
    as [Hg Hr].
  split; [done|]. revert Hr. unfold bfs_body, bfs_measure.
  destruct st as [sampled [|node queue]]; [done|]. cbn [fst snd].
  case_decide as Hlt; [|done].
  unfold bind, G_neighbors. destruct (adj (graph w) node) as [nbrs|]; [|done].
  destruct (random_shuffle nbrs w) as [[shuffled| |] w1]; try done.
  cbn [rets ret fst snd]. intros Hinv'. split; [done|].
  pose proof (bfs_admit_lengths sample_size shuffled (sampled, queue)) as Hlen.
  pose proof (frontier_inv_length G initial_nodes _ _ Hwf Hinit Hinv').
  simpl in *. lia.
Qed.

Lemma hoare_while_fuel {S R} G (body : S → Py (Iter S R)) (I : S → Prop)
    (P : R → Prop) (measure : S → nat) :
  (∀ st, I st →
     hoare G (body st)
       (rets (λ r, match r with
                   | Continue st' => I st' ∧ (measure st' < measure st)%nat
                   | Break r => P r
                   end))) →
  ∀ fuel st, I st →
    hoare G (while body fuel st)
      (λ o, match o with
            | Ret r => P r
            | Raise _ => False
            | OutOfFuel => (fuel ≤ measure st)%nat
            end).
Proof.
  intros Hbody fuel. induction fuel as [|fuel IH]; intros st Hst.
  { intros w Hw. simpl. split; [done|lia]. }
  simpl. eapply hoare_bind; [by apply Hbody|].
  intros [st'|r] Hr; [|by apply hoare_ret].
  destruct Hr as [Hst' Hlt]. eapply hoare_mono; [by apply IH|].
  intros [r|e|]; simpl; [done|done|lia].
Qed.

Lemma hoare_depth_first_sampling G fuel (initial_node : Node) sample_size :
  wf_graph G → initial_node ∈ nodes G →
  hoare G (depth_first_sampling fuel initial_node sample_size)
    (λ o, match o with
          | Ret l =>
              NoDup l ∧
              Z.of_nat (length l) ≤ Z.max 0 sample_size ∧
              ∀ n, n ∈ l → rtc (adjacent G) initial_node n
          | Raise _ => False
          | OutOfFuel => (fuel ≤ dfs_measure G ([], [initial_node]))%nat
          end).
Proof.
  intros Hwf Hinit w Hw. unfold depth_first_sampling, bind.
  destruct (hoare_while_fuel G (dfs_body sample_size)
              (frontier_inv G [initial_node] (Z.max 0 sample_size))
              (λ s, frontier_inv G [initial_node] (Z.max 0 sample_size) (s, []))
              (dfs_measure G)
              (λ st Hst, hoare_dfs_body_total G initial_node sample_size st
                           Hwf Hinit Hst)
              fuel ([], [initial_node])) with (w := w) as [Hg Hr]; [|done|].
  { split; [apply NoDup_nil_2|]. split; [by intros n ?%elem_of_nil|]. simpl. split.
    - intros n Hn. by apply reachable_from_initial.
    - unfold set_len. simpl. lia. }
  destruct (while _ _ _ w) as [[s| |] w1]; simpl in *; try done.
  destruct (hoare_set_iter G s w1 Hg) as [Hg' Hr'].
  destruct (set_iter s w1) as [[l| |] w2]; simpl in *; try done.
  split; [done|]. destruct Hr as (Hnd & Hreach & _ & Hlen). simpl in *.
  rewrite Hr'. split; [done|]. split; [done|].
  intros n Hn. rewrite Hr' in Hn.
  destruct (Hreach n Hn) as (i & ->%list_elem_of_singleton & ?). done.
Qed.

Lemma hoare_breadth_first_sampling G fuel (initial_nodes : list Node) sample_size :
  wf_graph G → (∀ i, i ∈ initial_nodes → i ∈ nodes G) →
  hoare G (breadth_first_sampling fuel initial_nodes sample_size)
    (λ o, match o with
          | Ret l =>
              NoDup l ∧
              Z.of_nat (length l)
                ≤ Z.max sample_size (set_len (set_of initial_nodes)) ∧
              ∀ n, n ∈ l → reachable_from G initial_nodes n
          | Raise _ => False
          | OutOfFuel =>
              (fuel ≤ bfs_measure G (set_of initial_nodes, initial_nodes))%nat
          end).
Proof.
  intros Hwf Hinit w Hw. unfold breadth_first_sampling, bind.
  set (bound := Z.max sample_size (set_len (set_of initial_nodes))).
  destruct (hoare_while_fuel G (bfs_body sample_size)
              (frontier_inv G initial_nodes bound)
              (λ s, frontier_inv G initial_nodes bound (s, []))
              (bfs_measure G)
              (λ st Hst, hoare_bfs_body_total G initial_nodes sample_size st
                           Hwf Hinit Hst)
              fuel (set_of initial_nodes, initial_nodes)) with (w := w)
    as [Hg Hr]; [|done|].
  { split; [apply NoDup_set_of|]. simpl. split; [|split].
    - intros n Hn. apply (proj1 (elem_of_set_of _ _)) in Hn.
      by apply reachable_from_initial.
    - intros n Hn. by apply reachable_from_initial.
    - unfold bound. lia. }
  destruct (while _ _ _ w) as [[s| |] w1]; simpl in *; try done.
  destruct (hoare_set_iter G s w1 Hg) as [Hg' Hr'].
  destruct (set_iter s w1) as [[l| |] w2]; simpl in *; try done.
  split; [done|]. destruct Hr as (Hnd & Hreach & _ & Hlen). simpl in *.
  rewrite Hr'. split; [done|]. split; [done|].
  intros n Hn. rewrite Hr' in Hn. by apply Hreach.
Qed.

(** C3, as the code has it.  Let [G] be a NetworkX graph.
    - [depth_first_sampling], started at a node of [G] with a requested size
      that is not negative, raises nothing and returns at most the requested
      number of nodes, each reachable in [G] from the initial node.
    - [breadth_first_sampling], started from nodes of [G], raises nothing
      and returns nodes each reachable in [G] from some initial node; their
      number is at most the larger of the requested size and the number of
      distinct initial nodes (every initial node is sampled before the size
      is first looked at).
    Both loops end: the call is still running only while the fuel is within
    the bound [dfs_measure], respectively [bfs_measure], of the initial
    state. *)
Theorem dfs_bfs_size_and_reachability (w : World Node) :
  wf_graph (graph w) →
  (∀ fuel initial_node sample_size,
     initial_node ∈ nodes (graph w) → 0 ≤ sample_size →
     match (depth_first_sampling fuel initial_node sample_size w).1 with
     | Ret sampled =>
         Z.of_nat (length sampled) ≤ sample_size ∧
         ∀ n, n ∈ sampled → rtc (adjacent (graph w)) initial_node n
     | Raise _ => False
     | OutOfFuel => (fuel ≤ dfs_measure (graph w) ([], [initial_node]))%nat
     end) ∧
  (∀ fuel initial_nodes sample_size,
     (∀ i, i ∈ initial_nodes → i ∈ nodes (graph w)) →
     match (breadth_first_sampling fuel initial_nodes sample_size w).1 with
     | Ret sampled =>
         Z.of_nat (length sampled)
           ≤ Z.max sample_size (set_len (set_of initial_nodes)) ∧
         ∀ n, n ∈ sampled → reachable_from (graph w) initial_nodes n
     | Raise _ => False
     | OutOfFuel =>
         (fuel ≤ bfs_measure (graph w) (set_of initial_nodes, initial_nodes))%nat
     end).
Proof.
  intros Hwf. split.
  - intros fuel initial_node sample_size Hinit Hk.
    destruct (hoare_depth_first_sampling (graph w) fuel initial_node sample_size
                Hwf Hinit w eq_refl) as [_ Hr].
    destruct (_.1) as [l| |]; simpl in Hr; try done.
    destruct Hr as (_ & Hlen & Hreach). split; [lia|done].
  - intros fuel initial_nodes sample_size Hinit.
    destruct (hoare_breadth_first_sampling (graph w) fuel initial_nodes sample_size
                Hwf Hinit w eq_refl) as [_ Hr].
    destruct (_.1) as [l| |]; simpl in Hr; try done.
    by destruct Hr as (_ & Hlen & Hreach).
Qed.

(** ** snowball_sampling (C4) *)

Lemma snowball_admit_inv G (initial_nodes : list Node) sample_size
    (st0 : PySet Node * PySet Node) node neighbors st :
  node ∈ st0.2 → (∀ n, n ∈ neighbors → adjacent G node n) →
  snowball_inv G initial_nodes sample_size st0 →
  snowball_inv G initial_nodes sample_size st →
  snowball_admitted G st0 st →
  snowball_inv G initial_nodes sample_size
    (snowball_admit sample_size neighbors st) ∧
  snowball_admitted G st0 (snowball_admit sample_size neighbors st).
Proof.
  intros Hnode. revert st.
  induction neighbors as [|nb neighbors IH]; intros st Hnbrs Hinv0 Hinv Hadm; simpl;
    [done|].
  case_decide as Hlt; [|done].
  assert (∀ n, n ∈ neighbors → adjacent G node n) as Hnbrs'.
  { intros n Hn. apply Hnbrs. by right. }
  case_decide as Hin; [by apply IH|].
  destruct Hinv as (Hnd & Hreach & Hsub & Hlen).
  destruct Hadm as [Hnew Hunion].
  pose proof Hinv0 as (_ & Hreach0 & Hsub0 & _).
  apply IH; [done|done| |].
  - split; [by apply NoDup_set_add|]. simpl. split; [|split].
    + intros n [Hn| ->]%elem_of_set_add; [by apply Hreach|].
      eapply reachable_from_step; [apply Hreach0, Hsub0, Hnode|].
      apply Hnbrs. left.
    + intros n [Hn| ->]%elem_of_set_add; apply elem_of_set_add; [left; by apply Hsub|by right].
    + rewrite set_len_add, decide_False by done. lia.
  - split; simpl.
    + intros x [Hx| ->]%elem_of_set_add; [by apply Hnew|].
      split; [|exists node; split; [done|apply Hnbrs; left]].
      intros Hx. apply Hin, Hunion. by left.
    + intros x. rewrite !elem_of_set_add, Hunion. naive_solver.
Qed.

Lemma hoare_snowball_expand G (initial_nodes : list Node) sample_size
    (st0 : PySet Node * PySet Node) (to_expand : list Node) st :
  wf_graph G → (∀ i, i ∈ initial_nodes → i ∈ nodes G) →
  (∀ n, n ∈ to_expand → n ∈ st0.2) →
  snowball_inv G initial_nodes sample_size st0 →
  snowball_inv G initial_nodes sample_size st →
  snowball_admitted G st0 st →
  hoare G (snowball_expand sample_size to_expand st)
    (rets (λ st', snowball_inv G initial_nodes sample_size st' ∧
                  snowball_admitted G st0 st')).
Proof.
  intros Hwf Hinit. revert st.
  induction to_expand as [|node rest IH]; intros st Hfront Hinv0 Hinv Hadm; simpl.
  { by apply hoare_ret. }
  assert (node ∈ st0.2) as Hnode by (apply Hfront; left).
  destruct (proj2 (adj_is_Some G node)) as [nbrs Hadj].
  { eapply reachable_from_node; [done..|].
    destruct Hinv0 as (_ & Hreach0 & Hsub0 & _). by apply Hreach0, Hsub0. }
  eapply hoare_bind; [by apply hoare_G_neighbors|]. intros ? ->.
  eapply hoare_bind; [apply hoare_random_shuffle|]. intros shuffled Hperm.
  destruct (snowball_admit_inv G initial_nodes sample_size st0 node shuffled st)
    as [Hinv' Hadm']; try done.
  { intros n Hn. unfold adjacent. by rewrite Hadj, <-Hperm. }
  apply IH; try done. intros n Hn. apply Hfront. by right.
Qed.

Lemma hoare_snowball_round G (initial_nodes : list Node) sample_size st :
  wf_graph G → (∀ i, i ∈ initial_nodes → i ∈ nodes G) →
  snowball_inv G initial_nodes sample_size st →
  hoare G (snowball_round sample_size st)
    (rets (λ st', snowball_inv G initial_nodes sample_size st' ∧
                  snowball_admitted G st st')).
Proof.
  intros Hwf Hinit Hinv. unfold snowball_round.
  eapply hoare_bind; [apply hoare_set_iter|]. intros order Hperm.
  apply hoare_snowball_expand; try done.
  - intros n Hn. by rewrite <-Hperm.
  - destruct Hinv as (Hnd & Hreach & Hsub & Hlen). split; [done|]. split; [done|].
    split; [|done]. by intros n ?%elem_of_nil.
  - split; simpl; [by intros x ?%elem_of_nil|].
    intros x. split; [by left|]. by intros [?|?%elem_of_nil].
Qed.

Lemma snowball_inv_init G (initial_nodes : list Node) sample_size :
  snowball_inv G initial_nodes sample_size
    (set_of initial_nodes, set_of initial_nodes).
Proof.
  split; [apply NoDup_set_of|]. simpl. split; [|split; [done|lia]].
  intros n Hn. apply (proj1 (elem_of_set_of _ _)) in Hn.
  by apply reachable_from_initial.
Qed.

Lemma snowball_reaches_inv G sample_size expand_depth (initial_nodes : list Node)
    w0 d st w :
  wf_graph G → (∀ i, i ∈ initial_nodes → i ∈ nodes G) → graph w0 = G →
  snowball_reaches sample_size expand_depth initial_nodes w0 d st w →
  graph w = G ∧ snowball_inv G initial_nodes sample_size st.
Proof.
  intros Hwf Hinit Hw0 Hreach.
  induction Hreach as [|d st w st' w' _ [Hw Hinv] _ _ Hround].
  - split; [done|apply snowball_inv_init].
  - destruct (hoare_snowball_round G initial_nodes sample_size st Hwf Hinit Hinv w Hw)
      as [Hg Hr].
    rewrite Hround in Hg, Hr. split; [done|apply Hr].
Qed.

(** The rounds that [snowball_rounds] runs are rounds of [snowball_reaches]. *)
Lemma snowball_rounds_reaches G sample_size expand_depth (initial_nodes : list Node)
    w0 rounds d st w :
  wf_graph G → (∀ i, i ∈ initial_nodes → i ∈ nodes G) → graph w0 = G →
  snowball_reaches sample_size expand_depth initial_nodes w0 d st w →
  (d + rounds = Z.to_nat expand_depth)%nat →
  d = 0%nat ∨ rounds = 0%nat ∨ set_len st.1 < sample_size →
  ∃ d' st' w',
    snowball_rounds sample_size rounds st w = (Ret st'.1, w') ∧
    snowball_reaches sample_size expand_depth initial_nodes w0 d' st' w'.
Proof.
  intros Hwf Hinit Hw0. revert d st w.
  induction rounds as [|rounds IH]; intros d st w Hreach Hd Hgo; simpl.
  { by exists d, st, w. }
  destruct (snowball_reaches_inv G sample_size expand_depth initial_nodes w0 d st w)
    as [Hw Hinv]; [done..|].
  destruct (hoare_snowball_round G initial_nodes sample_size st Hwf Hinit Hinv w Hw)
    as [Hg Hr].
  unfold bind. destruct (snowball_round sample_size st w) as [[st'| |] w'] eqn:Hround;
    try done.
  assert (snowball_reaches sample_size expand_depth initial_nodes w0 (S d) st' w')
    as Hreach'.
  { eapply snowball_reaches_round; [done|lia| |done].
    destruct Hgo as [?|[?|?]]; [by left|done|by right]. }
  case_decide as Hfull; [by exists (S d), st', w'|].
  apply (IH (S d)); [done|lia|]. right; right. lia.
Qed.

(** C4, as the code has it.  Let [G] be a NetworkX graph and the initial
    nodes nodes of [G].
    - Before the first round, the sampled nodes and the nodes to expand are
      the initial nodes.
    - Each round admits exactly the nodes of its [next_expand]: each is a
      neighbour in [G] of a node to expand in this round (an initial node in
      the first round, a node admitted by the previous round later on), and
      was not sampled before.
    - The call returns the sampled nodes of the last round it ran, and
      their number is at most the larger of the target size and the number
      of distinct initial nodes (the initial nodes are sampled whatever the
      target is). *)
Theorem snowball_rounds_admit_neighbours_and_size
    (initial_nodes : list Node) (sample_size expand_depth : Z) (w0 : World Node) :
  wf_graph (graph w0) → (∀ i, i ∈ initial_nodes → i ∈ nodes (graph w0)) →
  (∀ st w,
     snowball_reaches sample_size expand_depth initial_nodes w0 0 st w →
     st = (set_of initial_nodes, set_of initial_nodes)) ∧
  (∀ d st w st' w',
     snowball_reaches sample_size expand_depth initial_nodes w0 d st w →
     snowball_round sample_size st w = (Ret st', w') →
     (∀ x, x ∈ st'.2 →
        (x ∉ st.1) ∧ (∃ y, y ∈ st.2 ∧ adjacent (graph w0) y x)) ∧
     (∀ x, x ∈ st'.1 ↔ x ∈ st.1 ∨ x ∈ st'.2)) ∧
  ∃ sampled w' d st w,
    snowball_sampling initial_nodes sample_size expand_depth w0 = (Ret sampled, w') ∧
    snowball_reaches sample_size expand_depth initial_nodes w0 d st w ∧
    sampled ≡ₚ st.1 ∧
    Z.of_nat (length sampled) ≤ Z.max sample_size (set_len (set_of initial_nodes)).
Proof.
  intros Hwf Hinit. split; [|split].
  - intros st w Hreach. by inversion Hreach.
  - intros d st w st' w' Hreach Hround.
    destruct (snowball_reaches_inv (graph w0) sample_size expand_depth
                initial_nodes w0 d st w) as [Hw Hinv]; [done..|].
    destruct (hoare_snowball_round (graph w0) initial_nodes sample_size st
                Hwf Hinit Hinv w Hw) as [_ Hr].
    rewrite Hround in Hr. apply Hr.
  - destruct (snowball_rounds_reaches (graph w0) sample_size expand_depth
                initial_nodes w0 (Z.to_nat expand_depth) 0
                (set_of initial_nodes, set_of initial_nodes) w0)
      as (d & st & w & Hrun & Hreach); [done..|apply snowball_reaches_start|lia|by left|].
    destruct (snowball_reaches_inv (graph w0) sample_size expand_depth
                initial_nodes w0 d st w) as [Hw Hinv]; [done..|].
    destruct (hoare_set_iter (graph w0) st.1 w Hw) as [_ Hr].
    destruct (set_iter st.1 w) as [[l| |] w'] eqn:Hiter; try done.
    exists l, w', d, st, w. split.
    { unfold snowball_sampling, bind. by rewrite Hrun, Hiter. }
    split; [done|]. split; [done|]. simpl in Hr. rewrite Hr.
    apply Hinv.
Qed.


(** * Further properties of the sampler *)

(** ** The two walks: what is returned *)

Lemma length_add_edge_hang g u v :
  u ∈ nodes g →
  length (add_edge (add_node g v) u v)
  = (length g + if decide (v ∈ nodes g) then 0 else 1)%nat.
Proof.
  intros Hu. rewrite length_add_edge.
  rewrite (add_node_id (add_node g v) u) by (apply nodes_add_node; by left).
  rewrite (add_node_id (add_node g v) v) by (apply nodes_add_node; by right).
  case_decide as Hv; [rewrite add_node_id by done; lia|].
  rewrite length_add_node_new by done. lia.
Qed.

Lemma subgraph_of_init G (start_node : Node) :
  start_node ∈ nodes G → subgraph_of G (add_node [] start_node).
Proof.
  intros Hstart. split; [apply wf_graph_add_node, wf_graph_empty|]. split.
  - intros n [[]%elem_of_nil| ->]%nodes_add_node. done.
  - intros a b. rewrite adjacent_add_node. by unfold adjacent.
Qed.

Lemma subgraph_of_hang G g u v :
  wf_graph G → subgraph_of G g → adjacent G u v →
  subgraph_of G (add_edge (add_node g v) u v).
Proof.
  intros Hwf (Hwfg & Hnodes & Hadj) Huv.
  split; [by apply wf_graph_add_edge, wf_graph_add_node|]. split.
  - intros n. rewrite nodes_add_edge, nodes_add_node.
    intros [[?| ->]|[->| ->]]; [by apply Hnodes| | |];
      by eauto using adjacent_node_l, adjacent_node_r.
  - intros a b. rewrite adjacent_add_edge, adjacent_add_node.
    intros [?|[[-> ->]|[-> ->]]]; [by apply Hadj|done|by apply wf_graph_sym].
Qed.

Lemma walk_inv_init G (start_node : Node) num_samples :
  start_node ∈ nodes G →
  walk_inv G start_node num_samples (add_node [] start_node) start_node.
Proof.
  intros Hstart. split; [by apply subgraph_of_init|]. split; [|split; [|done]].
  - unfold number_of_nodes. simpl. lia.
  - apply nodes_add_node. by right.
Qed.

Lemma walk_inv_hang G (start_node : Node) num_samples g current next_node :
  wf_graph G → walk_inv G start_node num_samples g current →
  number_of_nodes g < num_samples → adjacent G current next_node →
  walk_inv G start_node num_samples
    (add_edge (add_node g next_node) current next_node) next_node.
Proof.
  intros Hwf (Hsub & Hsize & Hcur & Hnb) Hlt Hadj.
  split; [by apply subgraph_of_hang|]. split; [|split].
  - unfold number_of_nodes in *. rewrite length_add_edge_hang by done.
    case_decide; lia.
  - apply nodes_add_edge. by right; right.
  - intros _. exists current. by apply wf_graph_sym.
Qed.

Lemma walk_inv_result G (start_node : Node) num_samples g current :
  walk_inv G start_node num_samples g current →
  ¬ number_of_nodes g < num_samples ∨ ¬ has_neighbour G current →
  walk_result G start_node num_samples g.
Proof.
  intros (Hsub & Hsize & Hcur & Hnb) Hstop.
  split; [done|]. split; [done|]. intros Hstart.
  destruct Hstop as [Hfull|Hdead]; [|destruct Hdead; auto].
  assert (1 ≤ number_of_nodes g); [|lia].
  unfold number_of_nodes, nodes in *. destruct g; [by apply elem_of_nil in Hcur|].
  simpl. lia.
Qed.

Lemma hoare_mh_body_walk G (start_node : Node) num_samples (st : MHState Node) :
  wf_graph G →
  walk_inv G start_node num_samples (mh_sampled st) (mh_current st) →
  hoare G (mh_body num_samples st)
    (rets (λ r, match r with
                | Continue st' =>
                    walk_inv G start_node num_samples (mh_sampled st') (mh_current st')
                | Break g => walk_result G start_node num_samples g
                end)).
Proof.
  intros Hwf Hinv. pose proof Hinv as (Hsub & Hsize & Hcur & Hnb).
  unfold mh_body. case_decide as Hlt.
  2:{ apply hoare_ret. cbn [rets]. eapply walk_inv_result; [done|by left]. }
  destruct (proj2 (adj_is_Some G (mh_current st))) as [neighbors Hadj].
  { by apply Hsub. }
  eapply hoare_bind; [by apply hoare_G_neighbors|]. intros ? ->.
  destruct neighbors as [|x neighbors].
  { eapply hoare_bind; [apply hoare_print|]. intros _ _. apply hoare_ret. cbn [rets].
    eapply walk_inv_result; [done|]. right. intros [m Hm].
    unfold adjacent in Hm. rewrite Hadj in Hm. by apply elem_of_nil in Hm. }
  eapply hoare_bind; [by apply hoare_random_choice|]. intros next_node Hnext.
  assert (adjacent G (mh_current st) next_node) as Hnb'.
  { unfold adjacent. by rewrite Hadj. }
  destruct (degree_pos G _ _ Hadj) as (dc & Hdc & Hpos); [done|].
  destruct (degree_is_Some G next_node) as [dn Hdn]; [by eapply adjacent_node_r|].
  eapply hoare_bind; [by apply hoare_G_degree|]. intros ? ->.
  eapply hoare_bind; [by apply hoare_G_degree|]. intros ? ->.
  eapply hoare_bind; [apply hoare_true_div; lia|]. intros ? ->.
  eapply hoare_bind; [apply hoare_random_random|]. intros r _.
  assert (walk_inv G start_node num_samples
            (mh_sampled (mh_reject st)) (mh_current (mh_reject st))) as Hrej.
  { unfold mh_reject. simpl. by rewrite add_node_id. }
  destruct (r ?= _)%Q; apply hoare_ret; cbn [rets]; [done| |done].
  by apply walk_inv_hang.
Qed.

Lemma hoare_rw_body_walk G (start_node : Node) num_samples (st : RWState Node) :
  wf_graph G →
  walk_inv G start_node num_samples (rw_sampled st) (rw_current st) ∧
  (∀ n, n ∈ rw_visited st ↔ n ∈ nodes (rw_sampled st)) →
  hoare G (rw_body num_samples st)
    (rets (λ r, match r with
                | Continue st' =>
                    walk_inv G start_node num_samples (rw_sampled st') (rw_current st') ∧
                    (∀ n, n ∈ rw_visited st' ↔ n ∈ nodes (rw_sampled st'))
                | Break g => walk_result G start_node num_samples g
                end)).
Proof.
  intros Hwf [Hinv Hvis]. pose proof Hinv as (Hsub & Hsize & Hcur & Hnb).
  unfold rw_body. case_decide as Hlt.
  2:{ apply hoare_ret. cbn [rets]. eapply walk_inv_result; [done|by left]. }
  destruct (proj2 (adj_is_Some G (rw_current st))) as [neighbors Hadj].
  { by apply Hsub. }
  eapply hoare_bind; [by apply hoare_G_neighbors|]. intros ? ->.
  destruct neighbors as [|x neighbors].
  { eapply hoare_bind; [apply hoare_print|]. intros _ _. apply hoare_ret. cbn [rets].
    eapply walk_inv_result; [done|]. right. intros [m Hm].
    unfold adjacent in Hm. rewrite Hadj in Hm. by apply elem_of_nil in Hm. }
  eapply hoare_bind; [by apply hoare_random_choice|]. intros next_node Hnext.
  assert (adjacent G (rw_current st) next_node) as Hnb'.
  { unfold adjacent. by rewrite Hadj. }
  apply hoare_ret. cbn [rets].
  destruct (decide (next_node ∈ rw_visited st)) as [Hin|Hnin].
  - rewrite rw_move_visited by done. simpl. split; [|done].
    split; [done|]. split; [done|]. split; [by apply Hvis|].
    intros _. exists (rw_current st). by apply wf_graph_sym.
  - rewrite rw_move_new by done. simpl. split; [by apply walk_inv_hang|].
    intros n. rewrite elem_of_app, list_elem_of_singleton, nodes_add_edge,
      nodes_add_node, Hvis.
    split; [naive_solver|]. intros [[?| ->]|[->| ->]]; auto.
Qed.

(** ** The two walks: start nodes that lead nowhere *)

(** X3. With a target of at most 1 neither walk enters its loop: the start
    node alone is returned and the world is left as it was, whether or not
    the start node is a node of [G].  With a larger target a start node that
    is not in [G] makes both walks raise [NetworkXError] at once, before
    anything is drawn or printed. *)
Theorem walks_small_target_or_absent_start
    (fuel : nat) (start_node : Node) (num_samples : Z) (w : World Node) :
  (0 < fuel)%nat →
  (num_samples ≤ 1 →
   metropolis_hastings_sampling fuel start_node num_samples w
     = (Ret [(start_node, [])], w) ∧
   random_walk_sampling fuel start_node num_samples w
     = (Ret [(start_node, [])], w)) ∧
  (1 < num_samples → start_node ∉ nodes (graph w) →
   metropolis_hastings_sampling fuel start_node num_samples w
     = (Raise NetworkXError, w) ∧
   random_walk_sampling fuel start_node num_samples w
     = (Raise NetworkXError, w)).
Proof.
  intros Hfuel. destruct fuel as [|fuel]; [lia|].
  unfold metropolis_hastings_sampling, random_walk_sampling. cbn [while].
  unfold mh_body, rw_body, mh_init, rw_init. unfold bind, G_neighbors.
  cbn [mh_sampled rw_sampled mh_current rw_current].
  change (number_of_nodes (add_node [] start_node)) with 1.
  split.
  - intros Hle. by rewrite !decide_False by lia.
  - intros Hlt Habsent%adj_None. rewrite !decide_True by done.
    cbv beta. by rewrite Habsent.
Qed.

(** X4. A start node of [G] without neighbours is a dead end: with a target
    of at least 2 both walks print the one line, draw nothing and return
    the start node alone. *)
Theorem walks_stop_at_isolated_start
    (fuel : nat) (start_node : Node) (num_samples : Z) (w : World Node) :
  (0 < fuel)%nat → 1 < num_samples → adj (graph w) start_node = Some [] →
  metropolis_hastings_sampling fuel start_node num_samples w
    = (Ret [(start_node, [])],
       mkWorld (graph w) (draws w) (cursor w)
         (stdout w ++ ["No neighbors to move to. Sampling stopped."])) ∧
  random_walk_sampling fuel start_node num_samples w
    = (Ret [(start_node, [])],
       mkWorld (graph w) (draws w) (cursor w)
         (stdout w ++ ["No neighbors to move to. Sampling stopped."])).
Proof.
  intros Hfuel Hlt Hadj. destruct fuel as [|fuel]; [lia|].
  unfold metropolis_hastings_sampling, random_walk_sampling. cbn [while].
  unfold mh_body, rw_body, mh_init, rw_init. unfold bind, G_neighbors.
  cbn [mh_sampled rw_sampled mh_current rw_current].
  change (number_of_nodes (add_node [] start_node)) with 1.
  rewrite !decide_True by done. cbv beta. by rewrite Hadj.
Qed.

(** ** metropolis_hastings_sampling: moves that are always accepted *)

Lemma random_random_below_one (w w' : World Node) (r : Q) :
  random_random w = (Ret r, w') → (r < 1)%Q.
Proof.
  unfold random_random. intros [= <- _]. unfold Qlt. simpl.
  pose proof (Z.mod_pos_bound (draws w (cursor w)) (2 ^ 53)). lia.
Qed.

(** X5. A move to a neighbour whose degree is at least the degree of the
    current node is accepted whatever [random.random()] returns: the ratio
    is [min(1, ...) = 1] and the draw is below 1.  The pass adds the
    neighbour and the edge to it, and moves there. *)
Theorem mh_accepts_moves_to_no_smaller_degree
    (num_samples : Z) (st : MHState Node) (w : World Node)
    neighbors next_node w1 current_degree next_degree (r : Q) w2 :
  number_of_nodes (mh_sampled st) < num_samples →
  G_neighbors (mh_current st) w = (Ret neighbors, w) →
  neighbors ≠ [] →
  random_choice neighbors w = (Ret next_node, w1) →
  G_degree (mh_current st) w1 = (Ret current_degree, w1) →
  G_degree next_node w1 = (Ret next_degree, w1) →
  random_random w1 = (Ret r, w2) →
  0 < current_degree ≤ next_degree →
  mh_body num_samples st w = (Ret (Continue (mh_accept st next_node)), w2).
Proof.
  intros Hlt Hnbrs Hne Hchoice Hdc Hdn Hr Hdeg.
  unfold mh_body. rewrite decide_True by done.
  unfold bind at 1. rewrite Hnbrs.
  destruct neighbors as [|x neighbors]; [done|].
  unfold bind at 1. rewrite Hchoice.
  unfold bind at 1. rewrite Hdc.
  unfold bind at 1. rewrite Hdn.
  unfold bind at 1. unfold true_div. rewrite decide_False by lia.
  unfold ret at 1. unfold bind at 1. rewrite Hr.
  assert ((r ?= Qmin 1 (round_binary64
                          (inject_Z next_degree / inject_Z current_degree)))
          = Lt)%Q as ->; [|done].
  apply Qlt_alt. apply Q.min_glb_lt; [by eapply random_random_below_one|].
  eapply Qlt_le_trans; [by eapply random_random_below_one|].
  apply round_binary64_ge_1. apply Qle_shift_div_l.
  - change 0%Q with (inject_Z 0). rewrite <-Zlt_Qlt. lia.
  - rewrite Qmult_1_l. rewrite <-Zle_Qle. lia.
Qed.

(** ** snowball_sampling: how far a round can go *)

Lemma snowball_reaches_within G sample_size expand_depth (initial_nodes : list Node)
    w0 d st w :
  wf_graph G → (∀ i, i ∈ initial_nodes → i ∈ nodes G) → graph w0 = G →
  snowball_reaches sample_size expand_depth initial_nodes w0 d st w →
  (d ≤ Z.to_nat expand_depth)%nat ∧
  (∀ i, i ∈ initial_nodes → i ∈ st.1) ∧
  (∀ n, n ∈ st.1 → within G initial_nodes d n).
Proof.
  intros Hwf Hinit Hw0 Hreach.
  induction Hreach as [|d st w st' w' Hreach (Hd & Hkeep & Hdist) Hlt Hgo Hround].
  - split; [lia|]. simpl. split.
    + intros i Hi. by apply elem_of_set_of.
    + intros n Hn. apply (proj1 (elem_of_set_of _ _)) in Hn.
      exists n. split; [done|apply bsteps_refl].
  - destruct (snowball_reaches_inv G sample_size expand_depth initial_nodes
                w0 d st w Hwf Hinit Hw0 Hreach) as [Hw Hinv].
    destruct (hoare_snowball_round G initial_nodes sample_size st Hwf Hinit Hinv w Hw)
      as [_ Hr].
    rewrite Hround in Hr. destruct Hr as [_ [Hnew Hunion]].
    split; [lia|]. split.
    + intros i Hi. apply Hunion. left. by apply Hkeep.
    + intros n [Hn|Hn]%Hunion.
      * destruct (Hdist n Hn) as (i & Hi & Hpath). exists i. split; [done|].
        by apply bsteps_S.
      * destruct (Hnew n Hn) as (_ & y & Hy & Hyn).
        destruct Hinv as (_ & _ & Hsub & _).
        destruct (Hdist y (Hsub y Hy)) as (i & Hi & Hpath). exists i.
        split; [done|]. by eapply bsteps_r.
Qed.

(** X6. Let [G] be a NetworkX graph and the initial nodes nodes of [G].
    [snowball_sampling] returns a list without repetitions that holds every
    initial node, and each node of it is at most [expand_depth] edges of [G]
    away from an initial node. *)
Theorem snowball_sample_within_depth
    (initial_nodes : list Node) (sample_size expand_depth : Z) (w0 : World Node) :
  wf_graph (graph w0) → (∀ i, i ∈ initial_nodes → i ∈ nodes (graph w0)) →
  ∃ sampled w',
    snowball_sampling initial_nodes sample_size expand_depth w0 = (Ret sampled, w') ∧
    NoDup sampled ∧
    (∀ i, i ∈ initial_nodes → i ∈ sampled) ∧
    (∀ n, n ∈ sampled →
          within (graph w0) initial_nodes (Z.to_nat expand_depth) n).
Proof.
  intros Hwf Hinit.
  destruct (snowball_rounds_reaches (graph w0) sample_size expand_depth
              initial_nodes w0 (Z.to_nat expand_depth) 0
              (set_of initial_nodes, set_of initial_nodes) w0)
    as (d & st & w & Hrun & Hreach); [done..|apply snowball_reaches_start|lia|by left|].
  destruct (snowball_reaches_inv (graph w0) sample_size expand_depth
              initial_nodes w0 d st w) as [Hw Hinv]; [done..|].
  destruct (snowball_reaches_within (graph w0) sample_size expand_depth
              initial_nodes w0 d st w) as (Hd & Hkeep & Hdist); [done..|].
  destruct (hoare_set_iter (graph w0) st.1 w Hw) as [_ Hr].
  destruct (set_iter st.1 w) as [[l| |] w'] eqn:Hiter; try done.
  simpl in Hr. exists l, w'. split.
  { unfold snowball_sampling, bind. by rewrite Hrun, Hiter. }
  split; [rewrite Hr; apply Hinv|]. split.
  - intros i Hi. rewrite Hr. by apply Hkeep.
  - intros n Hn. rewrite Hr in Hn. destruct (Hdist n Hn) as (i & Hi & Hpath).
    exists i. split; [done|]. by eapply bsteps_weaken.
Qed.

Lemma snowball_expand_absent sample_size (to_expand : list Node) st (w : World Node) :
  (∃ x, x ∈ to_expand ∧ x ∉ nodes (graph w)) →
  (snowball_expand sample_size to_expand st w).1 = Raise NetworkXError.
Proof.
  revert st w. induction to_expand as [|node rest IH]; intros st w (x & Hx & Habs).
  { by apply elem_of_nil in Hx. }
  cbn [snowball_expand]. unfold bind at 1, G_neighbors.
  destruct (adj (graph w) node) as [nbrs|] eqn:Hadj; [|done].
  assert (x ∈ rest) as Hrest.
  { apply elem_of_cons in Hx as [->|?]; [|done].
    apply adj_None in Habs. congruence. }
  unfold bind at 1.
  destruct (hoare_random_shuffle (graph w) nbrs w eq_refl) as [Hg Hr].
  destruct (random_shuffle nbrs w) as [[shuffled| |] w1]; try done.
  apply IH. exists x. simpl in Hg. by rewrite Hg.
Qed.

(** X7. [snowball_sampling] looks an initial node up in [G] only when it
    expands it.  With a depth of at most 0 nothing is expanded: the distinct
    initial nodes are returned as they are, nodes of [G] or not.  With a
    depth of at least 1 every initial node is expanded in the first round,
    whatever the target is, so one initial node that is not in [G] makes the
    call raise [NetworkXError]. *)
Theorem snowball_checks_initial_nodes_by_expanding
    (initial_nodes : list Node) (sample_size expand_depth : Z) (w : World Node) :
  (expand_depth ≤ 0 →
   ∃ sampled w',
     snowball_sampling initial_nodes sample_size expand_depth w = (Ret sampled, w') ∧
     sampled ≡ₚ set_of initial_nodes) ∧
  (1 ≤ expand_depth →
   (∃ i, i ∈ initial_nodes ∧ i ∉ nodes (graph w)) →
   (snowball_sampling initial_nodes sample_size expand_depth w).1
   = Raise NetworkXError).
Proof.
  split.
  - intros Hd. unfold snowball_sampling.
    replace (Z.to_nat expand_depth) with 0%nat by lia. cbn [snowball_rounds].
    unfold bind, ret. cbn [fst].
    destruct (hoare_set_iter (graph w) (set_of initial_nodes) w eq_refl) as [_ Hr].
    destruct (set_iter (set_of initial_nodes) w) as [[l| |] w']; try done.
    by exists l, w'.
  - intros Hd (i & Hi & Habs). unfold snowball_sampling.
    destruct (Z.to_nat expand_depth) as [|rounds] eqn:Hrounds; [lia|].
    cbn [snowball_rounds]. unfold bind at 1 2. unfold snowball_round.
    unfold bind at 1. cbn [fst snd].
    destruct (hoare_set_iter (graph w) (set_of initial_nodes) w eq_refl) as [Hg Hr].
    destruct (set_iter (set_of initial_nodes) w) as [[order| |] w1]; try done.
    simpl in Hg, Hr.
    pose proof (snowball_expand_absent sample_size order (set_of initial_nodes, []) w1)
      as Hraise.
    destruct (snowball_expand sample_size order (set_of initial_nodes, []) w1)
      as [o w2].
    simpl in Hraise. rewrite Hraise; [done|].
    exists i. rewrite Hr, Hg. split; [by apply elem_of_set_of|done].
Qed.

(** ** The frontier samplers: a short sample is a whole component *)

Lemma hoare_conj {A} G (c : Py A) (Q1 Q2 : Outcome A → Prop) :
  hoare G c Q1 → hoare G c Q2 → hoare G c (λ o, Q1 o ∧ Q2 o).
Proof.
  intros H1 H2 w Hw. destruct (H1 w Hw) as [? ?], (H2 w Hw) as [_ ?]. done.
Qed.

Lemma closed_reaches G (s : PySet Node) a n :
  (∀ x y, x ∈ s → adjacent G x y → y ∈ s) →
  a ∈ s → rtc (adjacent G) a n → n ∈ s.
Proof.
  intros Hclosed Ha Hpath. induction Hpath as [|x y z Hxy _ IH]; [done|].
  apply IH. by eapply Hclosed.
Qed.

Lemma dfs_push_eq sample_size (sampled_nodes : PySet Node)
    (neighbors stack : list Node) :
  dfs_push sample_size sampled_nodes neighbors stack
  = if decide (set_len sampled_nodes < sample_size)
    then stack ++ neighbors else stack.
Proof.
  unfold dfs_push. revert stack.
  induction neighbors as [|nb neighbors IH]; intros stack; simpl.
  { case_decide; [by rewrite app_nil_r|done]. }
  rewrite IH. case_decide; [|done]. by rewrite <-app_assoc.
Qed.

Lemma hoare_dfs_body_complete G (initial_node : Node) sample_size st :
  wf_graph G → initial_node ∈ nodes G →
  frontier_inv G [initial_node] (Z.max 0 sample_size) st →
  dfs_complete_inv G initial_node sample_size st →
  hoare G (dfs_body sample_size st)
    (rets (λ r, match r with
                | Continue st' => dfs_complete_inv G initial_node sample_size st'
                | Break s => dfs_complete G initial_node sample_size s
                end)).
Proof.
  intros Hwf Hinit (Hnd & Hsampled & Hstack & Hlen) [Hstart Hclosed].
  unfold dfs_body. destruct (pop st.2) as [[stack node]|] eqn:Hpop.
  2:{ apply pop_None in Hpop. apply hoare_ret. cbn [rets].
      assert (initial_node ∈ st.1) as Hin.
      { destruct Hstart as [?|[_ Hst]]; [done|]. by rewrite Hpop in Hst. }
      split; [done|].
      destruct (decide (set_len st.1 < sample_size)) as [Hlt|Hge]; [right|left; lia].
      intros n Hpath. eapply (closed_reaches G st.1); [|done..].
      intros x y Hx Hxy. destruct (Hclosed Hlt x y Hx Hxy) as [?|Hy]; [done|].
      rewrite Hpop in Hy. by apply elem_of_nil in Hy. }
  apply pop_Some in Hpop. case_decide as Hlt.
  2:{ apply hoare_ret. cbn [rets]. split; [|left; lia].
      intros Hsize. destruct Hstart as [?|[Hempty _]]; [done|].
      rewrite Hempty in Hlt. unfold set_len in Hlt. simpl in Hlt. lia. }
  case_decide as Hin.
  { apply hoare_ret. cbn [rets]. split; simpl.
    - left. destruct Hstart as [?|[Hempty _]]; [done|].
      rewrite Hempty in Hin. by apply elem_of_nil in Hin.
    - intros _ n m Hn Hnm. destruct (Hclosed Hlt n m Hn Hnm) as [?|Hm]; [by left|].
      rewrite Hpop in Hm. apply elem_of_app in Hm as [?|Hm]; [by right|].
      apply list_elem_of_singleton in Hm as ->. by left. }
  destruct (proj2 (adj_is_Some G node)) as [nbrs Hadj].
  { eapply (reachable_from_node G [initial_node]); [done| |].
    - by intros i ->%list_elem_of_singleton.
    - apply Hstack. rewrite Hpop, elem_of_app. right. left. }
  eapply hoare_bind; [by apply hoare_G_neighbors|]. intros ? ->.
  eapply hoare_bind; [apply hoare_random_shuffle|]. intros shuffled Hperm.
  apply hoare_ret. cbn [rets]. split; simpl.
  - left. apply elem_of_set_add. destruct Hstart as [?|[_ Hst]]; [by left|right].
    rewrite Hpop in Hst. destruct stack as [|? [|??]]; by simplify_eq/=.
  - intros Hlt' n m Hn Hnm. rewrite dfs_push_eq, decide_True by done.
    rewrite elem_of_set_add, elem_of_app.
    apply elem_of_set_add in Hn as [Hn| ->].
    + destruct (Hclosed Hlt n m Hn Hnm) as [?|Hm]; [by left; left|].
      rewrite Hpop in Hm. apply elem_of_app in Hm as [?|Hm]; [by right; left|].
      apply list_elem_of_singleton in Hm as ->. by left; right.
    + right; right. unfold adjacent in Hnm. rewrite Hadj in Hnm. by rewrite Hperm.
Qed.

(** X8. Let [G] be a NetworkX graph and the initial node a node of [G].
    [depth_first_sampling] ends (the call is still running only while the
    fuel is within [dfs_measure]) and returns a list without repetitions
    that holds the initial node when the requested size is at least 1.  The
    list has exactly [max(sample_size, 0)] nodes, unless fewer can be
    reached: then it is the set of all nodes reachable from the initial
    node. *)
Theorem dfs_sample_is_full_or_whole_component
    (fuel : nat) (initial_node : Node) (sample_size : Z) (w : World Node) :
  wf_graph (graph w) → initial_node ∈ nodes (graph w) →
  match (depth_first_sampling fuel initial_node sample_size w).1 with
  | Ret sampled =>
      NoDup sampled ∧
      (1 ≤ sample_size → initial_node ∈ sampled) ∧
      (Z.of_nat (length sampled) = Z.max 0 sample_size ∨
       ∀ n, n ∈ sampled ↔ rtc (adjacent (graph w)) initial_node n)
  | Raise _ => False
  | OutOfFuel => (fuel ≤ dfs_measure (graph w) ([], [initial_node]))%nat
  end.
Proof.
  intros Hwf Hinit. set (G := graph w).
  unfold depth_first_sampling, bind.
  destruct (hoare_while_fuel G (dfs_body sample_size)
              (λ st, frontier_inv G [initial_node] (Z.max 0 sample_size) st ∧
                     dfs_complete_inv G initial_node sample_size st)
              (λ s, frontier_inv G [initial_node] (Z.max 0 sample_size) (s, []) ∧
                    dfs_complete G initial_node sample_size s)
              (dfs_measure G)) with (fuel := fuel) (st := ([] : PySet Node, [initial_node]))
              (w := w) as [Hg Hr]; [| |done|].
  { intros st [Hinv Hcomp].
    eapply hoare_mono.
    - apply hoare_conj;
        [by apply (hoare_dfs_body_total G initial_node sample_size st)
        |by apply (hoare_dfs_body_complete G initial_node sample_size st)].
    - intros [[st'|s]| |]; simpl; tauto. }
  { split.
    - split; [apply NoDup_nil_2|]. split; [by intros n ?%elem_of_nil|]. simpl. split.
      + intros n Hn. by apply reachable_from_initial.
      + unfold set_len. simpl. lia.
    - split; [by right|]. intros _ n m ?%elem_of_nil. done. }
  destruct (while _ _ _ w) as [[s| |] w1]; simpl in *; try done.
  destruct (hoare_set_iter G s w1 Hg) as [_ Hr'].
  destruct (set_iter s w1) as [[l| |] w2]; simpl in *; try done.
  destruct Hr as [(Hnd & Hreach & _ & Hlen) [Hhas Hfull]]. simpl in *.
  split; [by rewrite Hr'|]. split; [intros ?; rewrite Hr'; auto|].
  destruct Hfull as [Hfull|Hall].
  - left. rewrite Hr'. unfold set_len in *. lia.
  - right. intros n. rewrite Hr'. split; [|by apply Hall].
    intros Hn. destruct (Hreach n Hn) as (i & ->%list_elem_of_singleton & ?). done.
Qed.

Lemma bfs_admit_mono sample_size (neighbors : list Node) st x :
  (x ∈ st.1 → x ∈ (bfs_admit sample_size neighbors st).1) ∧
  (x ∈ st.2 → x ∈ (bfs_admit sample_size neighbors st).2).
Proof.
  revert st. induction neighbors as [|nb neighbors IH]; intros st; simpl; [done|].
  case_decide; [apply IH|]. case_decide; simpl.
  - rewrite elem_of_set_add, elem_of_app. auto.
  - destruct (IH (set_add st.1 nb, st.2 ++ [nb])) as [IH1 IH2]. simpl in *.
    split; intros Hx.
    + apply IH1, elem_of_set_add. by left.
    + apply IH2, elem_of_app. by left.
Qed.

Lemma bfs_admit_new sample_size (neighbors : list Node) st x :
  x ∈ (bfs_admit sample_size neighbors st).1 →
  x ∈ st.1 ∨ x ∈ (bfs_admit sample_size neighbors st).2.
Proof.
  revert st. induction neighbors as [|nb neighbors IH]; intros st; simpl; [by left|].
  case_decide; [apply IH|]. case_decide; simpl.
  - rewrite elem_of_set_add, elem_of_app, list_elem_of_singleton. naive_solver.
  - intros [Hx|Hx]%IH; [|by right]. simpl in Hx.
    apply elem_of_set_add in Hx as [?| ->]; [by left|right].
    apply bfs_admit_mono. simpl. apply elem_of_app. right. left.
Qed.

Lemma bfs_admit_complete sample_size (neighbors : list Node) st nb :
  set_len (bfs_admit sample_size neighbors st).1 < sample_size →
  nb ∈ neighbors → nb ∈ (bfs_admit sample_size neighbors st).1.
Proof.
  revert st. induction neighbors as [|x neighbors IH]; intros st; simpl.
  { by intros _ ?%elem_of_nil. }
  case_decide as Hin.
  - intros Hlt [->|Hnb]%elem_of_cons; [by apply bfs_admit_mono|by apply IH].
  - case_decide as Hfull; simpl; [lia|].
    intros Hlt [->|Hnb]%elem_of_cons; [|by apply IH].
    apply bfs_admit_mono. simpl. apply elem_of_set_add. by right.
Qed.

Lemma hoare_bfs_body_complete G (initial_nodes : list Node) sample_size st :
  wf_graph G → (∀ i, i ∈ initial_nodes → i ∈ nodes G) →
  frontier_inv G initial_nodes
    (Z.max sample_size (set_len (set_of initial_nodes))) st →
  bfs_complete_inv G initial_nodes sample_size st →
  hoare G (bfs_body sample_size st)
    (rets (λ r, match r with
                | Continue st' => bfs_complete_inv G initial_nodes sample_size st'
                | Break s => bfs_complete G initial_nodes sample_size s
                end)).
Proof.
  intros Hwf Hinit (Hnd & Hsampled & Hqueue & Hlen) [Hkeep Hclosed].
  unfold bfs_body. destruct st as [sampled [|node queue]]; simpl in *.
  { apply hoare_ret. cbn [rets]. split; [done|].
    destruct (decide (set_len sampled < sample_size)) as [Hlt|Hge]; [right|left; lia].
    intros n (i & Hi & Hpath). eapply (closed_reaches G sampled); [|by apply Hkeep|done].
    intros x y Hx Hxy. destruct (Hclosed Hlt x Hx) as [[]%elem_of_nil|Hall].
    by apply Hall. }
  case_decide as Hlt; [|apply hoare_ret; cbn [rets]; split; [done|left; lia]].
  destruct (proj2 (adj_is_Some G node)) as [nbrs Hadj].
  { eapply reachable_from_node; [done..|]. apply Hqueue. left. }
  eapply hoare_bind; [by apply hoare_G_neighbors|]. intros ? ->.
  eapply hoare_bind; [apply hoare_random_shuffle|]. intros shuffled Hperm.
  apply hoare_ret. cbn [rets]. split.
  - intros i Hi. apply bfs_admit_mono. simpl. by apply Hkeep.
  - intros Hlt' n [Hn|Hn]%bfs_admit_new; [|by left]. simpl in Hn.
    destruct (Hclosed Hlt n Hn) as [[->|Hq]%elem_of_cons|Hall].
    + right. intros m Hm. apply bfs_admit_complete; [done|].
      unfold adjacent in Hm. rewrite Hadj in Hm. by rewrite Hperm.
    + left. by apply bfs_admit_mono.
    + right. intros m Hm. apply bfs_admit_mono. simpl. by apply Hall.
Qed.

(** X9. Let [G] be a NetworkX graph and the initial nodes nodes of [G].
    [breadth_first_sampling] ends (the call is still running only while the
    fuel is within [bfs_measure]) and returns a list without repetitions
    that holds every initial node.  The list has at least [sample_size]
    nodes, unless fewer can be reached: then it is the set of all nodes
    reachable from the initial nodes. *)
Theorem bfs_sample_is_full_or_whole_component
    (fuel : nat) (initial_nodes : list Node) (sample_size : Z) (w : World Node) :
  wf_graph (graph w) → (∀ i, i ∈ initial_nodes → i ∈ nodes (graph w)) →
  match (breadth_first_sampling fuel initial_nodes sample_size w).1 with
  | Ret sampled =>
      NoDup sampled ∧
      (∀ i, i ∈ initial_nodes → i ∈ sampled) ∧
      (sample_size ≤ Z.of_nat (length sampled) ∨
       ∀ n, n ∈ sampled ↔ reachable_from (graph w) initial_nodes n)
  | Raise _ => False
  | OutOfFuel =>
      (fuel ≤ bfs_measure (graph w) (set_of initial_nodes, initial_nodes))%nat
  end.
Proof.
  intros Hwf Hinit. set (G := graph w).
  set (bound := Z.max sample_size (set_len (set_of initial_nodes))).
  unfold breadth_first_sampling, bind.
  destruct (hoare_while_fuel G (bfs_body sample_size)
              (λ st, frontier_inv G initial_nodes bound st ∧
                     bfs_complete_inv G initial_nodes sample_size st)
              (λ s, frontier_inv G initial_nodes bound (s, []) ∧
                    bfs_complete G initial_nodes sample_size s)
              (bfs_measure G)) with (fuel := fuel)
              (st := (set_of initial_nodes, initial_nodes)) (w := w)
    as [Hg Hr]; [| |done|].
  { intros st [Hinv Hcomp].
    eapply hoare_mono.
    - apply hoare_conj;
        [by apply (hoare_bfs_body_total G initial_nodes sample_size st)
        |by apply (hoare_bfs_body_complete G initial_nodes sample_size st)].
    - intros [[st'|s]| |]; simpl; tauto. }
  { split.
    - split; [apply NoDup_set_of|]. simpl. split; [|split].
      + intros n Hn. apply (proj1 (elem_of_set_of _ _)) in Hn.
        by apply reachable_from_initial.
      + intros n Hn. by apply reachable_from_initial.
      + unfold bound. lia.
    - split; simpl.
      + intros i Hi. by apply elem_of_set_of.
      + intros _ n Hn. left. by apply (proj1 (elem_of_set_of _ _)). }
  destruct (while _ _ _ w) as [[s| |] w1]; simpl in *; try done.
  destruct (hoare_set_iter G s w1 Hg) as [_ Hr'].
  destruct (set_iter s w1) as [[l| |] w2]; simpl in *; try done.
  destruct Hr as [(Hnd & Hreach & _ & Hlen) [Hhas Hfull]]. simpl in *.
  split; [by rewrite Hr'|]. split; [intros i Hi; rewrite Hr'; auto|].
  destruct Hfull as [Hfull|Hall].
  - left. rewrite Hr'. unfold set_len in *. lia.
  - right. intros n. rewrite Hr'. split; [by apply Hreach|by apply Hall].
Qed.

(** ** The frontier samplers: targets already met, nodes that are not there *)

(** X10. [depth_first_sampling] with a requested size of at most 0 returns
    the empty list and leaves the world as it was, without looking at [G].
    With a requested size of at least 1, an initial node that is not in [G]
    is put in the sample and then makes the call raise [NetworkXError]. *)
Theorem dfs_empty_target_or_absent_node
    (fuel : nat) (initial_node : Node) (sample_size : Z) (w : World Node) :
  (0 < fuel)%nat →
  (sample_size ≤ 0 →
   depth_first_sampling fuel initial_node sample_size w = (Ret [], w)) ∧
  (1 ≤ sample_size → initial_node ∉ nodes (graph w) →
   depth_first_sampling fuel initial_node sample_size w = (Raise NetworkXError, w)).
Proof.
  intros Hfuel. destruct fuel as [|fuel]; [lia|].
  unfold depth_first_sampling. cbn [while]. unfold dfs_body. cbn [pop fst snd].
  change (set_len []) with 0. split.
  - intros Hle. rewrite decide_False by lia. done.
  - intros Hge Habs%adj_None. rewrite decide_True by lia.
    rewrite decide_False by apply not_elem_of_nil.
    unfold bind, G_neighbors. by rewrite Habs.
Qed.

(** X11. [breadth_first_sampling] whose requested size is at most the number
    of distinct initial nodes returns exactly these nodes, without looking
    at [G]: nodes that are not in [G] are returned too.  With a larger
    requested size, a first initial node that is not in [G] makes the call
    raise [NetworkXError]. *)
Theorem bfs_met_target_or_absent_node
    (fuel : nat) (initial_nodes : list Node) (sample_size : Z) (w : World Node) :
  (0 < fuel)%nat →
  (sample_size ≤ set_len (set_of initial_nodes) →
   ∃ sampled w',
     breadth_first_sampling fuel initial_nodes sample_size w = (Ret sampled, w') ∧
     sampled ≡ₚ set_of initial_nodes) ∧
  (set_len (set_of initial_nodes) < sample_size →
   ∀ i rest, initial_nodes = i :: rest → i ∉ nodes (graph w) →
   breadth_first_sampling fuel initial_nodes sample_size w
   = (Raise NetworkXError, w)).
Proof.
  intros Hfuel. destruct fuel as [|fuel]; [lia|].
  unfold breadth_first_sampling. cbn [while]. unfold bfs_body. cbn [fst snd]. split.
  - intros Hle.
    destruct (hoare_set_iter (graph w) (set_of initial_nodes) w eq_refl) as [_ Hr].
    destruct (set_iter (set_of initial_nodes) w) as [[l| |] w'] eqn:Hiter; try done.
    exists l, w'. split; [|done].
    destruct initial_nodes as [|i rest].
    + unfold bind, ret. simpl. by rewrite Hiter.
    + rewrite decide_False by lia. unfold bind, ret. by rewrite Hiter.
  - intros Hlt i rest -> Habs%adj_None. rewrite decide_True by done.
    unfold bind, G_neighbors. by rewrite Habs.
Qed.

(** ** degree_based_node_sampling: ties and the random source *)

Lemma insert_desc_filter_key {A} (x : Z * A) (l : list (Z * A)) (d : Z) :
  filter (λ p, p.1 = d) (insert_desc x l) = filter (λ p, p.1 = d) (x :: l).
Proof.
  induction l as [|y l IH]; [done|]. cbn [insert_desc].
  case_decide as Hxy; [|done].
  rewrite (filter_cons _ y), IH, !filter_cons.
  destruct (decide (x.1 = d)), (decide (y.1 = d)); try done. lia.
Qed.

(** The sort is stable: the entries of one key keep their order. *)
Lemma sort_desc_filter_key {A} (l : list (Z * A)) (d : Z) :
  filter (λ p, p.1 = d) (sort_desc l) = filter (λ p, p.1 = d) l.
Proof.
  induction l as [|x l IH]; [done|]. cbn [sort_desc foldr].
  fold (sort_desc l). by rewrite insert_desc_filter_key, !filter_cons, IH.
Qed.

Lemma filter_keyed {A} (f : A → Z) (xs : list A) (d : Z) :
  filter (λ x, f x = d) xs
  = (filter (λ p, p.1 = d) ((λ x, (f x, x)) <$> xs)).*2.
Proof.
  induction xs as [|x xs IH]; [done|].
  rewrite fmap_cons, !filter_cons. simpl. case_decide; simpl; by rewrite IH.
Qed.

Lemma filter_snd_keyed {A} (f : A → Z) (l : list (Z * A)) (d : Z) :
  Forall (λ p, p.1 = f p.2) l →
  filter (λ x, f x = d) (l.*2) = (filter (λ p, p.1 = d) l).*2.
Proof.
  induction l as [|p l IH]; [done|]. intros [Hp Hl]%Forall_cons.
  rewrite fmap_cons, !filter_cons. rewrite <-Hp.
  case_decide; simpl; by rewrite IH.
Qed.

Lemma filter_take_prefix {A} (P : A → Prop) `{∀ x, Decision (P x)}
    (l : list A) (i : nat) :
  filter P (take i l) `prefix_of` filter P l.
Proof.
  exists (filter P (drop i l)). by rewrite <-filter_app, take_drop.
Qed.

Lemma with_keys_degree_run (w : World Node) (xs : list Node) :
  (∀ x, x ∈ xs → x ∈ nodes (graph w)) →
  with_keys G_degree xs w
  = (Ret ((λ x, (default 0 (degree (graph w) x), x)) <$> xs), w).
Proof.
  induction xs as [|x xs IH]; intros Hxs; [done|].
  destruct (degree_is_Some (graph w) x) as [d Hd]; [apply Hxs; left|].
  cbn [with_keys]. unfold bind. unfold G_degree at 1. cbv beta. rewrite Hd.
  rewrite IH by (intros y Hy; apply Hxs; by right).
  unfold ret. by rewrite fmap_cons, Hd.
Qed.

(** X12. [degree_based_node_sampling] does not use the random source and
    prints nothing: it returns in the world it was called in.  Its sort is
    stable: the returned nodes of any one degree are the first nodes of
    that degree in the order of [G.nodes()]. *)
Theorem degree_based_sampling_is_stable (sample_size : Z) (w : World Node) :
  ∃ sampled_nodes,
    degree_based_node_sampling sample_size w = (Ret sampled_nodes, w) ∧
    ∀ d, filter (λ n, default 0 (degree (graph w) n) = d) sampled_nodes
         `prefix_of`
         filter (λ n, default 0 (degree (graph w) n) = d) (nodes (graph w)).
Proof.
  set (f := λ n : Node, default 0 (degree (graph w) n)).
  set (keyed := (λ x, (f x, x)) <$> nodes (graph w)).
  exists (slice_to ((sort_desc keyed).*2) sample_size). split.
  - unfold degree_based_node_sampling, sorted_by_key_reverse, bind, G_nodes.
    by rewrite with_keys_degree_run.
  - intros d. destruct (slice_to_prefix ((sort_desc keyed).*2) sample_size)
      as [i ->].
    etrans; [apply filter_take_prefix|].
    rewrite (filter_snd_keyed f).
    + rewrite sort_desc_filter_key. unfold keyed. by rewrite <-filter_keyed.
    + rewrite sort_desc_perm. unfold keyed. by apply Forall_fmap, Forall_true.
Qed.

(** ** Sizes below zero *)





(** ** induced_edge_sampling: how many pairs *)

Lemma neighbour_count_perm G (ns ns' : list Node) :
  ns ≡ₚ ns' → neighbour_count G ns = neighbour_count G ns'.
Proof.
  intros Hperm. induction Hperm; simpl; lia.
Qed.

Lemma neighbour_count_nodes pre g :
  NoDup (nodes (pre ++ g)) →
  neighbour_count (pre ++ g) (nodes g) = adjacency_size g.
Proof.
  revert pre. induction g as [|[n l] g IH]; intros pre Hnd; [done|].
  unfold nodes in *. rewrite fmap_cons. cbn [neighbour_count adjacency_size fst].
  assert (adj (pre ++ (n, l) :: g) n = Some l) as ->.
  { rewrite adj_app. assert (adj pre n = None) as ->.
    - apply adj_None. unfold nodes. rewrite fmap_app in Hnd.
      apply NoDup_app in Hnd as (_ & Hdisj & _). intros Hn.
      apply (Hdisj n Hn). rewrite fmap_cons. left.
    - simpl. by rewrite decide_True. }
  simpl. f_equal. specialize (IH (pre ++ [(n, l)])).
  rewrite <-app_assoc in IH. by apply IH.
Qed.

Lemma hoare_induced_scan_length G sample_size (ns : list Node)
    (acc : list (Edge Node)) :
  (∀ n, n ∈ ns → n ∈ nodes G) → Z.of_nat (length acc) ≤ sample_size →
  hoare G (induced_scan sample_size ns acc)
    (rets (λ r, Z.of_nat (length r)
                = Z.min sample_size
                    (Z.of_nat (length acc + neighbour_count G ns)))).
Proof.
  revert acc. induction ns as [|node rest IH]; intros acc Hns Hacc.
  { apply hoare_ret. cbn [rets]. simpl. lia. }
  cbn [induced_scan neighbour_count].
  destruct (proj2 (adj_is_Some G node)) as [nbrs Hadj]; [apply Hns; left|].
  rewrite Hadj. simpl.
  eapply hoare_bind; [by apply hoare_G_neighbors|]. intros ? ->.
  eapply hoare_bind; [apply hoare_random_shuffle|]. intros shuffled Hperm.
  apply Permutation_length in Hperm.
  destruct (induced_emit_spec sample_size node shuffled acc)
    as (emitted & rest' & Hsplit & Hval & Hcase & Hlen).
  assert (length shuffled = length emitted + length rest')%nat as Hsh
    by (by rewrite Hsplit, length_app).
  assert (Z.of_nat (length (acc ++ ((λ m, (node, m)) <$> emitted))) ≤ sample_size)
    as Hacc'.
  { destruct emitted as [|m emitted]; [simpl; by rewrite app_nil_r|].
    by apply Hlen. }
  destruct (induced_emit sample_size node shuffled acc) as [acc'|r]; simpl in Hval.
  - subst acc' rest'. eapply hoare_mono.
    + apply IH; [intros n Hn; apply Hns; by right|done].
    + intros o. apply rets_mono. intros r ->.
      rewrite length_app, length_fmap. simpl in Hsh. lia.
  - subst r. destruct Hcase as [Hrest' Hfull]. apply hoare_ret. cbn [rets].
    rewrite length_app, length_fmap in *.
    destruct rest' as [|x rest']; [done|]. simpl in Hsh. lia.
Qed.

(** X14. Let [G] be a NetworkX graph and [sample_size] not negative.
    [induced_edge_sampling] returns exactly [min(sample_size, P)] pairs,
    where [P] is the number of (node, neighbour) pairs of [G], and no pair
    twice: the quota is met whenever [G] has enough pairs, and otherwise
    every pair is returned. *)
Theorem induced_edge_sampling_length (sample_size : Z) (w : World Node) :
  wf_graph (graph w) → 0 ≤ sample_size →
  ∃ sampled_edges w',
    induced_edge_sampling sample_size w = (Ret sampled_edges, w') ∧
    NoDup sampled_edges ∧
    Z.of_nat (length sampled_edges)
      = Z.min sample_size (Z.of_nat (adjacency_size (graph w))).
Proof.
  intros Hwf Hk. unfold induced_edge_sampling, bind, G_nodes.
  destruct (hoare_random_shuffle (graph w) (nodes (graph w)) w eq_refl) as [Hg Hperm].
  destruct (random_shuffle (nodes (graph w)) w) as [[ns| |] w1]; try done.
  simpl in Hg, Hperm.
  assert (∀ n, n ∈ ns → n ∈ nodes (graph w)) as Hns.
  { intros n. by rewrite Hperm. }
  destruct (hoare_induced_scan_length (graph w) sample_size ns [] Hns) with (w := w1)
    as [_ Hlen]; [simpl; lia|done|].
  destruct (hoare_induced_scan (graph w) sample_size ns []) with (w := w1)
    as [_ Hnd]; try done.
  { rewrite Hperm. by apply wf_graph_NoDup_nodes. }
  { apply NoDup_nil_2. }
  { by intros a b ?%elem_of_nil. }
  destruct (induced_scan sample_size ns [] w1) as [[l| |] w']; try done.
  exists l, w'. split; [done|]. split; [apply Hnd|].
  simpl in Hlen. rewrite Hlen, (neighbour_count_perm _ _ _ Hperm).
  pose proof (neighbour_count_nodes [] (graph w)) as Hcount. simpl in Hcount.
  rewrite Hcount; [lia|]. by apply wf_graph_NoDup_nodes.
Qed.

(** ** The console *)

Lemma quiet_ret {A} (a : A) : quiet (ret a : M (World Node) A).
Proof. by intros w. Qed.

Lemma quiet_raise {A} e : quiet (raise e : M (World Node) A).
Proof. by intros w. Qed.

Lemma quiet_bind {A B} (c : M (World Node) A) (k : A → M (World Node) B) :
  quiet c → (∀ a, quiet (k a)) → quiet (bind c k).
Proof.
  intros Hc Hk w. unfold bind. specialize (Hc w).
  destruct (c w) as [[a| |] w']; simpl in *; [|done..].
  by rewrite Hk.
Qed.

Lemma quiet_while {S R} (body : S → M (World Node) (Iter S R)) fuel st :
  (∀ st, quiet (body st)) → quiet (while body fuel st).
Proof.
  intros Hbody. revert st. induction fuel as [|fuel IH]; intros st; [by intros w|].
  apply quiet_bind; [done|]. intros [st'|r]; [apply IH|apply quiet_ret].
Qed.

Lemma quiet_G_neighbors n : quiet (G_neighbors n).
Proof. intros w. unfold G_neighbors. by destruct (adj _ _). Qed.

Lemma quiet_G_degree n : quiet (G_degree n).
Proof. intros w. unfold G_degree. by destruct (degree _ _). Qed.

Lemma quiet_picks {A} k (l : list A) : quiet (picks (Node:=Node) k l).
Proof.
  revert l. induction k as [|k IH]; intros l; [apply quiet_ret|].
  destruct l as [|x l]; [apply quiet_ret|]. cbn [picks].
  apply quiet_bind; [by intros w|]. intros i.
  apply quiet_bind; [apply IH|]. intros rest. apply quiet_ret.
Qed.

Lemma quiet_random_choice {A} (l : list A) :
  quiet (random_choice (Node:=Node) l).
Proof.
  destruct l as [|x l]; [apply quiet_raise|].
  apply quiet_bind; [by intros w|]. intros i. apply quiet_ret.
Qed.

Lemma quiet_true_div a b : quiet (true_div a b : M (World Node) Q).
Proof. unfold true_div. case_decide; [apply quiet_raise|apply quiet_ret]. Qed.

Lemma quiet_snowball_expand sample_size (to_expand : list Node) st :
  quiet (snowball_expand sample_size to_expand st).
Proof.
  revert st. induction to_expand as [|node rest IH]; intros st; [apply quiet_ret|].
  cbn [snowball_expand]. apply quiet_bind; [apply quiet_G_neighbors|]. intros nbrs.
  apply quiet_bind; [apply quiet_picks|]. intros shuffled. apply IH.
Qed.

Lemma quiet_snowball_rounds sample_size rounds (st : PySet Node * PySet Node) :
  quiet (snowball_rounds sample_size rounds st).
Proof.
  revert st. induction rounds as [|rounds IH]; intros st; [apply quiet_ret|].
  cbn [snowball_rounds]. apply quiet_bind.
  { apply quiet_bind; [apply quiet_picks|]. intros order.
    apply quiet_snowball_expand. }
  intros st'. case_decide; [apply quiet_ret|apply IH].
Qed.

Lemma quiet_dfs_body sample_size (st : PySet Node * list Node) :
  quiet (dfs_body sample_size st).
Proof.
  unfold dfs_body. destruct (pop st.2) as [[stack node]|]; [|apply quiet_ret].
  case_decide; [|apply quiet_ret]. case_decide; [apply quiet_ret|].
  apply quiet_bind; [apply quiet_G_neighbors|]. intros nbrs.
  apply quiet_bind; [apply quiet_picks|]. intros shuffled. apply quiet_ret.
Qed.

Lemma quiet_bfs_body sample_size (st : PySet Node * list Node) :
  quiet (bfs_body sample_size st).
Proof.
  unfold bfs_body. destruct st.2 as [|node queue]; [apply quiet_ret|].
  case_decide; [|apply quiet_ret].
  apply quiet_bind; [apply quiet_G_neighbors|]. intros nbrs.
  apply quiet_bind; [apply quiet_picks|]. intros shuffled. apply quiet_ret.
Qed.

Lemma quiet_induced_scan sample_size (ns : list Node) (acc : list (Edge Node)) :
  quiet (induced_scan sample_size ns acc).
Proof.
  revert acc. induction ns as [|node rest IH]; intros acc; [apply quiet_ret|].
  cbn [induced_scan]. apply quiet_bind; [apply quiet_G_neighbors|]. intros nbrs.
  apply quiet_bind; [apply quiet_picks|]. intros shuffled.
  destruct (induced_emit _ _ _ _); [apply IH|apply quiet_ret].
Qed.

Lemma quiet_with_keys (xs : list Node) : quiet (with_keys G_degree xs).
Proof.
  induction xs as [|x xs IH]; [apply quiet_ret|]. cbn [with_keys].
  apply quiet_bind; [apply quiet_G_degree|]. intros k.
  apply quiet_bind; [apply IH|]. intros rest. apply quiet_ret.
Qed.

Lemma prints_at_most_while {S R} line (body : S → M (World Node) (Iter S R)) fuel st :
  (∀ st w,
     match body st w with
     | (Ret (Break _), w') =>
         stdout w' = stdout w ∨ stdout w' = stdout w ++ [line]
     | (_, w') => stdout w' = stdout w
     end) →
  prints_at_most line (while body fuel st).
Proof.
  intros Hbody. revert st. induction fuel as [|fuel IH]; intros st w; [by left|].
  cbn [while]. unfold bind. specialize (Hbody st w).
  destruct (body st w) as [[[st'|r]| |] w']; simpl.
  - destruct (IH st' w') as [Hq|[Hp Hr]]; [left|right].
    + by rewrite Hq.
    + by rewrite Hp, Hbody.
  - destruct Hbody as [Hq|Hp]; [by left|right]. eauto.
  - by left.
  - by left.
Qed.

Lemma mh_body_console num_samples (st : MHState Node) (w : World Node) :
  match mh_body num_samples st w with
  | (Ret (Break _), w') =>
      stdout w' = stdout w ∨
      stdout w' = stdout w ++ ["No neighbors to move to. Sampling stopped."]
  | (_, w') => stdout w' = stdout w
  end.
Proof.
  unfold mh_body. case_decide; [|by left].
  unfold bind at 1. pose proof (quiet_G_neighbors (mh_current st) w) as Hq.
  destruct (G_neighbors (mh_current st) w) as [[[|x nbrs]| |] w1]; simpl in Hq;
    [by right; rewrite <-Hq| |done..].
  set (rest := bind _ _).
  assert (quiet rest) as Hrest.
  { apply quiet_bind; [apply quiet_random_choice|]. intros next_node.
    apply quiet_bind; [apply quiet_G_degree|]. intros dc.
    apply quiet_bind; [apply quiet_G_degree|]. intros dn.
    apply quiet_bind; [apply quiet_true_div|]. intros q.
    apply quiet_bind; [by intros ?|]. intros r.
    destruct (r ?= _)%Q; apply quiet_ret. }
  specialize (Hrest w1). rewrite Hq in Hrest.
  destruct (rest w1) as [[[?|?]| |] w2]; simpl in *; auto.
Qed.

Lemma rw_body_console num_samples (st : RWState Node) (w : World Node) :
  match rw_body num_samples st w with
  | (Ret (Break _), w') =>
      stdout w' = stdout w ∨
      stdout w' = stdout w ++ ["No neighbors to move to. Sampling stopped."]
  | (_, w') => stdout w' = stdout w
  end.
Proof.
  unfold rw_body. case_decide; [|by left].
  unfold bind at 1. pose proof (quiet_G_neighbors (rw_current st) w) as Hq.
  destruct (G_neighbors (rw_current st) w) as [[[|x nbrs]| |] w1]; simpl in Hq;
    [by right; rewrite <-Hq| |done..].
  set (rest := bind _ _).
  assert (quiet rest) as Hrest.
  { apply quiet_bind; [apply quiet_random_choice|]. intros next_node.
    apply quiet_ret. }
  specialize (Hrest w1). rewrite Hq in Hrest.
  destruct (rest w1) as [[[?|?]| |] w2]; simpl in *; auto.
Qed.

(** X15. The sampler writes to the console in one place only: the two
    walks print the dead-end line, at most once in a call, and a call that
    printed it returns.  The other seven methods print nothing, whatever
    their arguments and whether they return, raise or are still running. *)
Theorem sampler_console_output :
  (∀ fuel (start_node : Node) num_samples,
     prints_at_most "No neighbors to move to. Sampling stopped."
       (metropolis_hastings_sampling fuel start_node num_samples)) ∧
  (∀ fuel (start_node : Node) num_samples,
     prints_at_most "No neighbors to move to. Sampling stopped."
       (random_walk_sampling fuel start_node num_samples)) ∧
  (∀ (initial_nodes : list Node) sample_size expand_depth,
     quiet (snowball_sampling initial_nodes sample_size expand_depth)) ∧
  (∀ fuel (initial_node : Node) sample_size,
     quiet (depth_first_sampling fuel initial_node sample_size)) ∧
  (∀ fuel (initial_nodes : list Node) sample_size,
     quiet (breadth_first_sampling fuel initial_nodes sample_size)) ∧
  (∀ sample_size, quiet (random_edge_sampling (Node:=Node) sample_size)) ∧
  (∀ sample_size, quiet (induced_edge_sampling (Node:=Node) sample_size)) ∧
  (∀ sample_size, quiet (random_node_sampling (Node:=Node) sample_size)) ∧
  (∀ sample_size, quiet (degree_based_node_sampling (Node:=Node) sample_size)).
Proof.
  repeat split; intros.
  - apply prints_at_most_while. apply mh_body_console.
  - apply prints_at_most_while. apply rw_body_console.
  - apply quiet_bind; [apply quiet_snowball_rounds|]. intros s. apply quiet_picks.
  - apply quiet_bind; [apply quiet_while, quiet_dfs_body|]. intros s.
    apply quiet_picks.
  - apply quiet_bind; [apply quiet_while, quiet_bfs_body|]. intros s.
    apply quiet_picks.
  - apply quiet_bind; [by intros ?|]. intros es.
    apply quiet_bind; [apply quiet_picks|]. intros es'. apply quiet_ret.
  - apply quiet_bind; [by intros ?|]. intros ns.
    apply quiet_bind; [apply quiet_picks|]. intros ns'. apply quiet_induced_scan.
  - apply quiet_bind; [by intros ?|]. intros ns. unfold random_sample.
    case_decide; [apply quiet_picks|apply quiet_raise].
  - apply quiet_bind; [by intros ?|]. intros ns.
    apply quiet_bind; [|intros ?; apply quiet_ret].
    apply quiet_bind; [apply quiet_with_keys|]. intros keyed. apply quiet_ret.
Qed.

(** ** BipartiteGraphAnalyzer.plot_degree_correlation *)

Lemma degrees_of_run (neighbors : list Node) w :
  (∀ m, m ∈ neighbors → m ∈ nodes (graph w)) →
  degrees_of neighbors w =
    (Ret ((λ m, default 0 (degree (graph w) m)) <$> neighbors), w).
Proof.
  induction neighbors as [|m rest IH]; intros Hin; [done|].
  cbn [degrees_of]. unfold bind.
  destruct (degree_is_Some (graph w) m) as [d Hd]; [apply Hin; constructor|].
  unfold G_degree at 1. rewrite Hd.
  rewrite IH by (intros m' Hm'; apply Hin; by constructor).
  rewrite fmap_cons, Hd. done.
Qed.

Lemma py_sum_ge (xs : list Z) (acc : Z) :
  Forall (λ d, 1 ≤ d) xs → acc + Z.of_nat (length xs) ≤ foldl Z.add acc xs.
Proof.
  intros Hxs. revert acc. induction Hxs as [|d xs Hd _ IH]; intros acc.
  - simpl. lia.
  - cbn [foldl length]. specialize (IH (acc + d)). lia.
Qed.

Lemma neighbour_degree_pos g n m :
  wf_graph g → adjacent g n m → 1 ≤ default 0 (degree g m).
Proof.
  intros Hwf Hnm. apply (wf_graph_sym g n m Hwf) in Hnm.
  unfold adjacent in Hnm. destruct (adj g m) as [l|] eqn:Hl; [|done].
  destruct (degree_pos g m l Hl) as (d & Hd & Hpos).
  { intros ->. by apply elem_of_nil in Hnm. }
  rewrite Hd. simpl. lia.
Qed.

Lemma has_neighbour_adj g n :
  has_neighbour g n ↔ ∃ m l, adj g n = Some (m :: l).
Proof.
  unfold has_neighbour, adjacent. split.
  - intros [m Hm]. destruct (adj g n) as [[|m' l]|]; [|by eauto|done].
    by apply elem_of_nil in Hm.
  - intros (m & l & ->). exists m. constructor.
Qed.

Lemma degree_correlations_run (order : list Node) (correlations : list (Z * Q)) w :
  wf_graph (graph w) →
  (∀ n, n ∈ order → n ∈ nodes (graph w)) →
  degree_correlations order correlations w =
    (Ret (correlations ++
          (correlation_point (graph w) <$> filter (has_neighbour (graph w)) order)),
     w).
Proof.
  intros Hwf. revert correlations.
  induction order as [|n rest IH]; intros acc Hin.
  - simpl. by rewrite app_nil_r.
  - cbn [degree_correlations]. unfold bind.
    destruct (proj2 (adj_is_Some (graph w) n)) as [l Hl]; [apply Hin; constructor|].
    unfold G_neighbors at 1. rewrite Hl.
    rewrite degrees_of_run.
    2:{ intros m Hm. apply (adjacent_node_r (graph w) n m Hwf).
        unfold adjacent. by rewrite Hl. }
    assert (∀ n', n' ∈ rest → n' ∈ nodes (graph w)) as Hrest.
    { intros n' Hn'. apply Hin. by constructor. }
    destruct l as [|m l].
    + cbn [fmap list_fmap].
      rewrite filter_cons_False.
      2:{ intros (m & l & Hml)%has_neighbour_adj. congruence. }
      by apply IH.
    + rewrite fmap_cons.
      destruct (degree_is_Some (graph w) n) as [d Hd]; [apply Hin; constructor|].
      unfold G_degree at 1. rewrite Hd.
      unfold true_div. rewrite decide_False by (simpl; lia).
      unfold ret at 1. cbv beta iota.
      rewrite IH by done.
      rewrite filter_cons_True by (apply has_neighbour_adj; eauto).
      rewrite <- app_assoc. cbn [app].
      replace (correlation_point (graph w) <$>
               n :: filter (has_neighbour (graph w)) rest)
        with (correlation_point (graph w) n ::
              (correlation_point (graph w) <$>
               filter (has_neighbour (graph w)) rest)) by done.
      unfold correlation_point at 2. rewrite Hl, Hd. done.
Qed.

Lemma correlation_point_ge_one g n :
  wf_graph g → has_neighbour g n →
  1 ≤ (correlation_point g n).1 ∧ (1 <= (correlation_point g n).2)%Q.
Proof.
  intros Hwf Hn. pose proof Hn as (m & l & Hl)%has_neighbour_adj.
  unfold correlation_point. rewrite Hl. cbn [default fst snd]. unfold id. split.
  - destruct (degree_pos g n (m :: l) Hl) as (d & -> & Hd); [done|]. simpl. lia.
  - set (ds := (λ m0, default 0 (degree g m0)) <$> m :: l).
    assert (Forall (λ d, 1 ≤ d) ds) as Hds.
    { apply Forall_fmap, Forall_forall. intros m' Hm'. simpl.
      apply (neighbour_degree_pos g n m' Hwf). unfold adjacent. by rewrite Hl. }
    pose proof (py_sum_ge ds 0 Hds) as Hsum.
    assert (0 < Z.of_nat (length ds)) as Hlen.
    { unfold ds. rewrite length_fmap. simpl. lia. }
    apply round_binary64_ge_1, Qle_shift_div_l.
    + change 0%Q with (inject_Z 0). by rewrite <- Zlt_Qlt.
    + rewrite Qmult_1_l. rewrite <- Zle_Qle. exact Hsum.
Qed.

(** X16. On a well-formed graph that has the top nodes,
    [plot_degree_correlation] collects its points without an error: no key
    is missing and no mean divides by zero.  There is one point for every top
    node that has a neighbour, in the order of the iteration, and none for
    the others; both coordinates of a point, the node's degree and the mean
    degree of its neighbours as the float division returns it, are at least
    1.  The world is left as it was. *)
Theorem degree_correlations_one_point_per_connected_top_node
    (top_nodes : list Node) w :
  wf_graph (graph w) →
  (∀ n, n ∈ top_nodes → n ∈ nodes (graph w)) →
  ∃ correlations,
    degree_correlations top_nodes [] w = (Ret correlations, w) ∧
    correlations =
      correlation_point (graph w) <$> filter (has_neighbour (graph w)) top_nodes ∧
    Forall (λ p, 1 ≤ p.1 ∧ (1 <= p.2)%Q) correlations.
Proof.
  intros Hwf Hin. eexists. split; [|split; [reflexivity|]].
  - by rewrite degree_correlations_run.
  - apply Forall_fmap, Forall_forall. intros n [Hn _]%list_elem_of_filter.
    by apply correlation_point_ge_one.
Qed.

(** X17. On a well-formed graph that has the top nodes,
    [plot_degree_correlation] returns and leaves the graph alone.  When no
    top node has a neighbour it prints the line "No degree correlation data
    available." and draws nothing; otherwise it prints nothing and draws one
    figure: the scatter of the points of the top nodes that have a
    neighbour, taken in the order the set is iterated, then title, axis
    labels, grid and show. *)
Theorem plot_degree_correlation_draws_or_reports
    (top_nodes : PySet Node) (pw : PlotWorld Node) :
  wf_graph (graph (py_world pw)) →
  (∀ n, n ∈ top_nodes → n ∈ nodes (graph (py_world pw))) →
  ∃ order pw',
    order ≡ₚ top_nodes ∧
    plot_degree_correlation top_nodes pw = (Ret (), pw') ∧
    graph (py_world pw') = graph (py_world pw) ∧
    let G := graph (py_world pw) in
    match filter (has_neighbour G) order with
    | [] =>
        (∀ n, n ∈ top_nodes → adj G n = Some []) ∧
        figure pw' = figure pw ∧
        stdout (py_world pw') =
          stdout (py_world pw) ++ ["No degree correlation data available."]
    | connected_top =>
        figure pw' =
          figure pw ++
          [Scatter ((λ n, (correlation_point G n).1) <$> connected_top)
                   ((λ n, (correlation_point G n).2) <$> connected_top)
                   (round_binary64 (6 # 10)) "orange";
           Title "Degree Correlation (Top vs Bottom Nodes)";
           XLabel "Degree of Top Node";
           YLabel "Average Degree of Connected Bottom Nodes";
           Grid true;
           Show] ∧
        stdout (py_world pw') = stdout (py_world pw)
    end.
Proof.
  intros Hwf Hin. destruct pw as [w fig]. cbn [py_world figure] in *.
  destruct (hoare_set_iter (graph w) top_nodes w eq_refl) as [Hg Hperm].
  pose proof (quiet_picks (length top_nodes) top_nodes w) as Hout.
  change (picks (length top_nodes) top_nodes) with (set_iter top_nodes) in Hout.
  destruct (set_iter top_nodes w) as [[order| |] w1] eqn:Hiter; try done.
  cbn [fst snd rets] in *.
  assert (∀ n, n ∈ order → n ∈ nodes (graph w1)) as Hin1.
  { intros n Hn. rewrite Hg. apply Hin. by rewrite <- Hperm. }
  assert (wf_graph (graph w1)) as Hwf1 by by rewrite Hg.
  pose proof (degree_correlations_run order [] w1 Hwf1 Hin1) as Hrun.
  cbn [app] in Hrun. rewrite Hg in Hrun.
  unfold plot_degree_correlation, bind.
  unfold lift at 1. cbn [py_world figure]. rewrite Hiter.
  unfold lift at 1. cbn [py_world figure]. rewrite Hrun.
  destruct (filter (has_neighbour (graph w)) order) as [|n rest] eqn:Hfilter.
  - exists order. eexists. split; [done|]. split; [reflexivity|].
    cbn [py_world figure lift print graph stdout fst snd]. split; [done|].
    rewrite Hfilter. split; [|by rewrite Hout].
    intros n Hn.
    destruct (proj2 (adj_is_Some (graph w) n) (Hin n Hn)) as [[|m l] Hl]; [done|].
    assert (n ∈ filter (has_neighbour (graph w)) order) as Habs.
    { apply list_elem_of_filter. split; [apply has_neighbour_adj; eauto|].
      by rewrite Hperm. }
    rewrite Hfilter in Habs. by apply elem_of_nil in Habs.
  - exists order. eexists. split; [done|]. split; [reflexivity|].
    cbn [py_world figure plt graph stdout fst snd]. split; [done|].
    rewrite Hfilter. split; [|done].
    rewrite <- !app_assoc. cbn [app]. by rewrite <- !list_fmap_compose.
Qed.

(** * When the walks return *)

Lemma consumed_0 w : consumed 0 w = w.
Proof. destruct w. unfold consumed. simpl. by rewrite Nat.add_0_r. Qed.

Lemma consumed_consumed (a b : nat) w :
  consumed b (consumed a w) = consumed (a + b) w.
Proof. unfold consumed. simpl. by rewrite Nat.add_assoc. Qed.

Lemma next_answers_nil w : next_answers [] w.
Proof. by intros i a. Qed.

Lemma next_answers_app (answers1 answers2 : list Z) w :
  next_answers (answers1 ++ answers2) w →
  next_answers answers1 w ∧
  next_answers answers2 (consumed (length answers1) w).
Proof.
  intros Hnext. split.
  - intros i a Hi. apply Hnext. by apply lookup_app_l_Some.
  - intros i a Hi. cbn [consumed draws cursor]. rewrite <- Nat.add_assoc.
    apply Hnext. rewrite lookup_app_r by lia.
    by replace (length answers1 + i - length answers1)%nat with i by lia.
Qed.

Lemma next_answers_answering (answers : list Z) (G : Graph Node) (c : nat) out :
  next_answers answers (mkWorld G (answering answers c) c out).
Proof.
  intros i a Hi. cbn [draws cursor]. unfold answering.
  replace (c + i - c)%nat with i by lia. by apply nth_lookup_Some.
Qed.

(** More nodes than [visited] has can be reached: one of them is not in
    [visited]. *)
Lemma reaches_fresh_node G start_node k (visited : list Node) :
  reaches_at_least G start_node k →
  Z.of_nat (length visited) < k →
  ∃ n, (n ∉ visited) ∧ rtc (adjacent G) start_node n.
Proof.
  intros (l & Hnd & Hlen & Hreach) Hlt.
  destruct (decide (Forall (λ n, n ∈ visited) l)) as [Hall|Hsome].
  - assert (l ⊆+ visited) as Hsub.
    { apply NoDup_submseteq; [done|]. by apply Forall_forall. }
    apply submseteq_length in Hsub. lia.
  - apply not_Forall_Exists in Hsome; [|apply _].
    apply Exists_exists in Hsome as (n & Hn & Hnin).
    exists n. split; [done|by apply Hreach].
Qed.

Lemma rtc_adjacent_sym G u v :
  wf_graph G → rtc (adjacent G) u v → rtc (adjacent G) v u.
Proof.
  intros Hwf Hpath. induction Hpath as [|x y z Hxy _ IH]; [done|].
  eapply rtc_r; [done|]. by apply wf_graph_sym.
Qed.

Section Walk.
Local Set Default Proof Using "All".
Context {St : Type} (body : St → M (World Node) (Iter St (Graph Node))).
Context (sampled : St → Graph Node) (current : St → Node).
Context (G : Graph Node) (start_node : Node) (num_samples : Z).
Context (I : St → Prop).

Hypothesis G_wf : wf_graph G.
Hypothesis I_rooted : ∀ st, I st → rooted start_node (sampled st).
Hypothesis I_walk :
  ∀ st, I st → walk_inv G start_node num_samples (sampled st) (current st).
Hypothesis body_exit :
  ∀ st w, ¬ number_of_nodes (sampled st) < num_samples →
          body st w = (Ret (Break (sampled st)), w).
Hypothesis body_move :
  ∀ st next_node,
    I st → number_of_nodes (sampled st) < num_samples →
    adjacent G (current st) next_node →
    ∃ answers st',
      (∀ w, graph w = G → next_answers answers w →
            body st w = (Ret (Continue st'), consumed (length answers) w)) ∧
      I st' ∧ current st' = next_node ∧
      (∀ n, n ∈ nodes (sampled st) → n ∈ nodes (sampled st')).
Hypothesis body_continues :
  ∀ st w,
    I st → graph w = G → number_of_nodes (sampled st) < num_samples →
    has_neighbour G (current st) →
    ∃ st' w', body st w = (Ret (Continue st'), w') ∧ graph w' = G ∧ I st'.

(** [passes] passes of the loop lead from [st] to [st'], consuming
    [answers]. *)
Definition leads (st : St) (answers : list Z) (passes : nat) (st' : St) : Prop :=
  ∀ w fuel,
    graph w = G → next_answers answers w →
    while body (passes + fuel) st w
    = while body fuel st' (consumed (length answers) w).

Lemma leads_refl st : leads st [] 0 st.
Proof. intros w fuel _ _. by rewrite consumed_0. Qed.

Lemma leads_trans st1 answers1 passes1 st2 answers2 passes2 st3 :
  leads st1 answers1 passes1 st2 → leads st2 answers2 passes2 st3 →
  leads st1 (answers1 ++ answers2) (passes1 + passes2) st3.
Proof.
  intros H1 H2 w fuel Hw [Hn1 Hn2]%next_answers_app.
  rewrite <- Nat.add_assoc, (H1 w) by done.
  rewrite (H2 (consumed (length answers1) w)) by done.
  by rewrite consumed_consumed, length_app.
Qed.

Lemma nodes_reachable st n :
  I st → n ∈ nodes (sampled st) →
  rtc (adjacent G) start_node n ∧ rtc (adjacent G) n start_node.
Proof.
  intros Hst Hn. destruct (I_rooted st Hst) as [_ Hroot].
  destruct (I_walk st Hst) as ((_ & _ & Hadj) & _).
  destruct (Hroot n Hn) as [Hto Hfrom].
  split; eapply rtc_subrel; eauto.
Qed.

Lemma count_grows st st' n :
  I st → I st' →
  (∀ m, m ∈ nodes (sampled st) → m ∈ nodes (sampled st')) →
  n ∉ nodes (sampled st) → n ∈ nodes (sampled st') →
  number_of_nodes (sampled st) < number_of_nodes (sampled st').
Proof.
  intros Hst Hst' Hsub Hnin Hin.
  destruct (I_walk st Hst) as (([Hnd _] & _) & _).
  destruct (I_walk st' Hst') as (([Hnd' _] & _) & _).
  assert (n :: nodes (sampled st) ⊆+ nodes (sampled st')) as Hle.
  { apply NoDup_submseteq; [by constructor|].
    intros m [->|Hm]%elem_of_cons; auto. }
  apply submseteq_length in Hle. unfold number_of_nodes, nodes in *.
  cbn [length] in Hle. rewrite !length_fmap in Hle. lia.
Qed.

(** The walk can follow any path of [G]: it arrives, unless the sample is
    full before. *)
Lemma walk_along_path st n :
  rtc (adjacent G) (current st) n → I st →
  ∃ answers passes st',
    leads st answers passes st' ∧ I st' ∧
    (∀ m, m ∈ nodes (sampled st) → m ∈ nodes (sampled st')) ∧
    (¬ number_of_nodes (sampled st') < num_samples ∨ n ∈ nodes (sampled st')).
Proof.
  intros Hpath. remember (current st) as c eqn:Hc. revert st Hc.
  induction Hpath as [c|c x n Hcx _ IH]; intros st -> Hst.
  - exists [], 0%nat, st. split; [apply leads_refl|]. split; [done|].
    split; [done|]. right. by destruct (I_walk st Hst) as (_ & _ & ? & _).
  - destruct (decide (number_of_nodes (sampled st) < num_samples)) as [Hlt|Hfull].
    2:{ exists [], 0%nat, st. split; [apply leads_refl|]. by auto. }
    destruct (body_move st x Hst Hlt Hcx) as (answers1 & st1 & Hbody & Hst1 & Hcur & Hsub1).
    destruct (IH st1 (eq_sym Hcur) Hst1) as (answers2 & passes & st' & Hleads & Hst' & Hsub2 & Hend).
    exists (answers1 ++ answers2), (1 + passes)%nat, st'.
    split; [|split; [done|split; [by auto|done]]].
    apply (leads_trans st answers1 1 st1); [|done].
    intros w fuel Hw Hnext. cbn [Nat.add while]. unfold bind at 1.
    by rewrite (Hbody w Hw Hnext).
Qed.

(** If [num_samples] nodes can be reached, some answers of the environment
    fill the sample. *)
Lemma walk_fills_sample st :
  I st → reaches_at_least G start_node num_samples →
  ∃ answers passes st',
    leads st answers passes st' ∧ I st' ∧
    ¬ number_of_nodes (sampled st') < num_samples.
Proof.
  intros Hst Hreach.
  remember (Z.to_nat (num_samples - number_of_nodes (sampled st))) as missing
    eqn:Hmissing.
  revert st Hst Hmissing.
  induction (lt_wf missing) as [missing _ IH]; intros st Hst ->.
  destruct (decide (number_of_nodes (sampled st) < num_samples)) as [Hlt|Hfull].
  2:{ exists [], 0%nat, st. split; [apply leads_refl|]. done. }
  destruct (reaches_fresh_node G start_node num_samples (nodes (sampled st)))
    as (n & Hnew & Hn); [done| |].
  { unfold number_of_nodes, nodes in *. by rewrite length_fmap. }
  assert (rtc (adjacent G) (current st) n) as Hpath.
  { etrans; [|done]. apply (nodes_reachable st); [done|].
    by destruct (I_walk st Hst) as (_ & _ & ? & _). }
  destruct (walk_along_path st n Hpath Hst)
    as (answers1 & passes1 & st1 & Hleads1 & Hst1 & Hsub & Hend).
  destruct Hend as [Hfull|Hin].
  { by exists answers1, passes1, st1. }
  pose proof (count_grows st st1 n Hst Hst1 Hsub Hnew Hin) as Hgrow.
  destruct (IH (Z.to_nat (num_samples - number_of_nodes (sampled st1)))
              ltac:(lia) st1 Hst1 eq_refl)
    as (answers2 & passes2 & st2 & Hleads2 & Hst2 & Hfull).
  exists (answers1 ++ answers2), (passes1 + passes2)%nat, st2.
  split; [by eapply leads_trans|done].
Qed.

(** If [num_samples] nodes can be reached from the start node, the walk
    started in [st] returns for some answers of the environment, and what it
    returns has [max(num_samples, 1)] nodes. *)
Lemma walk_can_return st c out :
  I st → reaches_at_least G start_node num_samples →
  ∃ answers fuel g w',
    while body fuel st (mkWorld G answers c out) = (Ret g, w') ∧
    number_of_nodes g = Z.max 1 num_samples.
Proof.
  intros Hst Hreach.
  destruct (walk_fills_sample st Hst Hreach)
    as (answers & passes & st' & Hleads & Hst' & Hfull).
  exists (answering answers c), (passes + 1)%nat, (sampled st').
  eexists. split.
  - rewrite (Hleads (mkWorld G (answering answers c) c out) 1%nat eq_refl)
      by apply next_answers_answering.
    cbn [while]. unfold bind. by rewrite body_exit.
  - destruct (I_walk st' Hst') as (_ & Hsize & Hcur & _).
    assert (1 ≤ number_of_nodes (sampled st')); [|lia].
    unfold number_of_nodes, nodes in *.
    destruct (sampled st'); [by apply elem_of_nil in Hcur|]. simpl. lia.
Qed.

(** If the start node has a neighbour and fewer than [num_samples] nodes
    can be reached from it, the walk never returns. *)
Lemma walk_never_returns st w fuel :
  I st → graph w = G →
  has_neighbour G start_node → ¬ reaches_at_least G start_node num_samples →
  (while body fuel st w).1 = OutOfFuel.
Proof.
  intros Hst Hw Hstart Hfew. revert st w Hst Hw.
  induction fuel as [|fuel IH]; intros st w Hst Hw; [done|].
  destruct (I_walk st Hst) as (([Hnd _] & _) & _ & _ & Hnb).
  assert (number_of_nodes (sampled st) < num_samples) as Hlt.
  { destruct (decide (number_of_nodes (sampled st) < num_samples)); [done|].
    destruct Hfew. exists (nodes (sampled st)). split; [done|]. split.
    - unfold number_of_nodes, nodes in *. rewrite length_fmap. lia.
    - intros m Hm. by apply (nodes_reachable st). }
  destruct (body_continues st w Hst Hw Hlt (Hnb Hstart))
    as (st' & w' & Hbody & Hw' & Hst').
  cbn [while]. unfold bind at 1. rewrite Hbody. by apply IH.
Qed.

End Walk.

(** ** The two walks as instances *)

Lemma random_choice_at {A} (l : list A) (i : nat) (x : A) w :
  l !! i = Some x → draws w (cursor w) = Z.of_nat i →
  random_choice l w = (Ret x, consumed 1 w).
Proof.
  intros Hi Hdraw. pose proof (lookup_lt_Some _ _ _ Hi) as Hlt.
  destruct l as [|y l]; [done|].
  unfold random_choice, bind, randbelow, ret, consumed.
  rewrite Hdraw, Z.mod_small, Nat2Z.id by lia.
  by rewrite (nth_lookup_Some _ _ _ _ Hi), Nat.add_1_r.
Qed.

Lemma random_random_at w :
  draws w (cursor w) = 0 → random_random w = (Ret (0 # 2 ^ 53), consumed 1 w).
Proof.
  intros Hdraw. unfold random_random, consumed. by rewrite Hdraw, Nat.add_1_r.
Qed.

Lemma neighbour_degree G u v :
  wf_graph G → adjacent G u v → ∃ d, degree G v = Some d ∧ 0 < d.
Proof.
  intros Hwf Huv. apply (wf_graph_sym G u v Hwf) in Huv.
  unfold adjacent in Huv. destruct (adj G v) as [l|] eqn:Hl; [|done].
  apply (degree_pos G v l Hl). intros ->. by apply elem_of_nil in Huv.
Qed.

(** With the answers [i] and 0 the pass proposes the [i]-th neighbour and
    accepts it: the draw 0 is below every ratio. *)
Lemma mh_body_move G start_node num_samples (st : MHState Node) next_node :
  wf_graph G →
  mh_walk_inv G start_node num_samples st →
  number_of_nodes (mh_sampled st) < num_samples →
  adjacent G (mh_current st) next_node →
  ∃ answers st',
    (∀ w, graph w = G → next_answers answers w →
          mh_body num_samples st w
          = (Ret (Continue st'), consumed (length answers) w)) ∧
    mh_walk_inv G start_node num_samples st' ∧ mh_current st' = next_node ∧
    (∀ n, n ∈ nodes (mh_sampled st) → n ∈ nodes (mh_sampled st')).
Proof.
  intros Hwf [Hinv Hwalk] Hlt Hadj.
  pose proof Hadj as Hnbrs. unfold adjacent in Hnbrs.
  destruct (adj G (mh_current st)) as [neighbors|] eqn:Hcur; [|done].
  apply list_elem_of_lookup in Hnbrs as [i Hi].
  destruct (degree_pos G _ _ Hcur) as (dc & Hdc & Hdcpos).
  { intros ->. done. }
  destruct (neighbour_degree G _ _ Hwf Hadj) as (dn & Hdn & Hdnpos).
  exists [Z.of_nat i; 0], (mh_accept st next_node).
  split; [|split; [split|split]].
  - intros w Hw Hnext.
    pose proof (Hnext 0%nat _ eq_refl) as Hd0. rewrite Nat.add_0_r in Hd0.
    pose proof (Hnext 1%nat _ eq_refl) as Hd1.
    unfold mh_body. rewrite decide_True by done.
    unfold bind at 1. unfold G_neighbors at 1. rewrite Hw, Hcur.
    destruct neighbors as [|y neighbors]; [done|].
    unfold bind at 1. rewrite (random_choice_at _ i next_node) by done.
    unfold bind at 1. unfold G_degree at 1. cbn [consumed graph].
    rewrite Hw, Hdc.
    unfold bind at 1. unfold G_degree at 1. cbn [consumed graph]. rewrite Hw, Hdn.
    unfold bind at 1. unfold true_div. rewrite decide_False by lia.
    unfold ret at 1.
    unfold bind at 1. rewrite random_random_at by (cbn [draws cursor]; done).
    assert ((0 # 2 ^ 53 ?= Qmin 1 (round_binary64 (inject_Z dn / inject_Z dc)))%Q
            = Lt) as ->.
    { apply Qlt_alt, Q.min_glb_lt; [done|].
      apply Qle_lt_trans with 0%Q; [done|]. apply round_binary64_pos.
      apply Qlt_shift_div_l.
      - change 0%Q with (inject_Z 0). by rewrite <- Zlt_Qlt.
      - rewrite Qmult_0_l. change 0%Q with (inject_Z 0). by rewrite <- Zlt_Qlt. }
    unfold ret. f_equal. unfold consumed. cbn [graph draws cursor stdout length].
    f_equal. lia.
  - apply mh_inv_accept; [done|]. by eapply adjacent_node_r.
  - by apply walk_inv_hang.
  - done.
  - intros n Hn. cbn [mh_accept mh_sampled].
    apply nodes_add_edge. left. apply nodes_add_node. by left.
Qed.

Lemma mh_body_continues G start_node num_samples (st : MHState Node) w :
  wf_graph G →
  mh_walk_inv G start_node num_samples st → graph w = G →
  number_of_nodes (mh_sampled st) < num_samples →
  has_neighbour G (mh_current st) →
  ∃ st' w',
    mh_body num_samples st w = (Ret (Continue st'), w') ∧ graph w' = G ∧
    mh_walk_inv G start_node num_samples st'.
Proof.
  intros Hwf [Hinv Hwalk] Hw Hlt [m Hm].
  destruct (hoare_conj G _ _ _
              (hoare_mh_body G start_node num_samples st Hwf Hinv)
              (hoare_mh_body_walk G start_node num_samples st Hwf Hwalk) w Hw)
    as [Hg [Hr1 Hr2]].
  assert (∀ g, (mh_body num_samples st w).1 ≠ Ret (Break g)) as Hgo.
  { intros g. unfold mh_body. rewrite decide_True by done.
    unfold adjacent in Hm. rewrite <- Hw in Hm.
    unfold bind at 1. unfold G_neighbors at 1.
    destruct (adj (graph w) (mh_current st)) as [[|x l]|];
      [by apply elem_of_nil in Hm| |done].
    unfold bind.
    repeat match goal with
           | |- context [match ?c ?w with _ => _ end] =>
               destruct (c w) as [[?| |] ?]; try done
           end.
    destruct (_ ?= _)%Q; done. }
  destruct (mh_body num_samples st w) as [[[st'|g]| |] w'];
    cbn [fst snd rets] in *; try done.
  - by exists st', w'.
  - by destruct (Hgo g).
Qed.

Lemma mh_body_exit num_samples (st : MHState Node) w :
  ¬ number_of_nodes (mh_sampled st) < num_samples →
  mh_body num_samples st w = (Ret (Break (mh_sampled st)), w).
Proof. intros Hfull. unfold mh_body. by rewrite decide_False. Qed.

Lemma mh_walk_inv_init G (start_node : Node) num_samples :
  start_node ∈ nodes G →
  mh_walk_inv G start_node num_samples (mh_init start_node).
Proof. split; [by apply mh_inv_init|by apply walk_inv_init]. Qed.

Lemma mh_can_return G (start_node : Node) num_samples c out :
  wf_graph G → start_node ∈ nodes G →
  reaches_at_least G start_node num_samples →
  ∃ answers fuel g w',
    metropolis_hastings_sampling fuel start_node num_samples
      (mkWorld G answers c out) = (Ret g, w') ∧
    number_of_nodes g = Z.max 1 num_samples.
Proof.
  intros Hwf Hstart Hreach. unfold metropolis_hastings_sampling.
  apply (walk_can_return (mh_body num_samples) mh_sampled mh_current
           G start_node num_samples (mh_walk_inv G start_node num_samples));
    try done.
  - by intros st [[? _] _].
  - by intros st [_ ?].
  - intros st w. apply mh_body_exit.
  - intros st next_node. by apply mh_body_move.
  - intros st w. by apply mh_body_continues.
  - by apply mh_walk_inv_init.
Qed.

Lemma mh_never_returns G (start_node : Node) num_samples w fuel :
  wf_graph G → start_node ∈ nodes G → graph w = G →
  has_neighbour G start_node → ¬ reaches_at_least G start_node num_samples →
  (metropolis_hastings_sampling fuel start_node num_samples w).1 = OutOfFuel.
Proof.
  intros Hwf Hstart Hw Hnb Hfew. unfold metropolis_hastings_sampling.
  apply (walk_never_returns (mh_body num_samples) mh_sampled mh_current
           G start_node num_samples (mh_walk_inv G start_node num_samples));
    try done.
  - by intros st [[? _] _].
  - by intros st [_ ?].
  - intros st w1. apply mh_body_exit.
  - intros st next_node. by apply mh_body_move.
  - intros st w1. by apply mh_body_continues.
  - by apply mh_walk_inv_init.
Qed.

(** With the answer [i] the walk moves to the [i]-th neighbour. *)
Lemma rw_body_move G start_node num_samples (st : RWState Node) next_node :
  wf_graph G →
  rw_walk_inv G start_node num_samples st →
  number_of_nodes (rw_sampled st) < num_samples →
  adjacent G (rw_current st) next_node →
  ∃ answers st',
    (∀ w, graph w = G → next_answers answers w →
          rw_body num_samples st w
          = (Ret (Continue st'), consumed (length answers) w)) ∧
    rw_walk_inv G start_node num_samples st' ∧ rw_current st' = next_node ∧
    (∀ n, n ∈ nodes (rw_sampled st) → n ∈ nodes (rw_sampled st')).
Proof.
  intros Hwf [Hinv Hwalk] Hlt Hadj.
  pose proof Hadj as Hnbrs. unfold adjacent in Hnbrs.
  destruct (adj G (rw_current st)) as [neighbors|] eqn:Hcur; [|done].
  apply list_elem_of_lookup in Hnbrs as [i Hi].
  exists [Z.of_nat i], (rw_move st next_node).
  assert (∀ w, graph w = G → next_answers [Z.of_nat i] w →
               rw_body num_samples st w
               = (Ret (Continue (rw_move st next_node)), consumed 1 w)) as Hrun.
  { intros w Hw Hnext.
    pose proof (Hnext 0%nat _ eq_refl) as Hd0. rewrite Nat.add_0_r in Hd0.
    unfold rw_body. rewrite decide_True by done.
    unfold bind at 1. unfold G_neighbors at 1. rewrite Hw, Hcur.
    destruct neighbors as [|y neighbors]; [done|].
    unfold bind at 1. by rewrite (random_choice_at _ i next_node). }
  split; [done|].
  (* the invariants, from the pass in one world *)
  set (w := mkWorld G (answering [Z.of_nat i] 0) 0 []).
  pose proof (Hrun w eq_refl (next_answers_answering _ _ _ _)) as Hpass.
  destruct (hoare_rw_body G start_node num_samples st Hwf Hinv w eq_refl)
    as [_ Hr1].
  destruct Hinv as (_ & _ & _ & _ & Hvis & _).
  destruct (hoare_rw_body_walk G start_node num_samples st Hwf
              (conj Hwalk Hvis) w eq_refl) as [_ Hr2].
  rewrite Hpass in Hr1, Hr2. cbn [fst rets] in Hr1, Hr2.
  split; [split; [apply Hr1|apply Hr2]|]. split.
  - unfold rw_move. by case_decide.
  - intros n Hn. unfold rw_move. case_decide; cbn [rw_sampled]; [done|].
    apply nodes_add_edge. left. apply nodes_add_node. by left.
Qed.

Lemma rw_body_continues G start_node num_samples (st : RWState Node) w :
  wf_graph G →
  rw_walk_inv G start_node num_samples st → graph w = G →
  number_of_nodes (rw_sampled st) < num_samples →
  has_neighbour G (rw_current st) →
  ∃ st' w',
    rw_body num_samples st w = (Ret (Continue st'), w') ∧ graph w' = G ∧
    rw_walk_inv G start_node num_samples st'.
Proof.
  intros Hwf [Hinv Hwalk] Hw Hlt [m Hm].
  destruct (hoare_rw_body G start_node num_samples st Hwf Hinv w Hw) as [Hg Hr1].
  pose proof Hinv as (_ & _ & _ & _ & Hvis & _).
  destruct (hoare_rw_body_walk G start_node num_samples st Hwf
              (conj Hwalk Hvis) w Hw) as [_ Hr2].
  assert (∀ g, (rw_body num_samples st w).1 ≠ Ret (Break g)) as Hgo.
  { intros g. unfold rw_body. rewrite decide_True by done.
    unfold adjacent in Hm. rewrite <- Hw in Hm.
    unfold bind at 1. unfold G_neighbors at 1.
    destruct (adj (graph w) (rw_current st)) as [[|x l]|];
      [by apply elem_of_nil in Hm| |done].
    unfold bind. by destruct (random_choice _ _) as [[?| |] ?]. }
  destruct (rw_body num_samples st w) as [[[st'|g]| |] w'];
    cbn [fst snd rets] in *; try done.
  - exists st', w'. split; [done|]. split; [done|]. split; [apply Hr1|apply Hr2].
  - by destruct (Hgo g).
Qed.

Lemma rw_body_exit num_samples (st : RWState Node) w :
  ¬ number_of_nodes (rw_sampled st) < num_samples →
  rw_body num_samples st w = (Ret (Break (rw_sampled st)), w).
Proof. intros Hfull. unfold rw_body. by rewrite decide_False. Qed.

Lemma rw_walk_inv_init G (start_node : Node) num_samples :
  start_node ∈ nodes G →
  rw_walk_inv G start_node num_samples (rw_init start_node).
Proof. split; [by apply rw_inv_init|by apply walk_inv_init]. Qed.

Lemma rw_can_return G (start_node : Node) num_samples c out :
  wf_graph G → start_node ∈ nodes G →
  reaches_at_least G start_node num_samples →
  ∃ answers fuel g w',
    random_walk_sampling fuel start_node num_samples
      (mkWorld G answers c out) = (Ret g, w') ∧
    number_of_nodes g = Z.max 1 num_samples.
Proof.
  intros Hwf Hstart Hreach. unfold random_walk_sampling.
  apply (walk_can_return (rw_body num_samples) rw_sampled rw_current
           G start_node num_samples (rw_walk_inv G start_node num_samples));
    try done.
  - by intros st [(? & _) _].
  - by intros st [_ ?].
  - intros st w. apply rw_body_exit.
  - intros st next_node. by apply rw_body_move.
  - intros st w. by apply rw_body_continues.
  - by apply rw_walk_inv_init.
Qed.

Lemma rw_never_returns G (start_node : Node) num_samples w fuel :
  wf_graph G → start_node ∈ nodes G → graph w = G →
  has_neighbour G start_node → ¬ reaches_at_least G start_node num_samples →
  (random_walk_sampling fuel start_node num_samples w).1 = OutOfFuel.
Proof.
  intros Hwf Hstart Hw Hnb Hfew. unfold random_walk_sampling.
  apply (walk_never_returns (rw_body num_samples) rw_sampled rw_current
           G start_node num_samples (rw_walk_inv G start_node num_samples));
    try done.
  - by intros st [(? & _) _].
  - by intros st [_ ?].
  - intros st w1. apply rw_body_exit.
  - intros st next_node. by apply rw_body_move.
  - intros st w1. by apply rw_body_continues.
  - by apply rw_walk_inv_init.
Qed.

(** ** What the walks return, and when *)

(** A state the loop reaches is reached after some number of passes. *)
Lemma loop_reaches_while {St R} (body : St → M (World Node) (Iter St R))
    s0 w0 st w :
  loop_reaches body s0 w0 st w →
  ∃ passes, ∀ fuel, while body (passes + fuel) s0 w0 = while body fuel st w.
Proof.
  induction 1 as [|s w s' w' _ [passes IH] Hpass]; [by exists 0%nat|].
  exists (passes + 1)%nat. intros fuel.
  rewrite <- Nat.add_assoc, IH. cbn [Nat.add while]. unfold bind.
  by rewrite Hpass.
Qed.

(** A state in which the loop ends is returned, once the fuel allows the
    passes that lead to it. *)
Lemma loop_reaches_returns {St R} (body : St → M (World Node) (Iter St R))
    s0 w0 st w r w' :
  loop_reaches body s0 w0 st w → body st w = (Ret (Break r), w') →
  ∃ enough, ∀ fuel, (enough ≤ fuel)%nat → while body fuel s0 w0 = (Ret r, w').
Proof.
  intros [passes Hpasses]%loop_reaches_while Hbreak.
  exists (passes + 1)%nat. intros fuel Hfuel.
  replace fuel with (passes + S (fuel - passes - 1))%nat by lia.
  rewrite Hpasses. cbn [while]. unfold bind. by rewrite Hbreak.
Qed.

(** A pass that goes on has rejected, or accepted a neighbour. *)
Lemma mh_body_Continue num_samples (st st' : MHState Node) w w' :
  mh_body num_samples st w = (Ret (Continue st'), w') →
  st' = mh_reject st ∨
  ∃ next_node, adjacent (graph w) (mh_current st) next_node ∧
               st' = mh_accept st next_node.
Proof.
  unfold mh_body. case_decide; [|done].
  unfold bind at 1. unfold G_neighbors at 1.
  destruct (adj (graph w) (mh_current st)) as [[|x l]|] eqn:Hadj; [done| |done].
  unfold bind at 1.
  destruct (hoare_random_choice (graph w) (x :: l) ltac:(done) w eq_refl)
    as [_ Hnext].
  destruct (random_choice (x :: l) w) as [[next_node| |] w1]; [|done..].
  cbn [fst rets] in Hnext.
  unfold bind.
  repeat match goal with
         | |- context [match ?c ?w with _ => _ end] =>
             destruct (c w) as [[?| |] ?]; try done
         end.
  destruct (_ ?= _)%Q; intros [= <- _]; auto.
  right. exists next_node. split; [|done]. unfold adjacent. by rewrite Hadj.
Qed.

(** C10. Let [G] be a NetworkX graph and [start_node] one of its nodes; the
    target may be any integer, also zero or negative.
    - In every state the loop of [metropolis_hastings_sampling] reaches the
      sampled graph contains [start_node] and is connected.
    - A pass that goes on leaves the state as it is (a rejection), or it has
      accepted a neighbour in [G] of the current node: the current node was
      in the sample, the neighbour is the only node that may be new, and
      the edge between the two is the only edge that may be new.
    - The call raises nothing, and a graph it returns contains [start_node],
      so it is not empty, and is connected.
    - With a target of at most 1 the call returns the start node alone, in
      the world it was called in.
    - Once the loop reaches a state with [num_samples] nodes, the call
      returns the graph of that state.
    - When [num_samples] nodes can be reached from [start_node], the call
      returns for some answers of the environment, and the graph has
      [max(num_samples, 1)] nodes. *)
Theorem mh_sample_has_start_and_is_connected
    (start_node : Node) (num_samples : Z) (w0 : World Node) :
  wf_graph (graph w0) → start_node ∈ nodes (graph w0) →
  (∀ st w,
     loop_reaches (mh_body num_samples) (mh_init start_node) w0 st w →
     start_node ∈ nodes (mh_sampled st) ∧ connected (mh_sampled st)) ∧
  (∀ st w st' w',
     loop_reaches (mh_body num_samples) (mh_init start_node) w0 st w →
     mh_body num_samples st w = (Ret (Continue st'), w') →
     st' = st ∨
     (mh_current st ∈ nodes (mh_sampled st) ∧
      adjacent (graph w0) (mh_current st) (mh_current st') ∧
      (∀ n, n ∈ nodes (mh_sampled st') ↔
            n ∈ nodes (mh_sampled st) ∨ n = mh_current st') ∧
      (∀ a b, adjacent (mh_sampled st') a b ↔
              adjacent (mh_sampled st) a b ∨
              (a = mh_current st ∧ b = mh_current st') ∨
              (a = mh_current st' ∧ b = mh_current st)))) ∧
  (∀ fuel,
     match (metropolis_hastings_sampling fuel start_node num_samples w0).1 with
     | Ret g => start_node ∈ nodes g ∧ g ≠ [] ∧ connected g
     | Raise _ => False
     | OutOfFuel => True
     end) ∧
  (num_samples ≤ 1 →
   ∀ fuel, (0 < fuel)%nat →
     metropolis_hastings_sampling fuel start_node num_samples w0
     = (Ret [(start_node, [])], w0)) ∧
  (∀ st w,
     loop_reaches (mh_body num_samples) (mh_init start_node) w0 st w →
     num_samples ≤ number_of_nodes (mh_sampled st) →
     ∃ enough, ∀ fuel, (enough ≤ fuel)%nat →
       metropolis_hastings_sampling fuel start_node num_samples w0
       = (Ret (mh_sampled st), w)) ∧
  (reaches_at_least (graph w0) start_node num_samples →
   ∃ answers fuel g w',
     metropolis_hastings_sampling fuel start_node num_samples
       (mkWorld (graph w0) answers (cursor w0) (stdout w0)) = (Ret g, w') ∧
     number_of_nodes g = Z.max 1 num_samples ∧
     start_node ∈ nodes g ∧ connected g).
Proof.
  intros Hwf Hstart.
  split; [|split; [|split; [|split; [|split]]]].
  - intros st w Hreach.
    destruct (mh_reaches_inv (graph w0) start_node num_samples w0 st w)
      as [_ (Hroot & _)]; [done..|].
    split; [apply Hroot|by eapply rooted_connected].
  - intros st w st' w' Hreach Hpass.
    destruct (mh_reaches_inv (graph w0) start_node num_samples w0 st w)
      as [Hw Hinv]; [done..|].
    destruct (mh_body_Continue _ _ _ _ _ Hpass) as [->|(next_node & Hadj & ->)].
    { left. by eapply mh_reject_id. }
    right. destruct Hinv as (_ & Hcur & _). rewrite Hw in Hadj.
    cbn [mh_accept mh_sampled mh_current]. split; [done|]. split; [done|]. split.
    + intros n. rewrite nodes_add_edge, nodes_add_node. naive_solver.
    + intros a b. by rewrite adjacent_add_edge, adjacent_add_node.
  - intros fuel.
    destruct (hoare_metropolis_hastings_sampling (graph w0) fuel start_node
                num_samples Hwf Hstart w0 eq_refl) as [_ Hr].
    destruct (_.1) as [g| |]; simpl in Hr; try done.
    split; [apply Hr|]. split; [|by eapply rooted_connected].
    intros ->. destruct Hr as [[]%elem_of_nil _].
  - intros Hk fuel Hfuel. destruct fuel as [|fuel]; [lia|].
    unfold metropolis_hastings_sampling. cbn [while]. unfold bind.
    rewrite mh_body_exit; [done|].
    unfold mh_init, number_of_nodes. simpl. lia.
  - intros st w Hreach Hfull.
    apply (loop_reaches_returns _ _ _ _ _ _ _ Hreach).
    apply mh_body_exit. lia.
  - intros Hreach.
    destruct (mh_can_return (graph w0) start_node num_samples
                (cursor w0) (stdout w0) Hwf Hstart Hreach)
      as (answers & fuel & g & w' & Hrun & Hsize).
    exists answers, fuel, g, w'. split; [done|]. split; [done|].
    destruct (hoare_metropolis_hastings_sampling (graph w0) fuel start_node
                num_samples Hwf Hstart
                (mkWorld (graph w0) answers (cursor w0) (stdout w0)) eq_refl)
      as [_ Hr].
    rewrite Hrun in Hr. cbn [fst safe] in Hr.
    split; [apply Hr|by eapply rooted_connected].
Qed.

(** C2. Let [G] be a NetworkX graph, [start_node] one of its nodes and
    [num_samples] a target of at least 1.
    - Every pass of the loop of [random_walk_sampling] moves the walk to a
      neighbour in [G] of the node it was at.  If that destination is in
      [visited], the sampled graph and [visited] stay as they are; if not,
      the destination becomes the one new node of the sampled graph and the
      edge from the node the walk was at to the destination its one new edge.
    - In every state the loop reaches, and in the graph the call returns,
      the sampled graph is connected, has one edge less than it has nodes
      and at most [num_samples - 1] edges, and each of its edges is an edge
      of [G].  The call raises nothing.
    - Once the loop reaches a state with [num_samples] nodes, the call
      returns the graph of that state.
    - When [num_samples] nodes can be reached from [start_node], the call
      returns for some answers of the environment: a connected graph with
      [num_samples] nodes and [num_samples - 1] edges. *)
Theorem random_walk_sample_connected_and_small
    (start_node : Node) (num_samples : Z) (w0 : World Node) :
  wf_graph (graph w0) → start_node ∈ nodes (graph w0) → 1 ≤ num_samples →
  (∀ st w st' w',
     loop_reaches (rw_body num_samples) (rw_init start_node) w0 st w →
     rw_body num_samples st w = (Ret (Continue st'), w') →
     adjacent (graph w0) (rw_current st) (rw_current st') ∧
     if decide (rw_current st' ∈ rw_visited st)
     then rw_sampled st' = rw_sampled st ∧ rw_visited st' = rw_visited st
     else nodes (rw_sampled st') = nodes (rw_sampled st) ++ [rw_current st'] ∧
          edges (rw_sampled st') ≡ₚ
            (rw_current st, rw_current st') :: edges (rw_sampled st) ∧
          rw_visited st' = rw_visited st ++ [rw_current st']) ∧
  (∀ st w,
     loop_reaches (rw_body num_samples) (rw_init start_node) w0 st w →
     connected (rw_sampled st) ∧
     number_of_edges (rw_sampled st) = number_of_nodes (rw_sampled st) - 1 ∧
     number_of_edges (rw_sampled st) ≤ num_samples - 1 ∧
     (∀ a b, (a, b) ∈ edges (rw_sampled st) → adjacent (graph w0) a b)) ∧
  (∀ fuel,
     match (random_walk_sampling fuel start_node num_samples w0).1 with
     | Ret g =>
         connected g ∧
         number_of_edges g = number_of_nodes g - 1 ∧
         number_of_edges g ≤ num_samples - 1 ∧
         (∀ a b, (a, b) ∈ edges g → adjacent (graph w0) a b)
     | Raise _ => False
     | OutOfFuel => True
     end) ∧
  (∀ st w,
     loop_reaches (rw_body num_samples) (rw_init start_node) w0 st w →
     num_samples ≤ number_of_nodes (rw_sampled st) →
     ∃ enough, ∀ fuel, (enough ≤ fuel)%nat →
       random_walk_sampling fuel start_node num_samples w0
       = (Ret (rw_sampled st), w)) ∧
  (reaches_at_least (graph w0) start_node num_samples →
   ∃ answers fuel g w',
     random_walk_sampling fuel start_node num_samples
       (mkWorld (graph w0) answers (cursor w0) (stdout w0)) = (Ret g, w') ∧
     number_of_nodes g = num_samples ∧
     number_of_edges g = num_samples - 1 ∧
     connected g).
Proof.
  intros Hwf Hstart Hk.
  assert (∀ st w,
            loop_reaches (rw_body num_samples) (rw_init start_node) w0 st w →
            graph w = graph w0 ∧ rw_inv (graph w0) start_node num_samples st)
    as Hreaches.
  { intros st w Hreach.
    eapply (hoare_loop_reaches (graph w0) (rw_body num_samples)
              (rw_inv (graph w0) start_node num_samples) (λ _, True));
      [|done|by apply rw_inv_init|done].
    intros s Hs. eapply hoare_mono; [by apply hoare_rw_body|].
    intros o. apply rets_mono. intros [s'|g]; [by intros [? _]|done]. }
  split; [|split; [|split; [|split]]].
  - intros st w st' w' Hreach Hpass.
    destruct (Hreaches st w Hreach) as [Hw Hinv].
    destruct (hoare_rw_body (graph w0) start_node num_samples st Hwf Hinv w Hw)
      as [_ Hr].
    rewrite Hpass in Hr. destruct Hr as [_ (next_node & Hadj & ->)].
    destruct Hinv as (_ & Hwfs & Hcur & _ & Hvis & _).
    destruct (decide (next_node ∈ rw_visited st)) as [Hin|Hnin].
    + rewrite rw_move_visited by done. simpl. by rewrite decide_True.
    + rewrite rw_move_new by done. simpl. rewrite decide_False by done.
      assert (next_node ∉ nodes (rw_sampled st)) as Hnew by by rewrite <-Hvis.
      split; [done|]. split; [by apply nodes_add_edge_new|].
      split; [by apply edges_add_edge_new|done].
  - intros st w Hreach. destruct (Hreaches st w Hreach) as [_ Hinv].
    destruct (rw_inv_result _ _ _ _ Hinv) as (? & ? & ? & ?).
    repeat split; try done. lia.
  - intros fuel.
    destruct (hoare_random_walk_sampling (graph w0) fuel start_node num_samples
                Hwf Hstart w0 eq_refl) as [_ Hr].
    destruct (_.1) as [g| |]; simpl in Hr; try done.
    destruct Hr as (Hconn & Heq & Hedges & Hsub). repeat split; try done. lia.
  - intros st w Hreach Hfull.
    apply (loop_reaches_returns _ _ _ _ _ _ _ Hreach).
    apply rw_body_exit. lia.
  - intros Hreach.
    destruct (rw_can_return (graph w0) start_node num_samples
                (cursor w0) (stdout w0) Hwf Hstart Hreach)
      as (answers & fuel & g & w' & Hrun & Hsize).
    exists answers, fuel, g, w'. split; [done|].
    destruct (hoare_random_walk_sampling (graph w0) fuel start_node num_samples
                Hwf Hstart
                (mkWorld (graph w0) answers (cursor w0) (stdout w0)) eq_refl)
      as [_ Hr].
    rewrite Hrun in Hr. cbn [fst safe] in Hr.
    destruct Hr as (Hconn & Heq & _ & _). repeat split; try done; lia.
Qed.

(** X1. Let [G] be a NetworkX graph and [start_node] one of its nodes.
    - The call of [metropolis_hastings_sampling] raises nothing, and a graph
      it returns is a NetworkX graph made of nodes and edges of [G], with at
      most [max(num_samples, 1)] nodes; when the start node has a neighbour,
      the walk meets no dead end and the graph has exactly
      [max(num_samples, 1)] nodes.
    - When the start node has a neighbour and fewer than [num_samples] nodes
      can be reached from it, the call never returns, whatever the
      environment answers.
    - When [num_samples] nodes can be reached from the start node, the call
      returns for some answers of the environment, a graph of
      [max(num_samples, 1)] nodes. *)
Theorem mh_sample_is_subgraph_of_target_size
    (start_node : Node) (num_samples : Z) (w0 : World Node) :
  wf_graph (graph w0) → start_node ∈ nodes (graph w0) →
  (∀ fuel,
     match (metropolis_hastings_sampling fuel start_node num_samples w0).1 with
     | Ret g =>
         subgraph_of (graph w0) g ∧
         number_of_nodes g ≤ Z.max 1 num_samples ∧
         (has_neighbour (graph w0) start_node →
          number_of_nodes g = Z.max 1 num_samples)
     | Raise _ => False
     | OutOfFuel => True
     end) ∧
  (has_neighbour (graph w0) start_node →
   ¬ reaches_at_least (graph w0) start_node num_samples →
   ∀ fuel,
     (metropolis_hastings_sampling fuel start_node num_samples w0).1
     = OutOfFuel) ∧
  (reaches_at_least (graph w0) start_node num_samples →
   ∃ answers fuel g w',
     metropolis_hastings_sampling fuel start_node num_samples
       (mkWorld (graph w0) answers (cursor w0) (stdout w0)) = (Ret g, w') ∧
     subgraph_of (graph w0) g ∧
     number_of_nodes g = Z.max 1 num_samples).
Proof.
  intros Hwf Hstart.
  assert (∀ fuel w, graph w = graph w0 →
            safe (walk_result (graph w0) start_node num_samples)
              (metropolis_hastings_sampling fuel start_node num_samples w).1)
    as Hsafe.
  { intros fuel w Hw.
    by destruct (hoare_while (graph w0) (mh_body num_samples)
              (λ st, walk_inv (graph w0) start_node num_samples
                       (mh_sampled st) (mh_current st))
              (walk_result (graph w0) start_node num_samples)
              (λ st Hst, hoare_mh_body_walk (graph w0) start_node num_samples st
                           Hwf Hst)
              fuel (mh_init start_node) (walk_inv_init _ _ _ Hstart) w Hw)
      as [_ Hr]. }
  split; [|split].
  - intros fuel. specialize (Hsafe fuel w0 eq_refl). by destruct (_.1) as [g| |].
  - intros Hnb Hfew fuel. by apply (mh_never_returns (graph w0)).
  - intros Hreach.
    destruct (mh_can_return (graph w0) start_node num_samples
                (cursor w0) (stdout w0) Hwf Hstart Hreach)
      as (answers & fuel & g & w' & Hrun & Hsize).
    exists answers, fuel, g, w'. split; [done|]. split; [|done].
    specialize (Hsafe fuel (mkWorld (graph w0) answers (cursor w0) (stdout w0))
                  eq_refl).
    rewrite Hrun in Hsafe. apply Hsafe.
Qed.

(** X2. The same for [random_walk_sampling].
    - The call raises nothing, and a graph it returns is a NetworkX graph
      made of nodes and edges of [G], with at most [max(num_samples, 1)]
      nodes, and exactly that many when the start node has a neighbour.
    - When the start node has a neighbour and fewer than [num_samples] nodes
      can be reached from it, the call never returns, whatever the
      environment answers.
    - When [num_samples] nodes can be reached from the start node, the call
      returns for some answers of the environment, a graph of
      [max(num_samples, 1)] nodes. *)
Theorem rw_sample_is_subgraph_of_target_size
    (start_node : Node) (num_samples : Z) (w0 : World Node) :
  wf_graph (graph w0) → start_node ∈ nodes (graph w0) →
  (∀ fuel,
     match (random_walk_sampling fuel start_node num_samples w0).1 with
     | Ret g =>
         subgraph_of (graph w0) g ∧
         number_of_nodes g ≤ Z.max 1 num_samples ∧
         (has_neighbour (graph w0) start_node →
          number_of_nodes g = Z.max 1 num_samples)
     | Raise _ => False
     | OutOfFuel => True
     end) ∧
  (has_neighbour (graph w0) start_node →
   ¬ reaches_at_least (graph w0) start_node num_samples →
   ∀ fuel,
     (random_walk_sampling fuel start_node num_samples w0).1 = OutOfFuel) ∧
  (reaches_at_least (graph w0) start_node num_samples →
   ∃ answers fuel g w',
     random_walk_sampling fuel start_node num_samples
       (mkWorld (graph w0) answers (cursor w0) (stdout w0)) = (Ret g, w') ∧
     subgraph_of (graph w0) g ∧
     number_of_nodes g = Z.max 1 num_samples).
Proof.
  intros Hwf Hstart.
  assert (∀ fuel w, graph w = graph w0 →
            safe (walk_result (graph w0) start_node num_samples)
              (random_walk_sampling fuel start_node num_samples w).1)
    as Hsafe.
  { intros fuel w Hw.
    destruct (hoare_while (graph w0) (rw_body num_samples)
              (λ st, walk_inv (graph w0) start_node num_samples
                       (rw_sampled st) (rw_current st) ∧
                     (∀ n, n ∈ rw_visited st ↔ n ∈ nodes (rw_sampled st)))
              (walk_result (graph w0) start_node num_samples)
              (λ st Hst, hoare_rw_body_walk (graph w0) start_node num_samples st
                           Hwf Hst)
              fuel (rw_init start_node)) with (w := w) as [_ Hr]; [|done|done].
    split; [by apply walk_inv_init|]. intros n. unfold rw_init.
    cbn [rw_sampled rw_visited]. by rewrite elem_of_set_add, nodes_add_node. }
  split; [|split].
  - intros fuel. specialize (Hsafe fuel w0 eq_refl). by destruct (_.1) as [g| |].
  - intros Hnb Hfew fuel. by apply (rw_never_returns (graph w0)).
  - intros Hreach.
    destruct (rw_can_return (graph w0) start_node num_samples
                (cursor w0) (stdout w0) Hwf Hstart Hreach)
      as (answers & fuel & g & w' & Hrun & Hsize).
    exists answers, fuel, g, w'. split; [done|]. split; [|done].
    specialize (Hsafe fuel (mkWorld (graph w0) answers (cursor w0) (stdout w0))
                  eq_refl).
    rewrite Hrun in Hsafe. apply Hsafe.
Qed.

(** ** How many nodes can be reached *)

Lemma is_walk_reaches G u (path : list Node) v :
  is_walk G u path → v ∈ u :: path → rtc (adjacent G) u v.
Proof.
  revert u. induction path as [|x rest IH]; intros u Hwalk Hv.
  - apply list_elem_of_singleton in Hv as ->. done.
  - destruct Hwalk as [Hux Hrest].
    apply elem_of_cons in Hv as [->|Hv]; [done|].
    eapply rtc_l; [done|]. by apply IH.
Qed.

(** The nodes of a walk without repetitions can all be reached. *)
Lemma walk_reaches_at_least G (start_node : Node) (path : list Node) :
  NoDup (start_node :: path) → is_walk G start_node path →
  reaches_at_least G start_node (Z.of_nat (S (length path))).
Proof.
  intros Hnd Hwalk. exists (start_node :: path). split; [done|].
  split; [done|]. intros v Hv. by eapply is_walk_reaches.
Qed.

(** No more nodes can be reached than the graph has. *)
Lemma reaches_at_least_nodes G (start_node : Node) (k : Z) :
  wf_graph G → start_node ∈ nodes G →
  reaches_at_least G start_node k → k ≤ number_of_nodes G.
Proof.
  intros Hwf Hstart (l & Hnd & Hlen & Hreach).
  assert (l ⊆+ nodes G) as Hsub.
  { apply NoDup_submseteq; [done|]. intros v Hv.
    eapply rtc_adjacent_node; [done..|]. by apply Hreach. }
  apply submseteq_length in Hsub. unfold number_of_nodes, nodes in *.
  rewrite length_fmap in Hsub. lia.
Qed.
End Proofs.

(** * The theorems at work on concrete graphs *)

Ltac by_computation := apply (bool_decide_unpack _); vm_compute; exact I.

Example path5_built :
  path5 = foldl (λ g e, add_edge g e.1 e.2) [] [(1, 2); (2, 3); (3, 4); (4, 5)]%nat.
Proof. reflexivity. Qed.

Example path5_wf : wf_graph path5.
Proof. by_computation. Qed.

Example star3_wf : wf_graph star3.
Proof. by_computation. Qed.

Example star3_tail_built :
  star3_tail
  = foldl (λ g e, add_edge g e.1 e.2) [] [(0, 1); (0, 2); (0, 3); (1, 4)]%nat.
Proof. reflexivity. Qed.

Example star3_tail_wf : wf_graph star3_tail.
Proof. by_computation. Qed.

(** ** Floats *)

(** [round_binary64] on some quotients: [4 / 3] is 1.3333333333333333,
    [2 / 3] is 0.6666666666666666, [1 / 10] is 0.1, and [2^53 + 1] and
    [2^53 + 3] lie half way between two floats. *)
Example round_binary64_values :
  round_binary64 (4 # 3) = (6004799503160661 # 4503599627370496)%Q ∧
  round_binary64 (2 # 3) = (6004799503160661 # 9007199254740992)%Q ∧
  round_binary64 (1 # 10) = (3602879701896397 # 36028797018963968)%Q ∧
  round_binary64 (1 # 2) = (1 # 2)%Q ∧
  round_binary64 3 = 3%Q ∧
  round_binary64 9007199254740993 = 9007199254740992%Q ∧
  round_binary64 9007199254740995 = 9007199254740996%Q.
Proof. repeat split; vm_compute; reflexivity. Qed.

(** [round_binary64] against the division of the Standard Library's
    specification of IEEE 754 binary64, on the quotients of the integers
    from 1 to 60 and of some large ones. *)
Example round_binary64_agrees_with_SpecFloat :
  let operands :=
    (Pos.of_nat <$> seq 1 60)
    ++ [9007199254740993; 9007199254740995; 100000000000000000000;
        340282366920938463463374607431768211457]%positive in
  forallb (λ a,
    forallb (λ b,
      match spec_float_value
              (SFdiv 53 1024 (S754_finite false a 0) (S754_finite false b 0))
      with
      | Some q => Qeq_bool q (round_binary64 (Z.pos a # b))
      | None => false
      end) operands) operands
  = true.
Proof. vm_compute. reflexivity. Qed.

(** On the star with a tail, at the centre (degree 3), with the answers [0]
    (propose the leaf 1, of degree 2) and [6004799503160661]: the draw is
    the float 0.6666666666666666, which is what [2 / 3] returns, so it is not
    below the ratio; the step is rejected and the state is unchanged. *)
Lemma mh_rejection_witness :
  (wf_graph star3_tail ∧ 0%nat ∈ nodes star3_tail) ∧
  mh_body 3 (mh_init 0%nat) (world_of star3_tail [0; 6004799503160661])
  = (Ret (Continue (mh_init 0%nat)),
     mkWorld star3_tail (λ i, nth i [0; 6004799503160661] 0) 2 []).
Proof.
  split; [split; by_computation|].
  refine (proj1 (proj2 (mh_rejection_stays_and_no_zero_division
            0%nat 3 (world_of star3_tail [0; 6004799503160661]) (mh_init 0%nat)
            (world_of star3_tail [0; 6004799503160661]) _ _ _))
            [1; 2; 3]%nat 1%nat
            (mkWorld star3_tail (λ i, nth i [0; 6004799503160661] 0) 1 [])
            3 2 (6004799503160661 # 9007199254740992)%Q
            (6004799503160661 # 9007199254740992)%Q _ _ _ _ _ _ _ _ _ _).
  - by_computation.
  - by_computation.
  - apply loop_reaches_start.
  - by_computation.
  - reflexivity.
  - discriminate.
  - reflexivity.
  - reflexivity.
  - reflexivity.
  - vm_compute. reflexivity.
  - vm_compute. reflexivity.
  - intros Hlt. vm_compute in Hlt. discriminate.
Defined.

(** The same pass with the exact quotient 2/3 in place of the float would
    accept: the draw is below 2/3. *)
Example mh_draw_between_float_and_quotient :
  (6004799503160661 # 9007199254740992 < 2 # 3)%Q ∧
  ¬ (6004799503160661 # 9007199254740992 < round_binary64 (2 # 3))%Q.
Proof.
  split; [vm_compute; reflexivity|]. intros Hlt. vm_compute in Hlt. discriminate.
Qed.

(** The whole call on that input: the first proposal is rejected, the
    second (the leaf 2, of degree 1, drawn with 0.0) is accepted. *)
Example mh_run_with_rejection :
  (metropolis_hastings_sampling 3 0%nat 2
     (world_of star3_tail [0; 6004799503160661; 1])).1
  = Ret [(0, [2]); (2, [0])]%nat.
Proof. vm_compute. reflexivity. Qed.

(** On the path from node 1 with target 3 and the answers [0; 1]: the walk
    goes 1, 2, 3 and returns the path on these three nodes. *)
Lemma random_walk_witness :
  (wf_graph path5 ∧ 1%nat ∈ nodes path5 ∧ 1 ≤ 3) ∧
  ∃ g,
    (random_walk_sampling 3 1%nat 3 (world_of path5 [0; 1])).1 = Ret g ∧
    connected g ∧
    number_of_edges g = number_of_nodes g - 1 ∧
    number_of_edges g ≤ 3 - 1 ∧
    (∀ a b, (a, b) ∈ edges g → adjacent path5 a b).
Proof.
  split; [split; [|split]; [by_computation|by_computation|lia]|].
  exists [(1, [2]); (2, [1; 3]); (3, [2])]%nat. split; [reflexivity|].
  exact (proj1 (proj2 (proj2 (random_walk_sample_connected_and_small
                                1%nat 3 (world_of path5 [0; 1]) path5_wf
                                ltac:(by_computation) ltac:(lia)))) 3%nat).
Defined.

Example random_walk_run :
  (random_walk_sampling 3 1%nat 3 (world_of path5 [0; 1])).1
  = Ret [(1, [2]); (2, [1; 3]); (3, [2])]%nat.
Proof. reflexivity. Qed.

(** The loop need not end: on a single edge the walk can never collect a
    third node, whatever the random source answers. *)
Example random_walk_may_run_forever (answers : nat → Z) (fuel : nat) :
  (random_walk_sampling fuel 1%nat 3
     (mkWorld [(1, [2]); (2, [1])]%nat answers 0 [])).1 = OutOfFuel.
Proof.
  set (g := [(1, [2]); (2, [1])]%nat).
  assert (∀ c cur, cur = 1%nat ∨ cur = 2%nat →
            rw_body 3 (mkRW g cur [1; 2]%nat) (mkWorld g answers c [])
            = (Ret (Continue (mkRW g (3 - cur)%nat [1; 2]%nat)),
               mkWorld g answers (S c) [])) as Hpass.
  { intros c cur [-> | ->]; cbv -[Z.modulo]; by rewrite Z.mod_1_r. }
  assert (∀ fuel c cur, cur = 1%nat ∨ cur = 2%nat →
            (while (rw_body 3) fuel (mkRW g cur [1; 2]%nat)
               (mkWorld g answers c [])).1 = OutOfFuel) as Hloop.
  { clear fuel. intros fuel. induction fuel as [|fuel IH]; intros c cur Hcur; [done|].
    cbn [while]. unfold bind at 1. rewrite Hpass by done. apply IH. lia. }
  destruct fuel as [|fuel]; [done|].
  unfold random_walk_sampling. cbn [while]. unfold bind at 1.
  assert (rw_body 3 (rw_init 1%nat) (mkWorld g answers 0 [])
          = (Ret (Continue (mkRW g 2%nat [1; 2]%nat)), mkWorld g answers 1 []))
    as ->.
  { cbv -[Z.modulo]. by rewrite Z.mod_1_r. }
  apply Hloop. auto.
Qed.

(** On the path from node 1 with target 3 and the answers [0; 0; 1; 0]: both
    proposals are accepted and the call returns the path on 1, 2, 3. *)
Lemma mh_connected_witness :
  (wf_graph path5 ∧ 1%nat ∈ nodes path5) ∧
  ∃ g,
    (metropolis_hastings_sampling 3 1%nat 3
       (world_of path5 [0; 0; 1; 0])).1 = Ret g ∧
    number_of_nodes g = 3 ∧
    1%nat ∈ nodes g ∧ g ≠ [] ∧ connected g.
Proof.
  split; [split; by_computation|].
  exists [(1, [2]); (2, [1; 3]); (3, [2])]%nat.
  split; [vm_compute; reflexivity|]. split; [reflexivity|].
  exact (proj1 (proj2 (proj2 (mh_sample_has_start_and_is_connected
                                1%nat 3 (world_of path5 [0; 0; 1; 0]) path5_wf
                                ltac:(by_computation)))) 3%nat).
Defined.

(** Three nodes can be reached from node 1 of the path, so the call can
    return a full sample. *)
Example mh_can_return_on_path :
  ∃ answers fuel g w',
    metropolis_hastings_sampling fuel 1%nat 3 (mkWorld path5 answers 0 [])
      = (Ret g, w') ∧
    number_of_nodes g = Z.max 1 3.
Proof.
  apply mh_can_return; [apply path5_wf|by_computation|].
  apply (walk_reaches_at_least path5 1%nat [2; 3]%nat); by_computation.
Qed.

Example mh_target_zero :
  (metropolis_hastings_sampling 1 1%nat 0 (world_of path5 [])).1
  = Ret [(1%nat, [])].
Proof. reflexivity. Qed.

Example mh_run :
  (metropolis_hastings_sampling 2 1%nat 2 (world_of path5 [])).1
  = Ret [(1, [2]); (2, [1])]%nat.
Proof. reflexivity. Qed.

(** An isolated start node is a dead end, not a division by zero. *)
Example mh_isolated_start :
  (metropolis_hastings_sampling 1 7%nat 3 (world_of [(7%nat, [])] [])).1
  = Ret [(7%nat, [])].
Proof. reflexivity. Qed.

Lemma random_node_sampling_witness :
  (wf_graph path5 ∧ 0 ≤ 3) ∧
  (3 ≤ number_of_nodes path5 →
   ∃ sampled_nodes w',
     random_node_sampling 3 (world_of path5 [0; 0; 1]) = (Ret sampled_nodes, w') ∧
     Z.of_nat (length sampled_nodes) = 3 ∧
     NoDup sampled_nodes ∧
     ∀ n, n ∈ sampled_nodes → n ∈ nodes path5).
Proof.
  split; [split; [by_computation|lia]|].
  apply (proj1 (random_node_sampling_exact_or_fails
                  3 (world_of path5 [0; 0; 1]) path5_wf ltac:(lia))).
Defined.

Example random_node_sampling_run :
  (random_node_sampling 3 (world_of path5 [0; 0; 1])).1 = Ret [1; 2; 4]%nat ∧
  (random_node_sampling 6 (world_of path5 [0; 0; 1])).1 = Raise ValueError.
Proof. split; reflexivity. Qed.

Lemma random_edge_sampling_witness :
  (wf_graph path5 ∧ 0 ≤ 2) ∧
  (∃ shuffled sampled_edges w',
     random_shuffle (edges path5) (world_of path5 [3; 1]) = (Ret shuffled, w') ∧
     random_edge_sampling 2 (world_of path5 [3; 1]) = (Ret sampled_edges, w') ∧
     shuffled ≡ₚ edges path5 ∧
     sampled_edges = take (Z.to_nat 2) shuffled ∧
     (number_of_edges path5 < 2 → sampled_edges = shuffled) ∧
     (∀ e, e ∈ sampled_edges → e ∈ edges path5) ∧
     NoDup sampled_edges ∧
     (∀ a b, (a, b) ∈ sampled_edges → (b, a) ∈ sampled_edges → a = b) ∧
     Z.of_nat (length sampled_edges) = Z.min 2 (number_of_edges path5)) ∧
  (∀ w1 w2 : World nat,
     (random_shuffle (edges path5) w1).1 = (random_shuffle (edges path5) w2).1 ↔
     shuffle_positions (length (edges path5)) w1
       = shuffle_positions (length (edges path5)) w2) ∧
  (∀ order,
     order ≡ₚ edges path5 →
     ∃ answers,
       (random_edge_sampling 2 (mkWorld path5 answers 0 [])).1
       = Ret (take (Z.to_nat 2) order)).
Proof.
  split; [split; [by_computation|lia]|].
  apply (random_edge_sampling_prefix_of_shuffle
           2 (world_of path5 [3; 1]) path5_wf ltac:(lia)).
Defined.

Example random_edge_sampling_run :
  (random_edge_sampling 10 (world_of path5 [3; 1])).1
  = Ret [(4, 5); (2, 3); (1, 2); (3, 4)]%nat ∧
  (random_edge_sampling 2 (world_of path5 [3; 1])).1
  = Ret [(4, 5); (2, 3)]%nat.
Proof. split; reflexivity. Qed.

Lemma induced_edge_sampling_witness :
  (wf_graph path5 ∧ 0 ≤ 10) ∧
  ∃ sampled_edges w',
    induced_edge_sampling 10 (world_of path5 []) = (Ret sampled_edges, w') ∧
    (∀ u v, (u, v) ∈ sampled_edges → adjacent path5 u v) ∧
    Z.of_nat (length sampled_edges) ≤ Z.min 10 (2 * number_of_edges path5) ∧
    (2 * number_of_edges path5 ≤ 10 →
     ∀ u v, adjacent path5 u v →
            (u, v) ∈ sampled_edges ∧ (v, u) ∈ sampled_edges).
Proof.
  split; [split; [by_computation|lia]|].
  apply (induced_edge_sampling_pairs_and_bound
           10 (world_of path5 []) path5_wf ltac:(lia)).
Defined.

(** The path has 4 edges; with quota 10 all 8 (node, neighbour) pairs are
    returned, each edge from both ends. *)
Example induced_edge_sampling_run :
  (induced_edge_sampling 10 (world_of path5 [])).1
  = Ret [(1, 2); (2, 1); (2, 3); (3, 2); (3, 4); (4, 3); (4, 5); (5, 4)]%nat.
Proof. reflexivity. Qed.

(** Three initial nodes and a requested size of 2: the loop of
    [breadth_first_sampling] is not entered, and all three initial nodes
    are returned. *)
Lemma bfs_returns_more_than_requested :
  wf_graph path5 ∧
  (∀ i, i ∈ [1; 2; 3]%nat → i ∈ nodes path5) ∧
  ∃ sampled,
    (breadth_first_sampling 1 [1; 2; 3]%nat 2 (world_of path5 [])).1 = Ret sampled ∧
    ¬ Z.of_nat (length sampled) ≤ 2.
Proof.
  split; [by_computation|]. split.
  - intros i Hi. apply (bool_decide_unpack _).
    repeat (apply elem_of_cons in Hi as [->|Hi]; [by vm_compute|]).
    by apply elem_of_nil in Hi.
  - exists [1; 2; 3]%nat. split; [reflexivity|]. simpl. lia.
Qed.

Lemma dfs_bfs_witness :
  wf_graph path5 ∧
  ∀ fuel,
    match (depth_first_sampling fuel 1%nat 3 (world_of path5 [])).1 with
    | Ret sampled =>
        Z.of_nat (length sampled) ≤ 3 ∧
        ∀ n, n ∈ sampled → rtc (adjacent path5) 1%nat n
    | Raise _ => False
    | OutOfFuel => (fuel ≤ dfs_measure path5 ([], [1%nat]))%nat
    end.
Proof.
  split; [by_computation|]. intros fuel.
  apply (proj1 (dfs_bfs_size_and_reachability (world_of path5 []) path5_wf)
           fuel 1%nat 3 ltac:(by_computation) ltac:(lia)).
Defined.

Example dfs_run :
  (depth_first_sampling 4 1%nat 3 (world_of path5 [])).1 = Ret [1; 2; 3]%nat.
Proof. reflexivity. Qed.

(** The scenario of the path: from node 1 with size 3, breadth-first
    sampling can only return 1, 2, 3. *)
Example bfs_run :
  (breadth_first_sampling 4 [1]%nat 3 (world_of path5 [])).1 = Ret [1; 2; 3]%nat.
Proof. reflexivity. Qed.

(** Three initial nodes and a target of 2: [snowball_sampling] admits
    nothing and returns the three initial nodes. *)
Lemma snowball_returns_more_than_target :
  wf_graph path5 ∧
  (∀ i, i ∈ [1; 2; 3]%nat → i ∈ nodes path5) ∧
  ∃ sampled,
    (snowball_sampling [1; 2; 3]%nat 2 1 (world_of path5 [])).1 = Ret sampled ∧
    ¬ Z.of_nat (length sampled) ≤ 2.
Proof.
  split; [by_computation|]. split.
  - intros i Hi. apply (bool_decide_unpack _).
    repeat (apply elem_of_cons in Hi as [->|Hi]; [by vm_compute|]).
    by apply elem_of_nil in Hi.
  - exists [1; 2; 3]%nat. split; [reflexivity|]. simpl. lia.
Qed.

Lemma snowball_witness :
  (wf_graph path5 ∧ (∀ i, i ∈ [3]%nat → i ∈ nodes path5)) ∧
  ∃ sampled w' d st w,
    snowball_sampling [3]%nat 4 2 (world_of path5 []) = (Ret sampled, w') ∧
    snowball_reaches 4 2 [3]%nat (world_of path5 []) d st w ∧
    sampled ≡ₚ st.1 ∧
    Z.of_nat (length sampled) ≤ Z.max 4 (set_len (set_of [3]%nat)).
Proof.
  assert (∀ i, i ∈ [3]%nat → i ∈ nodes path5) as Hinit.
  { intros i ->%list_elem_of_singleton. by_computation. }
  split; [split; [by_computation|done]|].
  apply (proj2 (proj2 (snowball_rounds_admit_neighbours_and_size
                         [3]%nat 4 2 (world_of path5 []) path5_wf Hinit))).
Defined.

Example snowball_run :
  (snowball_sampling [3]%nat 4 2 (world_of path5 [])).1 = Ret [3; 2; 4; 1]%nat.
Proof. reflexivity. Qed.

(** The star has 4 nodes; asked for 5, [degree_based_node_sampling]
    returns the 4 it has. *)
Lemma degree_based_returns_fewer_than_asked :
  wf_graph star3 ∧
  ∃ sampled,
    (degree_based_node_sampling 5 (world_of star3 [])).1 = Ret sampled ∧
    Z.of_nat (length sampled) ≠ 5.
Proof.
  split; [by_computation|].
  exists [0; 1; 2; 3]%nat. split; [reflexivity|]. simpl. lia.
Qed.

Lemma degree_based_witness :
  wf_graph star3 ∧
  ∃ sampled_nodes w',
    degree_based_node_sampling 1 (world_of star3 []) = (Ret sampled_nodes, w') ∧
    (0 ≤ 1 →
     Z.of_nat (length sampled_nodes) = Z.min 1 (number_of_nodes star3)) ∧
    NoDup sampled_nodes ∧
    (∀ n, n ∈ sampled_nodes → n ∈ nodes star3) ∧
    StronglySorted (degree_ge star3) sampled_nodes ∧
    (∀ n m, n ∈ nodes star3 → n ∉ sampled_nodes → m ∈ sampled_nodes →
            degree_ge star3 m n).
Proof.
  split; [by_computation|].
  apply (degree_based_sampling_top_by_degree 1 (world_of star3 []) star3_wf).
Defined.

(** The scenario of the star: the one node of largest degree is the
    centre. *)
Example degree_based_run :
  (degree_based_node_sampling 1 (world_of star3 [])).1 = Ret [0%nat].
Proof. reflexivity. Qed.

(** ** Further properties of the sampler, on the path and the star *)

(** On the path from node 1: with target 3 and the answers [0; 0; 1; 0] the
    call returns three nodes; with target 7, more than the path has, it
    never returns. *)
Lemma mh_subgraph_witness :
  (wf_graph path5 ∧ 1%nat ∈ nodes path5 ∧
   has_neighbour path5 1%nat ∧ ¬ reaches_at_least path5 1%nat 7) ∧
  (∃ g,
     (metropolis_hastings_sampling 3 1%nat 3
        (world_of path5 [0; 0; 1; 0])).1 = Ret g ∧
     subgraph_of path5 g ∧
     number_of_nodes g ≤ Z.max 1 3 ∧
     (has_neighbour path5 1%nat → number_of_nodes g = Z.max 1 3)) ∧
  (∀ fuel,
     (metropolis_hastings_sampling fuel 1%nat 7
        (world_of path5 [0; 0; 1; 0])).1 = OutOfFuel).
Proof.
  assert (has_neighbour path5 1%nat) as Hnb by by_computation.
  assert (¬ reaches_at_least path5 1%nat 7) as Hfew.
  { intros Hreach.
    apply (reaches_at_least_nodes path5 1%nat 7 path5_wf ltac:(by_computation))
      in Hreach.
    vm_compute in Hreach. by destruct Hreach. }
  split; [split; [by_computation|split; [by_computation|done]]|]. split.
  - exists [(1, [2]); (2, [1; 3]); (3, [2])]%nat.
    split; [vm_compute; reflexivity|].
    exact (proj1 (mh_sample_is_subgraph_of_target_size
                    1%nat 3 (world_of path5 [0; 0; 1; 0]) path5_wf
                    ltac:(by_computation)) 3%nat).
  - exact (proj1 (proj2 (mh_sample_is_subgraph_of_target_size
                           1%nat 7 (world_of path5 [0; 0; 1; 0]) path5_wf
                           ltac:(by_computation))) Hnb Hfew).
Defined.

(** The same for the random walk, with the answers [0; 1]. *)
Lemma rw_subgraph_witness :
  (wf_graph path5 ∧ 1%nat ∈ nodes path5 ∧
   has_neighbour path5 1%nat ∧ ¬ reaches_at_least path5 1%nat 7) ∧
  (∃ g,
     (random_walk_sampling 3 1%nat 3 (world_of path5 [0; 1])).1 = Ret g ∧
     subgraph_of path5 g ∧
     number_of_nodes g ≤ Z.max 1 3 ∧
     (has_neighbour path5 1%nat → number_of_nodes g = Z.max 1 3)) ∧
  (∀ fuel,
     (random_walk_sampling fuel 1%nat 7 (world_of path5 [0; 1])).1 = OutOfFuel).
Proof.
  assert (has_neighbour path5 1%nat) as Hnb by by_computation.
  assert (¬ reaches_at_least path5 1%nat 7) as Hfew.
  { intros Hreach.
    apply (reaches_at_least_nodes path5 1%nat 7 path5_wf ltac:(by_computation))
      in Hreach.
    vm_compute in Hreach. by destruct Hreach. }
  split; [split; [by_computation|split; [by_computation|done]]|]. split.
  - exists [(1, [2]); (2, [1; 3]); (3, [2])]%nat. split; [reflexivity|].
    exact (proj1 (rw_sample_is_subgraph_of_target_size
                    1%nat 3 (world_of path5 [0; 1]) path5_wf
                    ltac:(by_computation)) 3%nat).
  - exact (proj1 (proj2 (rw_sample_is_subgraph_of_target_size
                           1%nat 7 (world_of path5 [0; 1]) path5_wf
                           ltac:(by_computation))) Hnb Hfew).
Defined.

(** Node 9 is not on the path: with target 1 it is returned all the same,
    with target 5 both walks raise. *)
Lemma walks_absent_start_witness :
  ((0 < 1)%nat ∧ 1 ≤ 1 ∧ 1 < 5 ∧ 9%nat ∉ nodes path5) ∧
  (metropolis_hastings_sampling 1 9%nat 1 (world_of path5 [])
     = (Ret [(9%nat, [])], world_of path5 []) ∧
   random_walk_sampling 1 9%nat 1 (world_of path5 [])
     = (Ret [(9%nat, [])], world_of path5 [])) ∧
  (metropolis_hastings_sampling 1 9%nat 5 (world_of path5 [])
     = (Raise NetworkXError, world_of path5 []) ∧
   random_walk_sampling 1 9%nat 5 (world_of path5 [])
     = (Raise NetworkXError, world_of path5 [])).
Proof.
  split; [repeat split; try lia; by_computation|]. split.
  - apply (proj1 (walks_small_target_or_absent_start
                    1 9%nat 1 (world_of path5 []) ltac:(lia))). lia.
  - apply (proj2 (walks_small_target_or_absent_start
                    1 9%nat 5 (world_of path5 []) ltac:(lia)));
      [lia|by_computation].
Defined.

Lemma walks_isolated_start_witness :
  ((0 < 1)%nat ∧ 1 < 3 ∧ adj [(7%nat, [])] 7%nat = Some []) ∧
  metropolis_hastings_sampling 1 7%nat 3 (world_of [(7%nat, [])] [])
    = (Ret [(7%nat, [])],
       mkWorld [(7%nat, [])] (λ i, nth i [] 0) 0
         ["No neighbors to move to. Sampling stopped."]) ∧
  random_walk_sampling 1 7%nat 3 (world_of [(7%nat, [])] [])
    = (Ret [(7%nat, [])],
       mkWorld [(7%nat, [])] (λ i, nth i [] 0) 0
         ["No neighbors to move to. Sampling stopped."]).
Proof.
  split; [split; [lia|split; [lia|reflexivity]]|].
  apply (walks_stop_at_isolated_start
           1 7%nat 3 (world_of [(7%nat, [])] []) ltac:(lia) ltac:(lia) eq_refl).
Defined.

(** On the path, from node 1 (degree 1) to its neighbour 2 (degree 2): the
    move is accepted. *)
Lemma mh_acceptance_witness :
  (number_of_nodes (mh_sampled (mh_init 1%nat)) < 3 ∧ 0 < 1 ≤ 2) ∧
  mh_body 3 (mh_init 1%nat) (world_of path5 [0; 0])
  = (Ret (Continue (mh_accept (mh_init 1%nat) 2%nat)),
     mkWorld path5 (λ i, nth i [0; 0] 0) 2 []).
Proof.
  split; [split; [by_computation|lia]|].
  refine (mh_accepts_moves_to_no_smaller_degree
            3 (mh_init 1%nat) (world_of path5 [0; 0])
            [2]%nat 2%nat (mkWorld path5 (λ i, nth i [0; 0] 0) 1 [])
            1 2 (Qmake 0 (2 ^ 53))
            (mkWorld path5 (λ i, nth i [0; 0] 0) 2 [])
            _ _ _ _ _ _ _ _).
  - by_computation.
  - reflexivity.
  - discriminate.
  - reflexivity.
  - reflexivity.
  - reflexivity.
  - reflexivity.
  - lia.
Defined.

Lemma snowball_within_depth_witness :
  (wf_graph path5 ∧ (∀ i, i ∈ [3]%nat → i ∈ nodes path5)) ∧
  ∃ sampled w',
    snowball_sampling [3]%nat 4 2 (world_of path5 []) = (Ret sampled, w') ∧
    NoDup sampled ∧
    (∀ i, i ∈ [3]%nat → i ∈ sampled) ∧
    (∀ n, n ∈ sampled → within path5 [3]%nat (Z.to_nat 2) n).
Proof.
  assert (∀ i, i ∈ [3]%nat → i ∈ nodes path5) as Hinit.
  { intros i ->%list_elem_of_singleton. by_computation. }
  split; [split; [by_computation|done]|].
  apply (snowball_sample_within_depth
           [3]%nat 4 2 (world_of path5 []) path5_wf Hinit).
Defined.

(** Node 9 is not on the path.  With depth 0 it is returned; with depth 1
    the call raises, although the target of 1 is met from the start. *)
Lemma snowball_absent_initial_node_witness :
  (0 ≤ 0 ∧ 1 ≤ 1 ∧ 9%nat ∈ [1; 9]%nat ∧ 9%nat ∉ nodes path5) ∧
  (∃ sampled w',
     snowball_sampling [1; 9]%nat 1 0 (world_of path5 []) = (Ret sampled, w') ∧
     sampled ≡ₚ set_of [1; 9]%nat) ∧
  (snowball_sampling [1; 9]%nat 1 1 (world_of path5 [])).1 = Raise NetworkXError.
Proof.
  split; [repeat split; try lia; by_computation|]. split.
  - apply (proj1 (snowball_checks_initial_nodes_by_expanding
                    [1; 9]%nat 1 0 (world_of path5 []))). lia.
  - apply (proj2 (snowball_checks_initial_nodes_by_expanding
                    [1; 9]%nat 1 1 (world_of path5 []))); [lia|].
    exists 9%nat. split; by_computation.
Defined.

Lemma dfs_component_witness :
  (wf_graph path5 ∧ 1%nat ∈ nodes path5) ∧
  match (depth_first_sampling 10 1%nat 3 (world_of path5 [])).1 with
  | Ret sampled =>
      NoDup sampled ∧
      (1 ≤ 3 → 1%nat ∈ sampled) ∧
      (Z.of_nat (length sampled) = Z.max 0 3 ∨
       ∀ n, n ∈ sampled ↔ rtc (adjacent path5) 1%nat n)
  | Raise _ => False
  | OutOfFuel => (10 ≤ dfs_measure path5 ([], [1%nat]))%nat
  end.
Proof.
  split; [split; by_computation|].
  apply (dfs_sample_is_full_or_whole_component
           10 1%nat 3 (world_of path5 []) path5_wf ltac:(by_computation)).
Defined.

Lemma bfs_component_witness :
  (wf_graph path5 ∧ (∀ i, i ∈ [3]%nat → i ∈ nodes path5)) ∧
  match (breadth_first_sampling 10 [3]%nat 9 (world_of path5 [])).1 with
  | Ret sampled =>
      NoDup sampled ∧
      (∀ i, i ∈ [3]%nat → i ∈ sampled) ∧
      (9 ≤ Z.of_nat (length sampled) ∨
       ∀ n, n ∈ sampled ↔ reachable_from path5 [3]%nat n)
  | Raise _ => False
  | OutOfFuel =>
      (10 ≤ bfs_measure path5 (set_of [3]%nat, [3]%nat))%nat
  end.
Proof.
  assert (∀ i, i ∈ [3]%nat → i ∈ nodes path5) as Hinit.
  { intros i ->%list_elem_of_singleton. by_computation. }
  split; [split; [by_computation|done]|].
  apply (bfs_sample_is_full_or_whole_component
           10 [3]%nat 9 (world_of path5 []) path5_wf Hinit).
Defined.

Lemma dfs_absent_node_witness :
  ((0 < 1)%nat ∧ 0 ≤ 0 ∧ 1 ≤ 2 ∧ 9%nat ∉ nodes path5) ∧
  depth_first_sampling 1 9%nat 0 (world_of path5 [])
    = (Ret [], world_of path5 []) ∧
  depth_first_sampling 1 9%nat 2 (world_of path5 [])
    = (Raise NetworkXError, world_of path5 []).
Proof.
  split; [repeat split; try lia; by_computation|]. split.
  - apply (proj1 (dfs_empty_target_or_absent_node
                    1 9%nat 0 (world_of path5 []) ltac:(lia))). lia.
  - apply (proj2 (dfs_empty_target_or_absent_node
                    1 9%nat 2 (world_of path5 []) ltac:(lia)));
      [lia|by_computation].
Defined.

Lemma bfs_absent_node_witness :
  ((0 < 1)%nat ∧ 2 ≤ set_len (set_of [9; 1]%nat) ∧
   set_len (set_of [9; 1]%nat) < 5 ∧ 9%nat ∉ nodes path5) ∧
  (∃ sampled w',
     breadth_first_sampling 1 [9; 1]%nat 2 (world_of path5 []) = (Ret sampled, w') ∧
     sampled ≡ₚ set_of [9; 1]%nat) ∧
  breadth_first_sampling 1 [9; 1]%nat 5 (world_of path5 [])
    = (Raise NetworkXError, world_of path5 []).
Proof.
  split; [repeat split; by_computation|]. split.
  - apply (proj1 (bfs_met_target_or_absent_node
                    1 [9; 1]%nat 2 (world_of path5 []) ltac:(lia))).
    by_computation.
  - apply (proj2 (bfs_met_target_or_absent_node
                    1 [9; 1]%nat 5 (world_of path5 []) ltac:(lia))
             ltac:(by_computation) 9%nat [1%nat] eq_refl).
    by_computation.
Defined.


Example negative_sample_sizes_run :
  (random_edge_sampling (-1) (world_of path5 [3; 1])).1
    = Ret [(4, 5); (2, 3); (1, 2)]%nat ∧
  (degree_based_node_sampling (-1) (world_of path5 [])).1
    = Ret [2; 3; 4; 1]%nat.
Proof. split; reflexivity. Qed.

(** The path has 8 (node, neighbour) pairs: a quota of 3 is met. *)
Lemma induced_edge_sampling_length_witness :
  (wf_graph path5 ∧ 0 ≤ 3) ∧
  ∃ sampled_edges w',
    induced_edge_sampling 3 (world_of path5 []) = (Ret sampled_edges, w') ∧
    NoDup sampled_edges ∧
    Z.of_nat (length sampled_edges) = Z.min 3 (Z.of_nat (adjacency_size path5)).
Proof.
  split; [split; [by_computation|lia]|].
  apply (induced_edge_sampling_length 3 (world_of path5 []) path5_wf ltac:(lia)).
Defined.

(** ** plot_degree_correlation on the star

    The star is bipartite: the centre on one side, the leaves on the
    other.  So is the star with a tail: 0 and 4 on one side, 1, 2 and 3 on
    the other. *)

Lemma degree_correlations_witness :
  (wf_graph star3 ∧ (∀ n, n ∈ [1; 2; 3]%nat → n ∈ nodes star3)) ∧
  ∃ correlations,
    degree_correlations [1; 2; 3]%nat [] (world_of star3 [])
      = (Ret correlations, world_of star3 []) ∧
    correlations =
      correlation_point star3 <$> filter (has_neighbour star3) [1; 2; 3]%nat ∧
    Forall (λ p, 1 ≤ p.1 ∧ (1 <= p.2)%Q) correlations.
Proof.
  assert (∀ n, n ∈ [1; 2; 3]%nat → n ∈ nodes star3) as Htop.
  { intros n Hn. apply (bool_decide_unpack _).
    repeat (apply elem_of_cons in Hn as [->|Hn]; [by vm_compute|]).
    by apply elem_of_nil in Hn. }
  split; [split; [by_computation|done]|].
  apply (degree_correlations_one_point_per_connected_top_node
           [1; 2; 3]%nat (world_of star3 []) star3_wf Htop).
Defined.

(** Each leaf has degree 1 and one neighbour, the centre, of degree 3. *)
Example degree_correlations_on_star :
  (degree_correlations [1; 2; 3]%nat [] (world_of star3 [])).1
  = Ret [(1, 3%Q); (1, 3%Q); (1, 3%Q)].
Proof. vm_compute. reflexivity. Qed.

(** On the star with a tail the centre has degree 3 and neighbours of
    degrees 2, 1 and 1: their mean is the float 1.3333333333333333. *)
Example degree_correlations_rounds_the_mean :
  (degree_correlations [0; 4]%nat [] (world_of star3_tail [])).1
  = Ret [(3, (6004799503160661 # 4503599627370496)%Q); (1, 2%Q)].
Proof. vm_compute. reflexivity. Qed.

Lemma plot_degree_correlation_witness :
  (wf_graph star3 ∧ (∀ n, n ∈ [0]%nat → n ∈ nodes star3)) ∧
  ∃ order pw',
    order ≡ₚ [0]%nat ∧
    plot_degree_correlation [0]%nat (mkPlotWorld (world_of star3 []) [])
      = (Ret (), pw') ∧
    graph (py_world pw') = star3 ∧
    match filter (has_neighbour star3) order with
    | [] =>
        (∀ n, n ∈ [0]%nat → adj star3 n = Some []) ∧
        figure pw' = [] ∧
        stdout (py_world pw') = [] ++ ["No degree correlation data available."]
    | connected_top =>
        figure pw' =
          [] ++
          [Scatter ((λ n, (correlation_point star3 n).1) <$> connected_top)
                   ((λ n, (correlation_point star3 n).2) <$> connected_top)
                   (round_binary64 (6 # 10)) "orange";
           Title "Degree Correlation (Top vs Bottom Nodes)";
           XLabel "Degree of Top Node";
           YLabel "Average Degree of Connected Bottom Nodes";
           Grid true;
           Show] ∧
        stdout (py_world pw') = []
    end.
Proof.
  assert (∀ n, n ∈ [0]%nat → n ∈ nodes star3) as Htop.
  { intros n ->%list_elem_of_singleton. by_computation. }
  split; [split; [by_computation|done]|].
  apply (plot_degree_correlation_draws_or_reports
           [0]%nat (mkPlotWorld (world_of star3 []) []) star3_wf Htop).
Defined.

(** The centre has degree 3 and three neighbours of degree 1.  Iterating
    over the set of top nodes takes one answer of the environment; [alpha]
    is the float 0.6. *)
Example plot_degree_correlation_run :
  (plot_degree_correlation [0]%nat (mkPlotWorld (world_of star3 []) [])).2
  = mkPlotWorld (mkWorld star3 (λ i, nth i [] 0) 1 [])
      [Scatter [3] [1%Q] (5404319552844595 # 9007199254740992)%Q "orange";
       Title "Degree Correlation (Top vs Bottom Nodes)";
       XLabel "Degree of Top Node";
       YLabel "Average Degree of Connected Bottom Nodes";
       Grid true;
       Show] ∧
  (plot_degree_correlation [7]%nat (mkPlotWorld (world_of [(7%nat, [])] []) [])).2
  = mkPlotWorld
      (mkWorld [(7%nat, [])] (λ i, nth i [] 0) 1
         ["No degree correlation data available."]) [].
Proof. split; vm_compute; reflexivity. Qed.
